(** * GNS bot: the name-compliance state machine

    A shallow embedding of [bot.py] and [config.py]: the name validator
    (two regular expressions), the in-memory stores, the handlers that
    mutate them, and the calls the handlers issue to the chat platform.

    Conventions.
    - A Python [str] is a list of Unicode code points ([list N]).
    - A [datetime] is an integer count of microseconds ([Z]); a
      [timedelta] is a difference of two such counts.  A handler takes
      the reading of the clock as an argument [now]: all the calls of
      [datetime.datetime.now()] in one run read the same instant.
    - Every [dict] keyed by user id is a [gmap Z _]; [group_admins] is a
      [gset Z].  A [gmap] holds the entries of a dict and not the order
      of their insertion: where a loop over a dict issues calls, the
      order in which the dict lists its entries is a parameter
      ([InsertionOrder]).
    - The chat platform is an interface ([Platform]): it answers each call
      the bot issues, possibly by raising.  Handlers run in a state and
      exception monad over the stores; the calls they issue are logged in
      order, together with the platform's answers. *)

From Stdlib Require Import ZArith NArith Ascii String List Bool Lia.
From stdpp Require Import base option list gmap strings.

Open Scope Z_scope.

(* ================================================================== *)
(** * Definitions *)
(* ================================================================== *)

(** ** Strings *)

Definition str := list N.

(** Literal strings of the source, as code points. *)
Definition lit (s : string) : str :=
  map N_of_ascii (list_ascii_of_string s).

Definition LF : N := 10%N.

(** [s.startswith(p)] *)
Fixpoint startswith (p s : str) : bool :=
  match p, s with
  | [], _ => true
  | _ :: _, [] => false
  | a :: p', b :: s' => N.eqb a b && startswith p' s'
  end.

(** ** Regular expressions ([import re]) *)

(** The part of Unicode that [re] consults for [\s] and [\d] on code
    points outside ASCII: the whitespace property and the decimal-digit
    category.  Both tables belong to the interpreter, not to the bot. *)
Class Unicode := {
  unicode_space : N -> bool;
  unicode_decimal : N -> bool
}.

(** [[A-Z]] and [[a-z]]: the pattern is compiled without [re.IGNORECASE],
    so the ranges are the ASCII ones. *)
Definition re_upper (c : N) : bool := (65 <=? c)%N && (c <=? 90)%N.
Definition re_lower (c : N) : bool := (97 <=? c)%N && (c <=? 122)%N.

(** ASCII whitespace: TAB, LF, VT, FF, CR, the separators FS GS RS US and
    the space. *)
Definition ascii_space (c : N) : bool :=
  ((9 <=? c)%N && (c <=? 13)%N) || ((28 <=? c)%N && (c <=? 31)%N) || (c =? 32)%N.
Definition ascii_digit (c : N) : bool := (48 <=? c)%N && (c <=? 57)%N.

(** [\s] and [\d] of a [str] pattern. *)
Definition re_space `{Unicode} (c : N) : bool :=
  if (c <? 128)%N then ascii_space c else unicode_space c.
Definition re_digit `{Unicode} (c : N) : bool :=
  if (c <? 128)%N then ascii_digit c else unicode_decimal c.

Inductive regex : Type :=
| Void
| Eps
| Cls (p : N -> bool)
| Cat (r1 r2 : regex)
| Alt (r1 r2 : regex)
| Star (r : regex).

(** [r+], [(?:r)?], [r{n}], [r{lo,hi}] and a literal character. *)
Definition Plus (r : regex) : regex := Cat r (Star r).
Definition Opt (r : regex) : regex := Alt r Eps.
Fixpoint Rep (n : nat) (r : regex) : regex :=
  match n with
  | O => Eps
  | S n' => Cat r (Rep n' r)
  end.
Fixpoint UpTo (n : nat) (r : regex) : regex :=
  match n with
  | O => Eps
  | S n' => Opt (Cat r (UpTo n' r))
  end.
Definition Range (lo hi : nat) (r : regex) : regex :=
  Cat (Rep lo r) (UpTo (hi - lo) r).
Definition Chr (c : N) : regex := Cls (N.eqb c).

Fixpoint cats (rs : list regex) : regex :=
  match rs with
  | [] => Eps
  | [r] => r
  | r :: rs' => Cat r (cats rs')
  end.

(** Matching by derivatives. *)
Fixpoint nullable (r : regex) : bool :=
  match r with
  | Void => false
  | Eps => true
  | Cls _ => false
  | Cat r1 r2 => nullable r1 && nullable r2
  | Alt r1 r2 => nullable r1 || nullable r2
  | Star _ => true
  end.

Fixpoint deriv (c : N) (r : regex) : regex :=
  match r with
  | Void => Void
  | Eps => Void
  | Cls p => if p c then Eps else Void
  | Cat r1 r2 =>
      if nullable r1 then Alt (Cat (deriv c r1) r2) (deriv c r2)
      else Cat (deriv c r1) r2
  | Alt r1 r2 => Alt (deriv c r1) (deriv c r2)
  | Star r1 => Cat (deriv c r1) (Star r1)
  end.

(** Does [r] match the whole of [s]? *)
Fixpoint fullmatch (r : regex) (s : str) : bool :=
  match s with
  | [] => nullable r
  | c :: s' => fullmatch (deriv c r) s'
  end.

(** [s] without its final line feed, when it ends in one. *)
Fixpoint chomp (s : str) : option str :=
  match s with
  | [] => None
  | [c] => if (c =? LF)%N then Some [] else None
  | c :: s' => cons c <$> chomp s'
  end.

(** [bool(re.match("^" r "$", s))].  [re.match] anchors at the start;
    without [re.MULTILINE], [$] holds at the end of the string and also
    just before a line feed that ends the string.  The patterns have no
    back-references or look-around, so the backtracking search succeeds
    exactly when some way of matching exists. *)
Definition re_match_anchored (r : regex) (s : str) : bool :=
  fullmatch r s ||
  match chomp s with
  | Some s' => fullmatch r s'
  | None => false
  end.

(** ** The name validator *)

Inductive Mode := pre_matric | post_matric.

#[global] Instance Mode_eq_dec : EqDecision Mode.
Proof. solve_decision. Defined.

Section Patterns.
Context `{Unicode}.

(** [[A-Z][a-z]+(?:\s+[A-Z][a-z]+)*], the prefix both patterns share. *)
Definition name_words : regex :=
  cats [Cls re_upper; Plus (Cls re_lower);
        Star (cats [Plus (Cls re_space); Cls re_upper; Plus (Cls re_lower)])].

(** [^[A-Z][a-z]+(?:\s+[A-Z][a-z]+)*\s+[A-Z]+\s+\d{12}$] *)
Definition PRE_MATRIC_PATTERN : regex :=
  cats [name_words; Plus (Cls re_space); Plus (Cls re_upper);
        Plus (Cls re_space); Rep 12 (Cls re_digit)].

(** [^(?:[A-Z][a-z]+(?:\s+[A-Z][a-z]+)*\s+)?[A-Z]{2,4}/\d{2}/\d{4}$] *)
Definition POST_MATRIC_PATTERN : regex :=
  cats [Opt (cats [name_words; Plus (Cls re_space)]);
        Range 2 4 (Cls re_upper); Chr 47; Rep 2 (Cls re_digit); Chr 47;
        Rep 4 (Cls re_digit)].

(** [validate_name(name)], with the global [MODE] as an argument. *)
Definition validate_name (MODE : Mode) (name : str) : bool :=
  match MODE with
  | pre_matric => re_match_anchored PRE_MATRIC_PATTERN name
  | post_matric => re_match_anchored POST_MATRIC_PATTERN name
  end.
End Patterns.

(** Tables that classify nothing outside ASCII.  Names written in ASCII
    are validated the same under every table. *)
Definition basic_latin : Unicode :=
  {| unicode_space := fun _ => false; unicode_decimal := fun _ => false |}.


(** ** Configuration ([config.py] and the constants of [bot.py]) *)

Definition GROUP_ID : Z := -1002994965915.
Definition LECTURER_IDS : list Z := [7394280481].
Definition NAME_CORRECTION_TIME : Z := 15 * 60.
Definition REJOIN_ATTEMPTS_LIMIT : Z := 3.
Definition REJOIN_COOLDOWN : Z := 30 * 60.

Definition WARNING_DELETE_TIME : Z := 300.
Definition REMOVAL_DELETE_TIME : Z := 600.
Definition WELCOME_DELETE_TIME : Z := 300.
Definition CORRECTION_DELETE_TIME : Z := 300.
Definition INVITE_LINK_DURATION : Z := 2 * 60 * 60.
Definition INVITE_LINK_USES : Z := 1.

(** [datetime.timedelta(seconds=n)] in microseconds. *)
Definition seconds (n : Z) : Z := n * 1000000.
Arguments seconds : simpl never.

(** ** Data *)

(** [telegram.User]; [u_id] is its [id]. *)
Record User := {
  u_id : Z;
  full_name : str;
  username : option str;
  is_bot : bool
}.

Inductive Status :=
| creator | administrator | member | restricted | left_chat | kicked.

(** [telegram.ChatMember] *)
Record ChatMember := {
  status : Status;
  user : User
}.

(** A value of [pending_corrections]. *)
Record Pending := {
  warning_msg_id : Z;
  pending_username : option str;
  pending_display_name : str;
  warning_time : Z;
  timer_end : Z
}.

(** A value of [rejoin_attempts]. *)
Record Attempts := {
  attempts : Z;
  last_attempt : option Z
}.

(** A value of [approved_rejoins]. *)
Record Approved := {
  display_name : str;
  approval_time : Z
}.

(** A value of [active_invite_links]. *)
Record Link := {
  link : str;
  created_at : Z;
  used : bool;
  expires_at : Z
}.

(** Jobs of [context.job_queue]; the job name is given by the
    constructor and the id ([delete_msg_<id>], [removal_<id>]). *)
Inductive Job :=
| delete_specific_message_job (message_id : Z) (when : Z)
| remove_user_job (chat_id user_id : Z) (when : Z).

(** The texts the bot sends, each with the values formatted into it. *)
Inductive Notice :=
| ViolationDetected (mention : str + Z) (current_name : str) (rules : Mode)
| StrictWarning (mention : str) (rules : Mode) (timer_ends : Z)
| RemovedNameViolation (last_name : str) (bot_username : option str)
| NameCorrected (current_name : str)
| WelcomeBack (name : str)
| SecurityViolation (approved_name joined_name : str)
| Welcome (name : str)
| HelloAdmin
| CooldownActive (minutes : Z)
| MaximumAttemptsReached
| ErrorCreatingLinkTryAgain
| ErrorCreatingLinkContactLecturer
| AutoApproved (name : str) (attempt : Z) (invite : str) (expires : Z)
| LecturerRejoinNotice (name : str) (uname : option str) (user_id : Z)
    (attempt : Z) (time : Z)
| NameDoesNotMatch (name : str) (rules : Mode) (attempt remaining : Z).

(** The calls to [context.bot] (and [update.message.reply_text]). *)
Inductive Call :=
| send_message (chat_id : Z) (text : Notice)
| reply_text (text : Notice)
| delete_message (chat_id message_id : Z)
| ban_chat_member (chat_id user_id : Z)
| get_chat_member (chat_id user_id : Z)
| get_me
| create_chat_invite_link (chat_id expire_date member_limit : Z)
    (for_user : Z).

Inductive Answer :=
| Raises
| Done
| Sent (message_id : Z)
| IsMember (m : ChatMember)
| Me (u : User)
| Invite (invite_link : str).

(** The chat platform: the bot's own id, and the answer to the [n]-th
    call of a run ([n] counts the calls issued before it). *)
Class Platform := {
  bot_id : Z;
  answer : nat -> Call -> Answer
}.

(** [list(pending_corrections.items())] lists the entries of the dict in
    the order of their insertion.  That order is the history of the dict,
    which the stores do not keep: it is a parameter, of which the code
    uses only that it arranges the entries of the dict, each once. *)
Class InsertionOrder := {
  items : gmap Z Pending -> list (Z * Pending);
  items_arranged : forall d, items d ≡ₚ map_to_list d
}.

(** The module-level stores, the job queue and the log of calls. *)
Record World := {
  MODE : Mode;
  pending_corrections : gmap Z Pending;
  warning_messages : list Z;
  rejoin_attempts : gmap Z Attempts;
  approved_rejoins : gmap Z Approved;
  member_name_tracker : gmap Z str;
  bot_messages_to_cleanup : list Z;
  group_admins : gset Z;
  active_invite_links : gmap Z Link;
  job_queue : list Job;
  calls : list (Call * Answer)
}.

Definition upd_pending_corrections (f : gmap Z Pending -> gmap Z Pending) (w : World) : World :=
  {| MODE := MODE w; pending_corrections := f (pending_corrections w);
     warning_messages := warning_messages w;
     rejoin_attempts := rejoin_attempts w;
     approved_rejoins := approved_rejoins w;
     member_name_tracker := member_name_tracker w;
     bot_messages_to_cleanup := bot_messages_to_cleanup w;
     group_admins := group_admins w;
     active_invite_links := active_invite_links w;
     job_queue := job_queue w; calls := calls w |}.

Definition upd_warning_messages (f : list Z -> list Z) (w : World) : World :=
  {| MODE := MODE w; pending_corrections := pending_corrections w;
     warning_messages := f (warning_messages w);
     rejoin_attempts := rejoin_attempts w;
     approved_rejoins := approved_rejoins w;
     member_name_tracker := member_name_tracker w;
     bot_messages_to_cleanup := bot_messages_to_cleanup w;
     group_admins := group_admins w;
     active_invite_links := active_invite_links w;
     job_queue := job_queue w; calls := calls w |}.

Definition upd_rejoin_attempts (f : gmap Z Attempts -> gmap Z Attempts) (w : World) : World :=
  {| MODE := MODE w; pending_corrections := pending_corrections w;
     warning_messages := warning_messages w;
     rejoin_attempts := f (rejoin_attempts w);
     approved_rejoins := approved_rejoins w;
     member_name_tracker := member_name_tracker w;
     bot_messages_to_cleanup := bot_messages_to_cleanup w;
     group_admins := group_admins w;
     active_invite_links := active_invite_links w;
     job_queue := job_queue w; calls := calls w |}.

Definition upd_approved_rejoins (f : gmap Z Approved -> gmap Z Approved) (w : World) : World :=
  {| MODE := MODE w; pending_corrections := pending_corrections w;
     warning_messages := warning_messages w;
     rejoin_attempts := rejoin_attempts w;
     approved_rejoins := f (approved_rejoins w);
     member_name_tracker := member_name_tracker w;
     bot_messages_to_cleanup := bot_messages_to_cleanup w;
     group_admins := group_admins w;
     active_invite_links := active_invite_links w;
     job_queue := job_queue w; calls := calls w |}.

Definition upd_member_name_tracker (f : gmap Z str -> gmap Z str) (w : World) : World :=
  {| MODE := MODE w; pending_corrections := pending_corrections w;
     warning_messages := warning_messages w;
     rejoin_attempts := rejoin_attempts w;
     approved_rejoins := approved_rejoins w;
     member_name_tracker := f (member_name_tracker w);
     bot_messages_to_cleanup := bot_messages_to_cleanup w;
     group_admins := group_admins w;
     active_invite_links := active_invite_links w;
     job_queue := job_queue w; calls := calls w |}.

Definition upd_bot_messages_to_cleanup (f : list Z -> list Z) (w : World) : World :=
  {| MODE := MODE w; pending_corrections := pending_corrections w;
     warning_messages := warning_messages w;
     rejoin_attempts := rejoin_attempts w;
     approved_rejoins := approved_rejoins w;
     member_name_tracker := member_name_tracker w;
     bot_messages_to_cleanup := f (bot_messages_to_cleanup w);
     group_admins := group_admins w;
     active_invite_links := active_invite_links w;
     job_queue := job_queue w; calls := calls w |}.

Definition upd_group_admins (f : gset Z -> gset Z) (w : World) : World :=
  {| MODE := MODE w; pending_corrections := pending_corrections w;
     warning_messages := warning_messages w;
     rejoin_attempts := rejoin_attempts w;
     approved_rejoins := approved_rejoins w;
     member_name_tracker := member_name_tracker w;
     bot_messages_to_cleanup := bot_messages_to_cleanup w;
     group_admins := f (group_admins w);
     active_invite_links := active_invite_links w;
     job_queue := job_queue w; calls := calls w |}.

Definition upd_active_invite_links (f : gmap Z Link -> gmap Z Link) (w : World) : World :=
  {| MODE := MODE w; pending_corrections := pending_corrections w;
     warning_messages := warning_messages w;
     rejoin_attempts := rejoin_attempts w;
     approved_rejoins := approved_rejoins w;
     member_name_tracker := member_name_tracker w;
     bot_messages_to_cleanup := bot_messages_to_cleanup w;
     group_admins := group_admins w;
     active_invite_links := f (active_invite_links w);
     job_queue := job_queue w; calls := calls w |}.

Definition upd_job_queue (f : list Job -> list Job) (w : World) : World :=
  {| MODE := MODE w; pending_corrections := pending_corrections w;
     warning_messages := warning_messages w;
     rejoin_attempts := rejoin_attempts w;
     approved_rejoins := approved_rejoins w;
     member_name_tracker := member_name_tracker w;
     bot_messages_to_cleanup := bot_messages_to_cleanup w;
     group_admins := group_admins w;
     active_invite_links := active_invite_links w;
     job_queue := f (job_queue w); calls := calls w |}.

Definition upd_calls (f : list (Call * Answer) -> list (Call * Answer)) (w : World) : World :=
  {| MODE := MODE w; pending_corrections := pending_corrections w;
     warning_messages := warning_messages w;
     rejoin_attempts := rejoin_attempts w;
     approved_rejoins := approved_rejoins w;
     member_name_tracker := member_name_tracker w;
     bot_messages_to_cleanup := bot_messages_to_cleanup w;
     group_admins := group_admins w;
     active_invite_links := active_invite_links w;
     job_queue := job_queue w; calls := f (calls w) |}.

(** ** The handler monad: state and exceptions *)

Inductive Res (A : Type) :=
| Ok (a : A)
| Raised.
Arguments Ok {A} a.
Arguments Raised {A}.

Definition M (A : Type) : Type := World -> Res A * World.

#[global] Instance M_ret : MRet M := fun A a w => (Ok a, w).
#[global] Instance M_bind : MBind M := fun A B k m w =>
  match m w with
  | (Ok a, w') => k a w'
  | (Raised, w') => (Raised, w')
  end.

Definition gets {A} (f : World -> A) : M A := fun w => (Ok (f w), w).
Definition modify (f : World -> World) : M unit := fun w => (Ok tt, f w).
Definition raise {A} : M A := fun w => (Raised, w).

(** [try: body  except: handler]; the handler starts from the stores as
    they were when the exception was raised. *)
Definition try_except {A} (body handler : M A) : M A := fun w =>
  match body w with
  | (Ok a, w') => (Ok a, w')
  | (Raised, w') => handler w'
  end.

(** [for x in xs: body(x)]; [continue] is the end of the body. *)
Fixpoint for_each {A} (xs : list A) (body : A -> M unit) : M unit :=
  match xs with
  | [] => mret tt
  | x :: xs' => body x;; for_each xs' body
  end.

Definition result {A} (m : M A) (w : World) : Res A := fst (m w).
Definition after {A} (m : M A) (w : World) : World := snd (m w).

(** ** Calls to the platform *)

Section Bot.
Context `{Unicode} `{Platform} `{InsertionOrder}.

(** Issue a call: the platform's answer is logged, and a call that the
    platform refuses raises. *)
Definition call (c : Call) : M Answer := fun w =>
  let a := answer (length (calls w)) c in
  let w' := upd_calls (fun l => l ++ [(c, a)]) w in
  match a with
  | Raises => (Raised, w')
  | _ => (Ok a, w')
  end.

(** The calls that return a message: its [message_id]. *)
Definition bot_send (c : Call) : M Z :=
  a ← call c;
  match a with
  | Sent message_id => mret message_id
  | _ => raise
  end.

Definition bot_do (c : Call) : M unit :=
  a ← call c;
  match a with
  | Done => mret tt
  | _ => raise
  end.

Definition bot_get_chat_member (chat_id user_id : Z) : M ChatMember :=
  a ← call (get_chat_member chat_id user_id);
  match a with
  | IsMember m => mret m
  | _ => raise
  end.

Definition bot_get_me : M User :=
  a ← call get_me;
  match a with
  | Me u => mret u
  | _ => raise
  end.

Definition bot_create_chat_invite_link
    (chat_id expire_date member_limit for_user : Z) : M str :=
  a ← call (create_chat_invite_link chat_id expire_date member_limit for_user);
  match a with
  | Invite l => mret l
  | _ => raise
  end.

(** ** Exemption *)

Definition is_admin_status (s : Status) : bool :=
  match s with
  | creator | administrator => true
  | _ => false
  end.

(** [is_lecturer_or_admin(user_id, context, chat_id)] *)
Definition is_lecturer_or_admin (user_id chat_id : Z) : M bool :=
  if bool_decide (user_id ∈ LECTURER_IDS) then mret true
  else
    admins ← gets group_admins;
    if bool_decide (user_id ∈ admins) then mret true
    else
      try_except
        (chat_member ← bot_get_chat_member chat_id user_id;
         if is_admin_status (status chat_member)
         then modify (upd_group_admins (fun s => {[user_id]} ∪ s));; mret true
         else mret false)
        (mret false).

(** ** Invite links *)

(** [create_invite_link(context, user_id, display_name)]; [now] is the
    reading of the clock during the run. *)
Definition create_invite_link (user_id : Z) (name : str) (now : Z)
  : M (option str) :=
  try_except
    (links ← gets active_invite_links;
     match links !! user_id with
     | Some old_link_data =>
         if seconds (2 * 3600) <? now - created_at old_link_data
         then modify (upd_active_invite_links (delete user_id))
         else mret tt
     | None => mret tt
     end;;
     invite_link ← bot_create_chat_invite_link GROUP_ID
                     (now + seconds INVITE_LINK_DURATION)
                     INVITE_LINK_USES user_id;
     modify (upd_active_invite_links
               (insert user_id
                  {| link := invite_link; created_at := now; used := false;
                     expires_at := now + seconds INVITE_LINK_DURATION |}));;
     mret (Some invite_link))
    (mret None).

(** [mark_invite_link_used(user_id)] *)
Definition mark_invite_link_used (user_id : Z) : M unit :=
  modify (upd_active_invite_links (fun links =>
    match links !! user_id with
    | Some l =>
        <[user_id := {| link := link l; created_at := created_at l;
                        used := true; expires_at := expires_at l |}]> links
    | None => links
    end)).

(** [cleanup_expired_links(context)] at clock reading [current_time]:
    collect the expired keys, then delete each.  The loop issues no call
    and its deletions commute, so the order of the keys is immaterial. *)
Definition expired_links (current_time : Z) (links : gmap Z Link) : list Z :=
  map fst
    (List.filter (fun item => expires_at (snd item) <? current_time)
       (map_to_list links)).

Definition cleanup_expired_links (current_time : Z) : M unit :=
  links ← gets active_invite_links;
  for_each (expired_links current_time links) (fun user_id =>
    modify (upd_active_invite_links (delete user_id))).

(** ** Scheduling and small store operations *)

(** [l.remove(x)] guarded by [if x in l]: drop the first occurrence. *)
Fixpoint remove_first (x : Z) (l : list Z) : list Z :=
  match l with
  | [] => []
  | y :: l' => if bool_decide (x = y) then l' else y :: remove_first x l'
  end.

(** [d[k]]: [KeyError] when the key is absent. *)
Definition getitem {V} (d : gmap Z V) (k : Z) : M V :=
  match d !! k with
  | Some v => mret v
  | None => raise
  end.

(** [del pending_corrections[user_id]]: [KeyError] when absent. *)
Definition del_pending (user_id : Z) : M unit :=
  pending ← gets pending_corrections;
  _ ← getitem pending user_id;
  modify (upd_pending_corrections (delete user_id)).

(** [schedule_message_deletion(context, message_id, delay)] *)
Definition schedule_message_deletion (message_id delay : Z) : M unit :=
  modify (upd_bot_messages_to_cleanup (fun l => l ++ [message_id]));;
  modify (upd_job_queue (fun q => q ++ [delete_specific_message_job message_id delay])).

(** The block
    [try: delete_message(chat, id); warning_messages.remove(id)
     except: pass]. *)
Definition delete_warning (chat_id message_id : Z) : M unit :=
  try_except
    (bot_do (delete_message chat_id message_id);;
     modify (upd_warning_messages (remove_first message_id)))
    (mret tt).

Definition is_removal_of (user_id : Z) (j : Job) : bool :=
  match j with
  | remove_user_job _ u _ => bool_decide (u = user_id)
  | delete_specific_message_job _ _ => false
  end.

(** [for job in get_jobs_by_name(f"removal_{user_id}"):
      job.schedule_removal()] *)
Definition cancel_removal_jobs (user_id : Z) : M unit :=
  modify (upd_job_queue (List.filter (fun j => negb (is_removal_of user_id j)))).

(** [user.username or user.id] *)
Definition username_or_id (u : User) : str + Z :=
  match username u with
  | Some (c :: n) => inl (c :: n)
  | _ => inr (u_id u)
  end.

(** ** Compliance tracker *)

(** [warn_and_schedule_removal(context, group_id, user)] *)
Definition warn_and_schedule_removal (group_id : Z) (u : User) (now : Z)
  : M unit :=
  exempt ← is_lecturer_or_admin (u_id u) GROUP_ID;
  if (exempt : bool) then mret tt
  else
    try_except
      (mode ← gets MODE;
       warning_msg ← bot_send
         (send_message group_id
            (ViolationDetected (username_or_id u) (full_name u) mode));
       modify (upd_pending_corrections
                 (insert (u_id u)
                    {| warning_msg_id := warning_msg;
                       pending_username := username u;
                       pending_display_name := full_name u;
                       warning_time := now;
                       timer_end := now + seconds NAME_CORRECTION_TIME |}));;
       modify (upd_warning_messages (fun l => l ++ [warning_msg]));;
       schedule_message_deletion warning_msg WARNING_DELETE_TIME;;
       modify (upd_job_queue (fun q =>
         q ++ [remove_user_job group_id (u_id u) NAME_CORRECTION_TIME])))
      (mret tt).

(** [detect_name_change(user_id, current_name, context)].

    In the branch of an unchanged, invalid, not yet warned name the
    source calls
    [warn_and_schedule_removal(context, GROUP_ID, context._bot.get_chat(GROUP_ID))].
    The argument is evaluated first; a callback context has no
    attribute [_bot], so this raises [AttributeError] (and an
    un-awaited [get_chat] would be a coroutine without [id], on which
    the first line of [warn_and_schedule_removal] raises as well).
    Either way nothing is sent and no store is written. *)
Definition detect_name_change (user_id : Z) (current_name : str) : M bool :=
  exempt ← is_lecturer_or_admin user_id GROUP_ID;
  if (exempt : bool) then mret false
  else
    tracker ← gets member_name_tracker;
    match tracker !! user_id with
    | Some previous_name =>
        if bool_decide (previous_name = current_name) then
          mode ← gets MODE;
          pending ← gets pending_corrections;
          (if negb (validate_name mode current_name)
              && bool_decide (pending !! user_id = None)
           then raise
           else mret tt);;
          mret false
        else
          modify (upd_member_name_tracker (insert user_id current_name));;
          mode ← gets MODE;
          if validate_name mode current_name then
            pending ← gets pending_corrections;
            match pending !! user_id with
            | Some info =>
                delete_warning GROUP_ID (warning_msg_id info);;
                modify (upd_pending_corrections (delete user_id));;
                cancel_removal_jobs user_id;;
                correction_msg ← bot_send
                  (send_message GROUP_ID (NameCorrected current_name));
                schedule_message_deletion correction_msg CORRECTION_DELETE_TIME
            | None => mret tt
            end;;
            mret false
          else mret true
    | None =>
        modify (upd_member_name_tracker (insert user_id current_name));;
        mode ← gets MODE;
        mret (negb (validate_name mode current_name))
    end.

(** [remove_user_if_not_corrected(context)], the one-shot job
    [removal_<user_id>] with [job.chat_id = group_id]. *)
Definition remove_user_if_not_corrected (group_id user_id : Z) : M unit :=
  exempt ← is_lecturer_or_admin user_id GROUP_ID;
  if (exempt : bool) then modify (upd_pending_corrections (delete user_id))
  else
    try_except
      (chat_member ← bot_get_chat_member group_id user_id;
       let current_name := full_name (user chat_member) in
       mode ← gets MODE;
       if negb (validate_name mode current_name) then
         bot_do (ban_chat_member group_id user_id);;
         me ← bot_get_me;
         removal_msg ← bot_send
           (send_message group_id
              (RemovedNameViolation current_name (username me)));
         schedule_message_deletion removal_msg REMOVAL_DELETE_TIME;;
         modify (upd_member_name_tracker (delete user_id));;
         pending ← gets pending_corrections;
         match pending !! user_id with
         | Some info =>
             delete_warning group_id (warning_msg_id info);;
             modify (upd_pending_corrections (delete user_id))
         | None => mret tt
         end
       else
         pending ← gets pending_corrections;
         match pending !! user_id with
         | Some _ =>
             modify (upd_pending_corrections (delete user_id));;
             correction_msg ← bot_send
               (send_message group_id (NameCorrected current_name));
             schedule_message_deletion correction_msg CORRECTION_DELETE_TIME
         | None => mret tt
         end)
      (modify (upd_pending_corrections (delete user_id))).

(** [check_pending_removals(context)] at clock reading [current_time].
    The first loop collects the due entries of
    [list(pending_corrections.items())], in the order of the dict; the
    second loop visits them in that order. *)
Definition check_pending_removals (current_time : Z) : M unit :=
  pending ← gets pending_corrections;
  let users_to_remove :=
    List.filter (fun item => timer_end (snd item) <=? current_time)
      (items pending) in
  for_each users_to_remove (fun item =>
    let user_id := fst item in
    let pending_info := snd item in
    try_except
      (chat_member ← bot_get_chat_member GROUP_ID user_id;
       let current_name := full_name (user chat_member) in
       mode ← gets MODE;
       (if validate_name mode current_name then
          del_pending user_id;;
          modify (upd_member_name_tracker (insert user_id current_name));;
          correction_msg ← bot_send
            (send_message GROUP_ID (NameCorrected current_name));
          schedule_message_deletion correction_msg CORRECTION_DELETE_TIME
        else
          del_pending user_id;;
          try_except
            (bot_do (ban_chat_member GROUP_ID user_id);;
             me ← bot_get_me;
             removal_msg ← bot_send
               (send_message GROUP_ID
                  (RemovedNameViolation current_name (username me)));
             schedule_message_deletion removal_msg REMOVAL_DELETE_TIME;;
             modify (upd_member_name_tracker (delete user_id)))
            (mret tt));;
       delete_warning GROUP_ID (warning_msg_id pending_info))
      (del_pending user_id)).

(** ** Updates and handlers *)

Inductive ChatType := private | group | supergroup | channel.

(** What the handlers read of a [telegram.Update].  [command] is the
    bot command the message text starts with, if it starts with one
    (what [filters.COMMAND] and [CommandHandler] test). *)
Record Update := {
  effective_chat_type : ChatType;
  effective_chat_id : Z;
  effective_user : option User;
  text : option str;
  command : option string;
  new_chat_members : list User
}.

(** [update.effective_user] where the source reads its attributes
    unguarded: [AttributeError] on [None]. *)
Definition the_user (update : Update) : M User :=
  match effective_user update with
  | Some u => mret u
  | None => raise
  end.

(** [handle_message(update, context)] *)
Definition handle_message (update : Update) (now : Z) : M unit :=
  match effective_user update with
  | Some u =>
      if is_bot u then mret tt
      else
        skip ← match effective_chat_type update with
               | private => mret false
               | _ => is_lecturer_or_admin (u_id u) GROUP_ID
               end;
        if (skip : bool) then mret tt
        else
          name_changed_to_invalid ← detect_name_change (u_id u) (full_name u);
          mode ← gets MODE;
          pending ← gets pending_corrections;
          if (name_changed_to_invalid : bool)
             || (negb (validate_name mode (full_name u))
                 && bool_decide (pending !! u_id u = None))
          then warn_and_schedule_removal (effective_chat_id update) u now
          else mret tt
  | None => mret tt
  end.

(** [f"@{member.username}" if member.username else display_name] *)
Definition mention (u : User) : str :=
  match username u with
  | Some (c :: n) => 64%N :: c :: n
  | _ => full_name u
  end.

(** The body of the loop of [handle_new_member] for one [member]. *)
Definition admit_member (u : User) (now : Z) : M unit :=
  let user_id := u_id u in
  let name := full_name u in
  exempt ← is_lecturer_or_admin user_id GROUP_ID;
  if (exempt : bool) then
    modify (upd_member_name_tracker (insert user_id name))
  else if bool_decide (user_id = bot_id) then mret tt
  else
    modify (upd_member_name_tracker (insert user_id name));;
    approved ← gets approved_rejoins;
    settled ←
      match approved !! user_id with
      | Some approved_info =>
          let approved_name := display_name approved_info in
          if bool_decide (name = approved_name) then
            modify (upd_member_name_tracker (insert user_id name));;
            modify (upd_approved_rejoins (delete user_id));;
            mark_invite_link_used user_id;;
            welcome_msg ← bot_send (reply_text (WelcomeBack name));
            schedule_message_deletion welcome_msg WELCOME_DELETE_TIME;;
            mret true
          else
            modify (upd_approved_rejoins (delete user_id));;
            try_except
              (bot_do (ban_chat_member GROUP_ID user_id);;
               security_msg ← bot_send
                 (reply_text (SecurityViolation approved_name name));
               schedule_message_deletion security_msg REMOVAL_DELETE_TIME;;
               mret true)
              (mret false)
      | None => mret false
      end;
    if (settled : bool) then mret tt
    else
      mode ← gets MODE;
      if validate_name mode name then
        welcome_msg ← bot_send (reply_text (Welcome name));
        schedule_message_deletion welcome_msg WELCOME_DELETE_TIME
      else
        try_except
          (warning_msg ← bot_send
             (reply_text
                (StrictWarning (mention u) mode
                   (now + seconds NAME_CORRECTION_TIME)));
           modify (upd_pending_corrections
                     (insert user_id
                        {| warning_msg_id := warning_msg;
                           pending_username := username u;
                           pending_display_name := name;
                           warning_time := now;
                           timer_end := now + seconds NAME_CORRECTION_TIME |}));;
           modify (upd_warning_messages (fun l => l ++ [warning_msg]));;
           schedule_message_deletion warning_msg WARNING_DELETE_TIME)
          (mret tt).

(** [handle_new_member(update, context)] *)
Definition handle_new_member (update : Update) (now : Z) : M unit :=
  if bool_decide (effective_chat_id update ≠ GROUP_ID) then mret tt
  else for_each (new_chat_members update) (fun u => admit_member u now).

Definition fresh_attempts : Attempts :=
  {| attempts := 0; last_attempt := None |}.

(** [user_data['attempts'] += 1; user_data['last_attempt'] = now], where
    [user_data] is the dictionary stored under [user_id]. *)
Definition count_attempt (user_id : Z) (user_data : Attempts) (now : Z)
  : M unit :=
  modify (upd_rejoin_attempts
            (insert user_id
               {| attempts := attempts user_data + 1;
                  last_attempt := Some now |})).

(** The cooldown test: the minutes left when the last attempt is less
    than [REJOIN_COOLDOWN] old. *)
Definition cooldown_left (user_data : Attempts) (now : Z) : option Z :=
  match last_attempt user_data with
  | Some last =>
      let time_since_last := now - last in
      if time_since_last <? seconds REJOIN_COOLDOWN
      then Some ((seconds REJOIN_COOLDOWN - time_since_last) / seconds 60)
      else None
  | None => None
  end.

(** The rejoin logic of [handle_private_message], after the exemption
    test. *)
Definition rejoin_request (u : User) (now : Z) : M unit :=
  let user_id := u_id u in
  let name := full_name u in
  modify (upd_rejoin_attempts (fun d =>
    match d !! user_id with
    | Some _ => d
    | None => <[user_id := fresh_attempts]> d
    end));;
  d ← gets rejoin_attempts;
  user_data ← getitem d user_id;
  match cooldown_left user_data now with
  | Some remaining =>
      bot_send (reply_text (CooldownActive remaining));; mret tt
  | None =>
      if REJOIN_ATTEMPTS_LIMIT <=? attempts user_data then
        bot_send (reply_text MaximumAttemptsReached);; mret tt
      else
        mode ← gets MODE;
        if validate_name mode name then
          count_attempt user_id user_data now;;
          modify (upd_approved_rejoins
                    (insert user_id
                       {| display_name := name; approval_time := now |}));;
          try_except
            (invite_link ← create_invite_link user_id name now;
             match invite_link with
             | Some (c :: l) =>
                 bot_send
                   (reply_text
                      (AutoApproved name (attempts user_data + 1) (c :: l)
                         (now + seconds INVITE_LINK_DURATION)));;
                 for_each LECTURER_IDS (fun lecturer_id =>
                   try_except
                     (bot_send
                        (send_message lecturer_id
                           (LecturerRejoinNotice name (username u) user_id
                              (attempts user_data + 1) now));;
                      mret tt)
                     (mret tt))
             | _ =>
                 bot_send (reply_text ErrorCreatingLinkTryAgain);; mret tt
             end)
            (modify (upd_approved_rejoins (delete user_id));;
             bot_send (reply_text ErrorCreatingLinkContactLecturer);;
             mret tt)
        else
          count_attempt user_id user_data now;;
          bot_send
            (reply_text
               (NameDoesNotMatch name mode (attempts user_data + 1)
                  (REJOIN_ATTEMPTS_LIMIT - (attempts user_data + 1))));;
          mret tt
  end.

(** [handle_private_message(update, context)] *)
Definition handle_private_message (update : Update) (now : Z) : M unit :=
  u ← the_user update;
  exempt ← is_lecturer_or_admin (u_id u) GROUP_ID;
  if (exempt : bool) then
    if startswith (lit "/") (default [] (text update)) then mret tt
    else bot_send (reply_text HelloAdmin);; mret tt
  else rejoin_request u now.

(** ** Dispatch ([main]) *)

Inductive Handler :=
| start_command | switch_mode | announce | status_command
| new_member_handler | private_message_handler | message_handler.

(** The handlers are all in one group, so an update goes to the first
    handler, in the order of registration, whose filter accepts it. *)
Definition command_handler (name : string) : option Handler :=
  if bool_decide (name = "start"%string) then Some start_command
  else if bool_decide (name = "switch_mode"%string) then Some switch_mode
  else if bool_decide (name = "announce"%string) then Some announce
  else if bool_decide (name = "status"%string) then Some status_command
  else None.

Definition is_private (t : ChatType) : bool :=
  match t with
  | private => true
  | _ => false
  end.

Definition route (update : Update) : option Handler :=
  match command update ≫= command_handler with
  | Some h => Some h
  | None =>
      match new_chat_members update with
      | _ :: _ => Some new_member_handler
      | [] =>
          match command update with
          | Some _ => None
          | None =>
              if is_private (effective_chat_type update)
              then Some private_message_handler
              else if bool_decide (is_Some (text update))
              then Some message_handler
              else None
          end
      end
  end.
End Bot.

(** ** What the patterns describe *)

(** The language of a regular expression. *)
Inductive Lang : regex -> str -> Prop :=
| Lang_Eps : Lang Eps []
| Lang_Cls p c : p c = true -> Lang (Cls p) [c]
| Lang_Cat r1 r2 s1 s2 :
    Lang r1 s1 -> Lang r2 s2 -> Lang (Cat r1 r2) (s1 ++ s2)
| Lang_Alt_l r1 r2 s : Lang r1 s -> Lang (Alt r1 r2) s
| Lang_Alt_r r1 r2 s : Lang r2 s -> Lang (Alt r1 r2) s
| Lang_Star_nil r : Lang (Star r) []
| Lang_Star_app r s1 s2 :
    Lang r s1 -> Lang (Star r) s2 -> Lang (Star r) (s1 ++ s2).

Section Shapes.
Context `{Unicode}.

(** A capitalized word: an upper-case letter, then one or more
    lower-case letters. *)
Definition capitalized (w : str) : Prop :=
  exists c cs, w = c :: cs /\ re_upper c = true /\ cs <> [] /\
               forallb re_lower cs = true.

(** A run of one or more whitespace characters. *)
Definition blank (s : str) : Prop :=
  s <> [] /\ forallb re_space s = true.

Definition uppercase_token (s : str) : Prop :=
  s <> [] /\ forallb re_upper s = true.

(** Exactly [n] decimal digits. *)
Definition digits (n : nat) (s : str) : Prop :=
  length s = n /\ forallb re_digit s = true.

(** Whitespace followed by a capitalized word. *)
Definition spaced_word (s : str) : Prop :=
  exists b w, s = b ++ w /\ blank b /\ capitalized w.

(** One or more capitalized words, separated by whitespace. *)
Definition words (s : str) : Prop :=
  exists w rest, s = w ++ concat rest /\ capitalized w /\
                 Forall spaced_word rest.

Definition pre_matric_shape (s : str) : Prop :=
  exists ws b1 dept b2 ds,
    s = ws ++ b1 ++ dept ++ b2 ++ ds /\
    words ws /\ blank b1 /\ uppercase_token dept /\ blank b2 /\
    digits 12 ds.

Definition post_matric_shape (s : str) : Prop :=
  exists prefix letters d2 d4,
    s = prefix ++ letters ++ [47%N] ++ d2 ++ [47%N] ++ d4 /\
    (prefix = [] \/ exists ws b, prefix = ws ++ b /\ words ws /\ blank b) /\
    (2 <= length letters <= 4)%nat /\ forallb re_upper letters = true /\
    digits 2 d2 /\ digits 4 d4.

Definition mode_shape (m : Mode) : str -> Prop :=
  match m with
  | pre_matric => pre_matric_shape
  | post_matric => post_matric_shape
  end.

(** [s] has the shape, possibly followed by one line feed. *)
Definition up_to_final_newline (P : str -> Prop) (s : str) : Prop :=
  P s \/ exists s', s = s' ++ [LF] /\ P s'.
End Shapes.

(** ** The pattern as the specification words it *)

(** [s.split(sep)] *)
Fixpoint split_on (sep : N) (s : str) : list str :=
  match s with
  | [] => [[]]
  | c :: s' =>
      if (c =? sep)%N then [] :: split_on sep s'
      else match split_on sep s' with
           | t :: ts => (c :: t) :: ts
           | [] => [[c]]
           end
  end.

Definition capitalized_word (w : str) : bool :=
  match w with
  | c :: (_ :: _) as cs => re_upper c && forallb re_lower cs
  | _ => false
  end.

Definition uppercase_letters (w : str) : bool :=
  match w with
  | [] => false
  | _ => forallb re_upper w
  end.

Definition digit_token (n : nat) (w : str) : bool :=
  (length w =? n)%nat && forallb ascii_digit w.

Definition matric_number (w : str) : bool :=
  match split_on 47 w with
  | [letters; d2; d4] =>
      (2 <=? length letters)%nat && (length letters <=? 4)%nat &&
      forallb re_upper letters && digit_token 2 d2 && digit_token 4 d4
  | _ => false
  end.

(** Following the spec's words: the tokens of the name are separated by
    one space each.  [pre_matric]: one or more capitalized words, an
    all-uppercase token, a token of exactly 12 digits.  [post_matric]:
    capitalized words, if any, then 2 to 4 uppercase letters, a slash,
    2 digits, a slash, 4 digits. *)
Definition spec_pattern (m : Mode) (s : str) : bool :=
  match m, rev (split_on 32 s) with
  | pre_matric, ds :: dept :: w :: ws =>
      forallb capitalized_word (w :: ws) && uppercase_letters dept &&
      digit_token 12 ds
  | post_matric, matric :: ws =>
      forallb capitalized_word ws && matric_number matric
  | _, _ => false
  end.

(** ** Vocabulary of the statements *)

Section Vocabulary.
Context `{Unicode} `{Platform}.

(** The world after call [c] was issued and answered. *)
Definition logged (c : Call) (w : World) : World :=
  upd_calls (fun l => l ++ [(c, answer (length (calls w)) c)]) w.

(** An identity is exempt in a world when the bot's own test,
    [is_lecturer_or_admin], says so there. *)
Definition non_exempt (w : World) (user_id : Z) : Prop :=
  result (is_lecturer_or_admin user_id GROUP_ID) w = Ok false.

(** The calls a run added to the log. *)
Definition issued {A} (m : M A) (w : World) : list (Call * Answer) :=
  drop (length (calls w)) (calls (after m w)).
End Vocabulary.

(** The counter record a rejoin request finds: the stored one, or the
    fresh one the handler creates for an identity that has none. *)
Definition counter_of (w : World) (user_id : Z) : Attempts :=
  default fresh_attempts (rejoin_attempts w !! user_id).

(** The record after one more attempt at [now]. *)
Definition counted (d : Attempts) (now : Z) : Attempts :=
  {| attempts := attempts d + 1; last_attempt := Some now |}.


(** The world with the member registry and the pending corrections
    replaced. *)
Definition with_group_state (tracker : gmap Z str) (pending : gmap Z Pending)
    (w : World) : World :=
  upd_member_name_tracker (fun _ => tracker)
    (upd_pending_corrections (fun _ => pending) w).

Definition is_ban_of (user_id : Z) (c : Call) : bool :=
  match c with
  | ban_chat_member _ u => bool_decide (u = user_id)
  | _ => false
  end.

(** The invariant of the attempt counters. *)
Definition attempts_bounded (w : World) : Prop :=
  forall user_id d, rejoin_attempts w !! user_id = Some d ->
                    attempts d <= REJOIN_ATTEMPTS_LIMIT.

(** ** Properties of computations *)

Definition preserves {A T} (f : World -> T) (m : M A) : Prop :=
  forall w, f (after m w) = f w.

(** Every call the computation adds to the log satisfies [P]. *)
Definition only_calls {A} (P : Call -> Prop) (m : M A) : Prop :=
  forall w, exists new,
    calls (after m w) = calls w ++ new /\ Forall (fun e => P (fst e)) new.

(** Overwriting stores by [s] before the run or after it makes no
    difference. *)
Definition oblivious {A} (s : World -> World) (m : M A) : Prop :=
  forall w, m (s w) = (result m w, s (after m w)).

(** ** Scenarios *)

Definition no_stores : World :=
  {| MODE := pre_matric; pending_corrections := ∅; warning_messages := [];
     rejoin_attempts := ∅; approved_rejoins := ∅; member_name_tracker := ∅;
     bot_messages_to_cleanup := []; group_admins := ∅;
     active_invite_links := ∅; job_queue := []; calls := [] |}.

Definition student (i : Z) (n : string) : User :=
  {| u_id := i; full_name := lit n; username := None; is_bot := false |}.

Definition john_7 : User := student 7 "John IFT 202311038308".

Definition the_bot : User :=
  {| u_id := 1; full_name := lit "GNS Bot"; username := Some (lit "gns_bot");
     is_bot := true |}.

Definition private_message (u : User) (t : string) : Update :=
  {| effective_chat_type := private; effective_chat_id := u_id u;
     effective_user := Some u; text := Some (lit t); command := None;
     new_chat_members := [] |}.

Definition join_event (u : User) : Update :=
  {| effective_chat_type := supergroup; effective_chat_id := GROUP_ID;
     effective_user := Some u; text := None; command := None;
     new_chat_members := [u] |}.

(** A platform that accepts every call and reports every user as an
    ordinary member called [n]; the [k]-th message gets id [k]. *)
Definition obliging (n : string) : Platform :=
  {| bot_id := 1;
     answer := fun k c =>
       match c with
       | send_message _ _ | reply_text _ => Sent (Z.of_nat k)
       | delete_message _ _ | ban_chat_member _ _ => Done
       | get_chat_member _ u =>
           IsMember {| status := member; user := student u n |}
       | get_me => Me the_bot
       | create_chat_invite_link _ _ _ u =>
           Invite (lit "https://t.me/+rejoin")
       end |}.

(** The same platform, except that it refuses to create invite links. *)
Definition no_invites (n : string) : Platform :=
  {| bot_id := 1;
     answer := fun k c =>
       match c with
       | create_chat_invite_link _ _ _ _ => Raises
       | _ => @answer (obliging n) k c
       end |}.

(** A platform on which user 42 keeps the name "big mac": it reports
    the user as a member until the first ban (the calls 0 to 5 of the
    scenario) and as banned afterwards. *)
Definition stubborn : Platform :=
  {| bot_id := 1;
     answer := fun k c =>
       match c with
       | get_chat_member _ u =>
           IsMember {| status := if (k <? 6)%nat then member else kicked;
                       user := student u "big mac" |}
       | _ => @answer (obliging "big mac") k c
       end |}.

Definition warning_of_42 : Pending :=
  {| warning_msg_id := 500; pending_username := None;
     pending_display_name := lit "big mac"; warning_time := 0;
     timer_end := seconds NAME_CORRECTION_TIME |}.

(** User 42 was warned for the name "big mac". *)
Definition warned_42 : World :=
  {| MODE := pre_matric;
     pending_corrections := {[ 42 := warning_of_42 ]};
     warning_messages := [500];
     rejoin_attempts := ∅; approved_rejoins := ∅;
     member_name_tracker := {[ 42 := lit "big mac" ]};
     bot_messages_to_cleanup := [500]; group_admins := ∅;
     active_invite_links := ∅;
     job_queue := [delete_specific_message_job 500 WARNING_DELETE_TIME;
                   remove_user_job GROUP_ID 42 NAME_CORRECTION_TIME];
     calls := [] |}.

(** User 42 is tracked as "big mac" and was never warned. *)
Definition unwarned_42 : World :=
  {| MODE := pre_matric; pending_corrections := ∅; warning_messages := [];
     rejoin_attempts := ∅; approved_rejoins := ∅;
     member_name_tracker := {[ 42 := lit "big mac" ]};
     bot_messages_to_cleanup := []; group_admins := ∅;
     active_invite_links := ∅; job_queue := []; calls := [] |}.

Definition approval_of_7 : Approved :=
  {| display_name := lit "John IFT 202311038308"; approval_time := 0 |}.

Definition link_of_7 : Link :=
  {| link := lit "https://t.me/+rejoin"; created_at := 0; used := false;
     expires_at := seconds INVITE_LINK_DURATION |}.

(** User 7 holds an approved rejoin and an unused link; [admins] is the
    admin cache. *)
Definition approved_7 (admins : gset Z) : World :=
  {| MODE := pre_matric; pending_corrections := ∅; warning_messages := [];
     rejoin_attempts := {[ 7 := {| attempts := 1; last_attempt := Some 0 |} ]};
     approved_rejoins := {[ 7 := approval_of_7 ]};
     member_name_tracker := ∅; bot_messages_to_cleanup := [];
     group_admins := admins;
     active_invite_links := {[ 7 := link_of_7 ]};
     job_queue := []; calls := [] |}.

(** ** The remaining link and message functions *)

Inductive LinkStatus := link_not_found | link_expired | link_used | link_active.

(** [check_invite_link_status(user_id)] at clock reading [current_time];
    the results are the strings ["not_found"], ["expired"], ["used"] and
    ["active"]. *)
Definition check_invite_link_status (user_id : Z) (current_time : Z)
  : M LinkStatus :=
  links ← gets active_invite_links;
  match links !! user_id with
  | None => mret link_not_found
  | Some link_data =>
      if expires_at link_data <? current_time then
        modify (upd_active_invite_links (delete user_id));;
        mret link_expired
      else if used link_data then mret link_used
      else mret link_active
  end.

Section Messages.
Context `{Platform}.

(** [delete_specific_message(context)], the job [delete_msg_<message_id>]. *)
Definition delete_specific_message (message_id : Z) : M unit :=
  try_except
    (bot_do (delete_message GROUP_ID message_id);;
     modify (upd_bot_messages_to_cleanup (remove_first message_id)))
    (modify (upd_bot_messages_to_cleanup (remove_first message_id))).

(** The first loop of [cleanup_warnings]: try to delete each message and
    collect the ids the platform deleted ([messages_to_remove]). *)
Fixpoint delete_each (ids : list Z) : M (list Z) :=
  match ids with
  | [] => mret []
  | msg_id :: rest =>
      deleted ← try_except
                  (bot_do (delete_message GROUP_ID msg_id);; mret true)
                  (mret false);
      messages_to_remove ← delete_each rest;
      mret (if (deleted : bool) then msg_id :: messages_to_remove
            else messages_to_remove)
  end.

(** [cleanup_warnings(context)]; [cleanup_old_messages] has the same
    body. *)
Definition cleanup_warnings : M unit :=
  ids ← gets warning_messages;
  messages_to_remove ← delete_each ids;
  for_each messages_to_remove (fun msg_id =>
    modify (upd_warning_messages (remove_first msg_id))).

Definition cleanup_old_messages : M unit := cleanup_warnings.
End Messages.

Section Jobs.
Context `{Unicode} `{Platform}.

(** What the job queue runs when a job is due: the callback the job
    was registered with, on the job's data
    ([run_once(delete_specific_message, data={"message_id": ...})] in
    [schedule_message_deletion];
    [run_once(remove_user_if_not_corrected, chat_id=group_id,
    data={"user_id": ...})] in [warn_and_schedule_removal]). *)
Definition run_job (j : Job) : M unit :=
  match j with
  | delete_specific_message_job message_id _ =>
      delete_specific_message message_id
  | remove_user_job chat_id user_id _ =>
      remove_user_if_not_corrected chat_id user_id
  end.
End Jobs.

(** ** Invariants of a computation *)

(** A property of the stores that holds after the run when it held
    before. *)
Definition keeps {A} (I : World -> Prop) (m : M A) : Prop :=
  forall w, I w -> I (after m w).

(** [user_id] holds the only Pending Correction whose deadline has
    passed at [t]. *)
Definition only_due (t : Z) (user_id : Z) (p : Pending) (w : World) : Prop :=
  pending_corrections w !! user_id = Some p /\ timer_end p <= t /\
  forall k q, pending_corrections w !! k = Some q -> timer_end q <= t ->
              k = user_id.

(** The ids of the messages a log shows as deleted. *)
Definition deleted_ids (log : list (Call * Answer)) : list Z :=
  omap (fun e => match e with
                 | (delete_message _ i, Done) => Some i
                 | _ => None
                 end) log.

(** Code points below 128. *)
Definition is_ascii (s : str) : Prop := Forall (fun c => (c < 128)%N) s.

(** Two regular expressions of the same form whose character classes
    agree on ASCII. *)
Inductive same_on_ascii : regex -> regex -> Prop :=
| same_Void : same_on_ascii Void Void
| same_Eps : same_on_ascii Eps Eps
| same_Cls p q :
    (forall c, (c < 128)%N -> p c = q c) -> same_on_ascii (Cls p) (Cls q)
| same_Cat r1 r2 s1 s2 :
    same_on_ascii r1 r2 -> same_on_ascii s1 s2 ->
    same_on_ascii (Cat r1 s1) (Cat r2 s2)
| same_Alt r1 r2 s1 s2 :
    same_on_ascii r1 r2 -> same_on_ascii s1 s2 ->
    same_on_ascii (Alt r1 s1) (Alt r2 s2)
| same_Star r1 r2 : same_on_ascii r1 r2 -> same_on_ascii (Star r1) (Star r2).

(** ** More scenarios *)

(** The entries of a dict in the order of their keys' encoding. *)
Definition by_key : InsertionOrder :=
  {| items := map_to_list;
     items_arranged := fun d => Permutation_refl (map_to_list d) |}.

(** The entries the other way round. *)
Definition by_key_reversed : InsertionOrder :=
  {| items := fun d => reverse (map_to_list d);
     items_arranged := fun d => reverse_Permutation (map_to_list d) |}.

(** A platform that refuses every call. *)
Definition unreachable : Platform :=
  {| bot_id := 1; answer := fun _ _ => Raises |}.

(** A platform that reports every user as an administrator. *)
Definition all_admins (n : string) : Platform :=
  {| bot_id := 1;
     answer := fun k c =>
       match c with
       | get_chat_member _ u =>
           IsMember {| status := administrator; user := student u n |}
       | _ => @answer (obliging n) k c
       end |}.


(** Tables that classify every code point outside ASCII as whitespace
    and as a decimal digit. *)
Definition wide_tables : Unicode :=
  {| unicode_space := fun c => (128 <=? c)%N;
     unicode_decimal := fun c => (128 <=? c)%N |}.

(** A text message written in the monitored group. *)
Definition group_message (u : User) (t : string) : Update :=
  {| effective_chat_type := supergroup; effective_chat_id := GROUP_ID;
     effective_user := Some u; text := Some (lit t); command := None;
     new_chat_members := [] |}.
(* ================================================================== *)
(** * Theorems *)
(* ================================================================== *)

(** ** The matcher decides the language *)

Lemma Lang_Eps_inv s : Lang Eps s -> s = [].
Proof. by inversion 1. Qed.

Lemma Lang_Cls_iff p s : Lang (Cls p) s <-> exists c, s = [c] /\ p c = true.
Proof.
  split.
  - inversion 1; subst. eauto.
  - intros (c & -> & Hc). by constructor.
Qed.

Lemma Lang_Cat_iff r1 r2 s :
  Lang (Cat r1 r2) s <-> exists s1 s2, s = s1 ++ s2 /\ Lang r1 s1 /\ Lang r2 s2.
Proof.
  split.
  - inversion 1; subst. eauto.
  - intros (s1 & s2 & -> & H1 & H2). by constructor.
Qed.

Lemma Lang_Alt_iff r1 r2 s : Lang (Alt r1 r2) s <-> Lang r1 s \/ Lang r2 s.
Proof.
  split.
  - inversion 1; subst; auto.
  - intros [?|?]; [by apply Lang_Alt_l | by apply Lang_Alt_r].
Qed.

Lemma nullable_Lang r : nullable r = true <-> Lang r [].
Proof.
  induction r as [| |p|r1 IH1 r2 IH2|r1 IH1 r2 IH2|r IH]; simpl.
  - split; [done | inversion 1].
  - split; [constructor | done].
  - split; [done | inversion 1].
  - rewrite andb_true_iff, IH1, IH2, Lang_Cat_iff. split.
    + intros [? ?]. by exists [], [].
    + intros (s1 & s2 & Heq & ? & ?). symmetry in Heq.
      apply app_eq_nil in Heq as [-> ->]. done.
  - rewrite orb_true_iff, IH1, IH2, Lang_Alt_iff. done.
  - split; [constructor | done].
Qed.

Lemma Lang_Star_cons_inv r c s :
  Lang (Star r) (c :: s) ->
  exists s1 s2, s = s1 ++ s2 /\ Lang r (c :: s1) /\ Lang (Star r) s2.
Proof.
  intros HL. remember (Star r) as r' eqn:Hr. remember (c :: s) as t eqn:Ht.
  revert c s Ht. induction HL as [| | | | | |r0 s1 s2 H1 _ H2 IH2]; try discriminate.
  injection Hr as ->. intros c s Ht.
  destruct s1 as [|c1 s1]; simpl in Ht.
  - by apply IH2.
  - injection Ht as -> <-. eauto.
Qed.

Lemma deriv_Lang c r s : Lang (deriv c r) s <-> Lang r (c :: s).
Proof.
  revert s. induction r as [| |p|r1 IH1 r2 IH2|r1 IH1 r2 IH2|r IH]; intros s; simpl.
  - split; inversion 1.
  - split; inversion 1.
  - rewrite Lang_Cls_iff. destruct (p c) eqn:Hp.
    + split.
      * intros ->%Lang_Eps_inv. eauto.
      * intros (c' & [= <- ->] & _). constructor.
    + split; [inversion 1|]. intros (c' & [= <- ->] & ?). congruence.
  - assert (Lang (Cat (deriv c r1) r2) s <->
            exists s1 s2, s = s1 ++ s2 /\ Lang r1 (c :: s1) /\ Lang r2 s2) as Hcat.
    { rewrite Lang_Cat_iff. by setoid_rewrite IH1. }
    rewrite (Lang_Cat_iff r1 r2). destruct (nullable r1) eqn:Hn.
    + rewrite Lang_Alt_iff, Hcat, IH2. apply nullable_Lang in Hn. split.
      * intros [(s1 & s2 & -> & ? & ?)|?].
        -- by exists (c :: s1), s2.
        -- by exists [], (c :: s).
      * intros (s1 & s2 & Heq & ? & ?). destruct s1 as [|c1 s1]; simpl in Heq.
        -- subst s2. by right.
        -- injection Heq as <- ->. left. eauto.
    + rewrite Hcat. split.
      * intros (s1 & s2 & -> & ? & ?). by exists (c :: s1), s2.
      * intros (s1 & s2 & Heq & H1 & ?). destruct s1 as [|c1 s1]; simpl in Heq.
        -- apply nullable_Lang in H1. congruence.
        -- injection Heq as <- ->. eauto.
  - by rewrite !Lang_Alt_iff, IH1, IH2.
  - rewrite Lang_Cat_iff. setoid_rewrite IH. split.
    + intros (s1 & s2 & -> & ? & ?). by apply (Lang_Star_app r (c :: s1) s2).
    + apply Lang_Star_cons_inv.
Qed.

Lemma fullmatch_Lang r s : fullmatch r s = true <-> Lang r s.
Proof.
  revert r. induction s as [|c s IH]; intros r; simpl.
  - apply nullable_Lang.
  - by rewrite IH, deriv_Lang.
Qed.

Lemma chomp_Some s s' : chomp s = Some s' <-> s = s' ++ [LF].
Proof.
  revert s'. induction s as [|c s IH]; intros s'.
  - simpl. split; [done|]. by destruct s'.
  - destruct s as [|c2 s].
    + simpl. destruct (N.eqb_spec c LF) as [->|Hne].
      * split; [by intros [= <-]|]. destruct s' as [|? [|? ?]]; by intros [=].
      * split; [done|]. destruct s' as [|? [|? ?]]; intros [=]; congruence.
    + change (chomp (c :: c2 :: s)) with (cons c <$> chomp (c2 :: s)).
      destruct (chomp (c2 :: s)) as [t|]; simpl.
      * pose proof (proj1 (IH t) eq_refl) as Ht. rewrite Ht. split.
        -- by intros [= <-].
        -- destruct s' as [|c' s']; simpl.
           ++ intros [= _ Habs]. by destruct t.
           ++ intros [= -> Heq%app_inv_tail]. by subst.
      * split; [done|]. destruct s' as [|c' s']; simpl.
        -- intros [=].
        -- intros [= -> Heq]. by apply IH in Heq.
Qed.

Lemma re_match_anchored_Lang r s :
  re_match_anchored r s = true <->
  up_to_final_newline (Lang r) s.
Proof.
  unfold re_match_anchored, up_to_final_newline.
  rewrite orb_true_iff, fullmatch_Lang. split.
  - intros [?|Hc]; [by left|]. destruct (chomp s) as [s'|] eqn:Hs; [|done].
    right. exists s'. by rewrite <- chomp_Some, <- fullmatch_Lang.
  - intros [?|(s' & Hs & HL)]; [by left|]. right.
    apply chomp_Some in Hs. rewrite Hs. by apply fullmatch_Lang.
Qed.

(** ** The languages of the two patterns *)

Lemma Lang_Star_iff r s :
  Lang (Star r) s <-> exists pieces, s = concat pieces /\ Forall (Lang r) pieces.
Proof.
  split.
  - intros HL. remember (Star r) as r' eqn:Hr.
    induction HL as [| | | | | |r0 s1 s2 H1 _ _ IH2]; try discriminate.
    + by exists [].
    + injection Hr as ->. destruct (IH2 eq_refl) as (pieces & -> & HF).
      exists (s1 :: pieces). split; [done|]. by constructor.
  - intros (pieces & -> & HF). induction HF as [|p pieces Hp _ IH]; simpl.
    + constructor.
    + by constructor.
Qed.

Lemma Lang_Star_Cls p s : Lang (Star (Cls p)) s <-> forallb p s = true.
Proof.
  rewrite Lang_Star_iff. split.
  - intros (pieces & -> & HF). induction HF as [|x pieces Hx _ IH]; [done|].
    apply Lang_Cls_iff in Hx as (c & -> & Hc). simpl. by rewrite Hc.
  - intros Hs. exists (map (fun c => [c]) s). split.
    + induction s as [|c s IH]; [done|]. simpl in *.
      apply andb_true_iff in Hs as [_ Hs]. by rewrite <- IH.
    + induction s as [|c s IH]; simpl in *; constructor.
      * apply andb_true_iff in Hs as [Hc _]. by constructor.
      * apply andb_true_iff in Hs as [_ Hs]. by apply IH.
Qed.

Lemma Lang_Plus_Cls p s :
  Lang (Plus (Cls p)) s <-> s <> [] /\ forallb p s = true.
Proof.
  unfold Plus. rewrite Lang_Cat_iff. split.
  - intros (s1 & s2 & -> & (c & -> & Hc)%Lang_Cls_iff & Hs%Lang_Star_Cls).
    split; [done|]. simpl. by rewrite Hc.
  - intros [Hne Hs]. destruct s as [|c s]; [done|]. simpl in Hs.
    apply andb_true_iff in Hs as [Hc Hs]. exists [c], s.
    split; [done|]. split; [by constructor | by apply Lang_Star_Cls].
Qed.

Lemma Lang_Rep_Cls n p s :
  Lang (Rep n (Cls p)) s <-> length s = n /\ forallb p s = true.
Proof.
  revert s. induction n as [|n IH]; intros s; simpl.
  - split.
    + by intros ->%Lang_Eps_inv.
    + intros [Hl _]. destruct s; [constructor | done].
  - rewrite Lang_Cat_iff. split.
    + intros (s1 & s2 & -> & (c & -> & Hc)%Lang_Cls_iff & [Hl Hs]%IH).
      simpl. by rewrite Hc, Hl.
    + intros [Hl Hs]. destruct s as [|c s]; [done|]. simpl in *.
      apply andb_true_iff in Hs as [Hc Hs]. exists [c], s.
      split; [done|]. split; [by constructor|]. apply IH. split; [lia | done].
Qed.

Lemma Lang_UpTo_Cls n p s :
  Lang (UpTo n (Cls p)) s <-> (length s <= n)%nat /\ forallb p s = true.
Proof.
  revert s. induction n as [|n IH]; intros s; simpl.
  - split.
    + by intros ->%Lang_Eps_inv.
    + intros [Hl _]. destruct s; [constructor | simpl in Hl; lia].
  - unfold Opt. rewrite Lang_Alt_iff, Lang_Cat_iff. split.
    + intros [(s1 & s2 & -> & (c & -> & Hc)%Lang_Cls_iff & [Hl Hs]%IH)| ->%Lang_Eps_inv].
      * simpl. rewrite Hc. split; [lia | done].
      * simpl. split; [lia | done].
    + intros [Hl Hs]. destruct s as [|c s]; [right; constructor|]. left.
      simpl in *. apply andb_true_iff in Hs as [Hc Hs]. exists [c], s.
      split; [done|]. split; [by constructor|]. apply IH. split; [lia | done].
Qed.

Lemma Lang_Range_Cls lo hi p s :
  (lo <= hi)%nat ->
  Lang (Range lo hi (Cls p)) s <->
  (lo <= length s <= hi)%nat /\ forallb p s = true.
Proof.
  intros Hle. unfold Range. rewrite Lang_Cat_iff. split.
  - intros (s1 & s2 & -> & [Hl1 Hs1]%Lang_Rep_Cls & [Hl2 Hs2]%Lang_UpTo_Cls).
    rewrite length_app, forallb_app, Hs1, Hs2. split; [lia | done].
  - intros [Hl Hs]. exists (take lo s), (drop lo s).
    rewrite <- (take_drop lo s) in Hs. rewrite forallb_app in Hs.
    apply andb_true_iff in Hs as [Hs1 Hs2].
    split; [by rewrite take_drop|]. split.
    + apply Lang_Rep_Cls. rewrite length_take. split; [lia | done].
    + apply Lang_UpTo_Cls. rewrite length_drop. split; [lia | done].
Qed.

Lemma Lang_Chr c s : Lang (Chr c) s <-> s = [c].
Proof.
  unfold Chr. rewrite Lang_Cls_iff. split.
  - intros (c' & -> & Hc%N.eqb_eq). by subst.
  - intros ->. exists c. split; [done | apply N.eqb_refl].
Qed.

Section ShapeLemmas.
Context `{Unicode}.

Lemma Lang_capitalized w :
  Lang (Cat (Cls re_upper) (Plus (Cls re_lower))) w <-> capitalized w.
Proof.
  rewrite Lang_Cat_iff. unfold capitalized. split.
  - intros (s1 & s2 & -> & (c & -> & Hc)%Lang_Cls_iff & [Hne Hs]%Lang_Plus_Cls).
    by exists c, s2.
  - intros (c & cs & -> & Hc & Hne & Hs). exists [c], cs.
    split; [done|]. split; [by constructor | by apply Lang_Plus_Cls].
Qed.

Lemma Lang_spaced_word s :
  Lang (cats [Plus (Cls re_space); Cls re_upper; Plus (Cls re_lower)]) s
  <-> spaced_word s.
Proof.
  simpl. rewrite Lang_Cat_iff. unfold spaced_word, blank.
  setoid_rewrite Lang_Plus_Cls at 1. by setoid_rewrite Lang_capitalized.
Qed.

Lemma Lang_name_words s : Lang name_words s <-> words s.
Proof.
  unfold name_words, words. simpl. split.
  - intros (s1 & s2 & -> & (c & -> & Hc)%Lang_Cls_iff & HL)%Lang_Cat_iff.
    apply Lang_Cat_iff in HL as (cs & s3 & -> & [Hne Hcs]%Lang_Plus_Cls & HS).
    apply Lang_Star_iff in HS as (pieces & -> & HF).
    exists (c :: cs), pieces. split; [done|]. split.
    + by exists c, cs.
    + eapply Forall_impl; [exact HF|]. intros x. apply Lang_spaced_word.
  - intros (w & rest & -> & (c & cs & -> & Hc & Hne & Hcs) & HF).
    apply (Lang_Cat (Cls re_upper) _ [c] (cs ++ concat rest)); [by constructor|].
    apply Lang_Cat; [by apply Lang_Plus_Cls|].
    apply Lang_Star_iff. exists rest. split; [done|].
    eapply Forall_impl; [exact HF|]. intros x. apply Lang_spaced_word.
Qed.

Lemma Lang_PRE_MATRIC_PATTERN s :
  Lang PRE_MATRIC_PATTERN s <-> pre_matric_shape s.
Proof.
  unfold PRE_MATRIC_PATTERN, pre_matric_shape, blank, uppercase_token, digits.
  simpl. split.
  - intros (ws & t1 & -> & Hws%Lang_name_words & HL)%Lang_Cat_iff.
    apply Lang_Cat_iff in HL as (b1 & t2 & -> & Hb1%Lang_Plus_Cls & HL).
    apply Lang_Cat_iff in HL as (dept & t3 & -> & Hd%Lang_Plus_Cls & HL).
    apply Lang_Cat_iff in HL as (b2 & ds & -> & Hb2%Lang_Plus_Cls & Hds).
    apply (Lang_Rep_Cls 12) in Hds. by exists ws, b1, dept, b2, ds.
  - intros (ws & b1 & dept & b2 & ds & -> & Hws & Hb1 & Hd & Hb2 & Hds).
    apply Lang_Cat; [by apply Lang_name_words|].
    apply Lang_Cat; [by apply Lang_Plus_Cls|].
    apply Lang_Cat; [by apply Lang_Plus_Cls|].
    apply Lang_Cat; [by apply Lang_Plus_Cls|].
    by apply (Lang_Rep_Cls 12).
Qed.

Lemma Lang_POST_MATRIC_PATTERN s :
  Lang POST_MATRIC_PATTERN s <-> post_matric_shape s.
Proof.
  unfold POST_MATRIC_PATTERN, post_matric_shape, blank, digits.
  simpl cats. split.
  - intros (prefix & t1 & -> & Hp & HL)%Lang_Cat_iff.
    apply Lang_Cat_iff in HL as (letters & t2 & -> & Hl & HL).
    apply Lang_Range_Cls in Hl as [Hlen Hup]; [|lia].
    apply Lang_Cat_iff in HL as (sl1 & t3 & -> & ->%Lang_Chr & HL).
    apply Lang_Cat_iff in HL as (d2 & t4 & -> & Hd2 & HL).
    apply (Lang_Rep_Cls 2) in Hd2.
    apply Lang_Cat_iff in HL as (sl2 & d4 & -> & ->%Lang_Chr & Hd4).
    apply (Lang_Rep_Cls 4) in Hd4.
    exists prefix, letters, d2, d4. split; [done|]. split; [|done].
    apply Lang_Alt_iff in Hp as [Hp| ->%Lang_Eps_inv]; [right | by left].
    apply Lang_Cat_iff in Hp as (ws & b & -> & Hws%Lang_name_words & Hb%Lang_Plus_Cls).
    by exists ws, b.
  - intros (prefix & letters & d2 & d4 & -> & Hp & Hlen & Hup & Hd2 & Hd4).
    apply Lang_Cat.
    { apply Lang_Alt_iff. destruct Hp as [-> |(ws & b & -> & Hws & Hb)].
      - right. constructor.
      - left. apply Lang_Cat; [by apply Lang_name_words | by apply Lang_Plus_Cls]. }
    apply Lang_Cat; [by apply Lang_Range_Cls; [lia|]|].
    apply Lang_Cat; [by apply Lang_Chr|].
    apply Lang_Cat; [by apply (Lang_Rep_Cls 2)|].
    apply Lang_Cat; [by apply Lang_Chr|].
    by apply (Lang_Rep_Cls 4).
Qed.

Lemma validate_name_shape m s :
  validate_name m s = true <-> up_to_final_newline (mode_shape m) s.
Proof.
  unfold validate_name, up_to_final_newline.
  destruct m; rewrite re_match_anchored_Lang; unfold up_to_final_newline; simpl.
  - rewrite Lang_PRE_MATRIC_PATTERN. by setoid_rewrite Lang_PRE_MATRIC_PATTERN.
  - rewrite Lang_POST_MATRIC_PATTERN. by setoid_rewrite Lang_POST_MATRIC_PATTERN.
Qed.
End ShapeLemmas.

(** ** Running a computation step by step *)

Section RunLemmas.
Context `{Unicode} `{Platform}.

Lemma run_bind {A B} (m : M A) (k : A -> M B) w :
  (m ≫= k) w = match m w with
               | (Ok a, w') => k a w'
               | (Raised, w') => (Raised, w')
               end.
Proof. reflexivity. Qed.

Lemma run_try {A} (m h : M A) w :
  try_except m h w = match m w with
                     | (Ok a, w') => (Ok a, w')
                     | (Raised, w') => h w'
                     end.
Proof. reflexivity. Qed.

Lemma run_ret {A} (a : A) w : (mret a : M A) w = (Ok a, w).
Proof. reflexivity. Qed.

Lemma run_gets {A} (g : World -> A) w : gets g w = (Ok (g w), w).
Proof. reflexivity. Qed.

Lemma run_modify g w : modify g w = (Ok tt, g w).
Proof. reflexivity. Qed.

Lemma run_raise {A} w : @raise A w = (Raised, w).
Proof. reflexivity. Qed.

Lemma run_bot_send c w :
  bot_send c w =
  (match answer (length (calls w)) c with
   | Sent i => Ok i
   | _ => Raised
   end, logged c w).
Proof.
  unfold bot_send, call, logged. rewrite run_bind.
  by destruct (answer _ _).
Qed.

Lemma run_bot_do c w :
  bot_do c w =
  (match answer (length (calls w)) c with
   | Done => Ok tt
   | _ => Raised
   end, logged c w).
Proof.
  unfold bot_do, call, logged. rewrite run_bind.
  by destruct (answer _ _).
Qed.

Lemma run_bot_get_chat_member chat_id user_id w :
  bot_get_chat_member chat_id user_id w =
  (match answer (length (calls w)) (get_chat_member chat_id user_id) with
   | IsMember m => Ok m
   | _ => Raised
   end, logged (get_chat_member chat_id user_id) w).
Proof.
  unfold bot_get_chat_member, call, logged. rewrite run_bind.
  by destruct (answer _ _).
Qed.

Lemma run_bot_get_me w :
  bot_get_me w =
  (match answer (length (calls w)) get_me with
   | Me u => Ok u
   | _ => Raised
   end, logged get_me w).
Proof.
  unfold bot_get_me, call, logged. rewrite run_bind.
  by destruct (answer _ _).
Qed.

Lemma run_bot_create_chat_invite_link c e l u w :
  bot_create_chat_invite_link c e l u w =
  (match answer (length (calls w)) (create_chat_invite_link c e l u) with
   | Invite i => Ok i
   | _ => Raised
   end, logged (create_chat_invite_link c e l u) w).
Proof.
  unfold bot_create_chat_invite_link, call, logged. rewrite run_bind.
  by destruct (answer _ _).
Qed.
End RunLemmas.

Ltac run1 :=
  first
    [ rewrite run_bind | rewrite run_try | rewrite run_ret | rewrite run_gets
    | rewrite run_modify | rewrite run_raise | rewrite run_bot_send
    | rewrite run_bot_do | rewrite run_bot_get_chat_member
    | rewrite run_bot_get_me | rewrite run_bot_create_chat_invite_link
    | progress cbn beta iota ].

Ltac run := repeat run1.

Ltac by_answer :=
  match goal with
  | |- context [match answer ?n ?c with _ => _ end] =>
      destruct (answer n c) eqn:?
  end.


(** ** Running the monad *)

Ltac unfold_monad :=
  unfold result, after, mbind, M_bind, mret, M_ret, gets, modify, raise,
    try_except, getitem, bot_send, bot_do, bot_get_chat_member, bot_get_me,
    bot_create_chat_invite_link, call in *.

Ltac step := unfold_monad; simpl in *.

Section Runs.
Context `{Unicode} `{Platform}.

Lemma is_lecturer_or_admin_total user_id chat_id w :
  exists b, result (is_lecturer_or_admin user_id chat_id) w = Ok b.
Proof.
  unfold is_lecturer_or_admin.
  case_bool_decide; [by eexists|]. step.
  case_bool_decide; [by eexists|]. step.
  destruct (answer _ _) as [| | |m| |]; simpl; try by eexists.
  destruct (is_admin_status _); by eexists.
Qed.

Lemma non_exempt_run w user_id :
  non_exempt w user_id ->
  is_lecturer_or_admin user_id GROUP_ID w
  = (Ok false, logged (get_chat_member GROUP_ID user_id) w).
Proof.
  unfold non_exempt, is_lecturer_or_admin, logged.
  case_bool_decide; [done|]. step.
  case_bool_decide; [done|]. step.
  destruct (answer _ _) as [| | |m| |]; simpl; try done.
  destruct (is_admin_status _); done.
Qed.

Lemma non_exempt_iff w user_id :
  non_exempt w user_id <->
  (user_id ∉ LECTURER_IDS) /\ (user_id ∉ group_admins w) /\
  match answer (length (calls w)) (get_chat_member GROUP_ID user_id) with
  | IsMember m => is_admin_status (status m) = false
  | _ => True
  end.
Proof.
  unfold non_exempt, is_lecturer_or_admin.
  case_bool_decide; [split; [done | tauto]|]. step.
  case_bool_decide; [split; [done | tauto]|]. step.
  destruct (answer _ _) as [| | |m| |]; simpl; try tauto.
  destruct (is_admin_status _); simpl; split; try done; try tauto.
  intros (_ & _ & ?); done.
Qed.
End Runs.

(** ** Stores a computation leaves alone *)

Section Frame.
Context `{Unicode} `{Platform}.
Context {T : Type} (f : World -> T).

Lemma preserves_ret {A} (a : A) : preserves f (mret a).
Proof. by intros w. Qed.

Lemma preserves_raise {A} : preserves f (@raise A).
Proof. by intros w. Qed.

Lemma preserves_gets {A} (g : World -> A) : preserves f (gets g).
Proof. by intros w. Qed.

Lemma preserves_bind {A B} (m : M A) (k : A -> M B) :
  preserves f m -> (forall a, preserves f (k a)) -> preserves f (m ≫= k).
Proof.
  intros Hm Hk w. unfold after, mbind, M_bind.
  specialize (Hm w). unfold after in Hm.
  destruct (m w) as [[a|] w1]; simpl in *; [|done].
  by rewrite <- Hm, <- (Hk a w1).
Qed.

Lemma preserves_try {A} (m h : M A) :
  preserves f m -> preserves f h -> preserves f (try_except m h).
Proof.
  intros Hm Hh w. unfold after, try_except.
  specialize (Hm w). unfold after in Hm.
  destruct (m w) as [[a|] w1]; simpl in *; [done|].
  by rewrite <- Hm, <- (Hh w1).
Qed.

Lemma preserves_for_each {A} (xs : list A) (body : A -> M unit) :
  (forall x, preserves f (body x)) -> preserves f (for_each xs body).
Proof.
  intros Hb. induction xs as [|x xs IH]; simpl.
  - apply preserves_ret.
  - apply preserves_bind; [apply Hb | by intros _].
Qed.

Lemma preserves_modify (g : World -> World) :
  (forall w, f (g w) = f w) -> preserves f (modify g).
Proof. intros Hg w. apply Hg. Qed.

(** A store other than the log is not touched by a call. *)
Hypothesis f_not_log : forall g w, f (upd_calls g w) = f w.

Lemma preserves_call c : preserves f (call c).
Proof.
  intros w. unfold after, call. destruct (answer _ _); simpl; apply f_not_log.
Qed.

Lemma preserves_bot_send c : preserves f (bot_send c).
Proof.
  apply preserves_bind; [apply preserves_call|].
  intros []; first [apply preserves_ret | apply preserves_raise].
Qed.

Lemma preserves_bot_do c : preserves f (bot_do c).
Proof.
  apply preserves_bind; [apply preserves_call|].
  intros []; first [apply preserves_ret | apply preserves_raise].
Qed.

Lemma preserves_bot_get_chat_member c u : preserves f (bot_get_chat_member c u).
Proof.
  apply preserves_bind; [apply preserves_call|].
  intros []; first [apply preserves_ret | apply preserves_raise].
Qed.

Lemma preserves_bot_get_me : preserves f bot_get_me.
Proof.
  apply preserves_bind; [apply preserves_call|].
  intros []; first [apply preserves_ret | apply preserves_raise].
Qed.

Lemma preserves_bot_create_chat_invite_link c e l u :
  preserves f (bot_create_chat_invite_link c e l u).
Proof.
  apply preserves_bind; [apply preserves_call|].
  intros []; first [apply preserves_ret | apply preserves_raise].
Qed.
End Frame.

(** Decompose a goal [preserves f m] along the structure of [m]. *)
Ltac frame_step :=
  lazymatch goal with
  | |- preserves _ (mret _) => apply preserves_ret
  | |- preserves _ raise => apply preserves_raise
  | |- preserves _ (gets _) => apply preserves_gets
  | |- preserves _ (modify _) => apply preserves_modify; by intros []
  | |- preserves _ (call _) => apply preserves_call; by intros ? []
  | |- preserves _ (bot_send _) => apply preserves_bot_send; by intros ? []
  | |- preserves _ (bot_do _) => apply preserves_bot_do; by intros ? []
  | |- preserves _ (bot_get_chat_member _ _) =>
      apply preserves_bot_get_chat_member; by intros ? []
  | |- preserves _ bot_get_me => apply preserves_bot_get_me; by intros ? []
  | |- preserves _ (bot_create_chat_invite_link _ _ _ _) =>
      apply preserves_bot_create_chat_invite_link; by intros ? []
  | |- preserves _ (try_except _ _) => apply preserves_try
  | |- preserves _ (for_each _ _) => apply preserves_for_each; intros ?
  | |- preserves _ (_ ≫= _) => apply preserves_bind; [|intros ?]
  | |- preserves _ (match ?x with _ => _ end) => destruct x
  | |- preserves _ _ =>
      progress unfold is_lecturer_or_admin, create_invite_link,
        schedule_message_deletion, delete_warning, cancel_removal_jobs,
        mark_invite_link_used, del_pending, getitem, count_attempt
  end.

Ltac frame := repeat frame_step.


Lemma use_preserves {A T} (f : World -> T) (m : M A) w :
  preserves f m -> f (after m w) = f w.
Proof. intros Hm. apply Hm. Qed.

Lemma after_modify_bind {B} (g : World -> World) (k : unit -> M B) w :
  after (modify g ≫= k) w = after (k tt) (g w).
Proof. reflexivity. Qed.

Lemma after_gets_bind {A B} (g : World -> A) (k : A -> M B) w :
  after (gets g ≫= k) w = after (k (g w)) w.
Proof. reflexivity. Qed.

Lemma after_ret_bind {A B} (a : A) (k : A -> M B) w :
  after (mret a ≫= k) w = after (k a) w.
Proof. reflexivity. Qed.

Lemma result_modify_bind {B} (g : World -> World) (k : unit -> M B) w :
  result (modify g ≫= k) w = result (k tt) (g w).
Proof. reflexivity. Qed.

Lemma result_gets_bind {A B} (g : World -> A) (k : A -> M B) w :
  result (gets g ≫= k) w = result (k (g w)) w.
Proof. reflexivity. Qed.

Lemma result_ret_bind {A B} (a : A) (k : A -> M B) w :
  result (mret a ≫= k) w = result (k a) w.
Proof. reflexivity. Qed.

(** ** Calls a computation may issue *)

Lemma only_calls_issued {A} P (m : M A) w :
  only_calls P m -> Forall (fun e => P (fst e)) (issued m w).
Proof.
  intros Hm. destruct (Hm w) as (new & Heq & Hnew).
  unfold issued. by rewrite Heq, drop_app_length.
Qed.

Section OnlyCalls.
Context `{Unicode} `{Platform}.
Context (P : Call -> Prop).

Lemma only_calls_silent {A} (m : M A) :
  preserves calls m -> only_calls P m.
Proof. intros Hm w. exists []. by rewrite Hm, app_nil_r. Qed.

Lemma only_calls_bind {A B} (m : M A) (k : A -> M B) :
  only_calls P m -> (forall a, only_calls P (k a)) -> only_calls P (m ≫= k).
Proof.
  intros Hm Hk w. destruct (Hm w) as (n1 & E1 & F1).
  unfold after in *. rewrite run_bind.
  destruct (m w) as [[a|] w1]; simpl in *; [|by exists n1].
  destruct (Hk a w1) as (n2 & E2 & F2). unfold after in E2.
  exists (n1 ++ n2). rewrite E2, E1, app_assoc. split; [done|].
  by apply Forall_app.
Qed.

Lemma only_calls_try {A} (m h : M A) :
  only_calls P m -> only_calls P h -> only_calls P (try_except m h).
Proof.
  intros Hm Hh w. destruct (Hm w) as (n1 & E1 & F1).
  unfold after in *. rewrite run_try.
  destruct (m w) as [[a|] w1]; simpl in *; [by exists n1|].
  destruct (Hh w1) as (n2 & E2 & F2). unfold after in E2.
  exists (n1 ++ n2). rewrite E2, E1, app_assoc. split; [done|].
  by apply Forall_app.
Qed.

Lemma only_calls_for_each {A} (xs : list A) (body : A -> M unit) :
  Forall (fun x => only_calls P (body x)) xs ->
  only_calls P (for_each xs body).
Proof.
  induction 1 as [|x xs Hx _ IH]; simpl.
  - apply only_calls_silent. by intros w.
  - apply only_calls_bind; [done | by intros _].
Qed.

Lemma only_calls_call c : P c -> only_calls P (call c).
Proof.
  intros Hc w. exists [(c, answer (length (calls w)) c)].
  split; [|by repeat constructor].
  unfold after, call. by destruct (answer _ _).
Qed.

Lemma only_calls_bot_send c : P c -> only_calls P (bot_send c).
Proof.
  intros Hc. apply only_calls_bind; [by apply only_calls_call|].
  intros []; apply only_calls_silent; by intros w.
Qed.

Lemma only_calls_bot_do c : P c -> only_calls P (bot_do c).
Proof.
  intros Hc. apply only_calls_bind; [by apply only_calls_call|].
  intros []; apply only_calls_silent; by intros w.
Qed.

Lemma only_calls_bot_get_chat_member c u :
  P (get_chat_member c u) -> only_calls P (bot_get_chat_member c u).
Proof.
  intros Hc. apply only_calls_bind; [by apply only_calls_call|].
  intros []; apply only_calls_silent; by intros w.
Qed.

Lemma only_calls_bot_get_me : P get_me -> only_calls P bot_get_me.
Proof.
  intros Hc. apply only_calls_bind; [by apply only_calls_call|].
  intros []; apply only_calls_silent; by intros w.
Qed.
End OnlyCalls.

Ltac only_step :=
  lazymatch goal with
  | |- only_calls _ (bot_send _) => apply only_calls_bot_send
  | |- only_calls _ (bot_do _) => apply only_calls_bot_do
  | |- only_calls _ (bot_get_chat_member _ _) =>
      apply only_calls_bot_get_chat_member
  | |- only_calls _ bot_get_me => apply only_calls_bot_get_me
  | |- only_calls _ (try_except _ _) => apply only_calls_try
  | |- only_calls _ (_ ≫= _) => apply only_calls_bind; [|intros ?]
  | |- only_calls _ (match ?x with _ => _ end) => destruct x
  | |- only_calls _ (del_pending _) => unfold del_pending
  | |- only_calls _ (delete_warning _ _) => unfold delete_warning
  | |- only_calls _ (schedule_message_deletion _ _) =>
      apply only_calls_silent; solve [frame]
  | |- only_calls _ _ => apply only_calls_silent; solve [frame]
  end.

(** ** The entries of a dict, in the order of the dict *)

Section Items.
Context `{InsertionOrder}.

Lemma elem_of_items (d : gmap Z Pending) k p :
  (k, p) ∈ items d <-> d !! k = Some p.
Proof. rewrite (items_arranged d). apply elem_of_map_to_list. Qed.

Lemma NoDup_items (d : gmap Z Pending) : NoDup (items d).
Proof. rewrite (items_arranged d). apply NoDup_map_to_list. Qed.
End Items.

Section Sweep.
Context `{Unicode} `{Platform} `{InsertionOrder}.

(** The deadline sweep bans only identities that have a pending
    correction. *)
Lemma check_pending_removals_spares user_id current_time w :
  pending_corrections w !! user_id = None ->
  Forall (fun e => is_ban_of user_id (fst e) = false)
    (issued (check_pending_removals current_time) w).
Proof.
  intros Hnone. unfold issued, check_pending_removals, after.
  rewrite run_bind, run_gets. cbn beta iota.
  assert (Forall (fun item : Z * Pending => fst item <> user_id)
            (List.filter (fun item => timer_end (snd item) <=? current_time)
               (items (pending_corrections w)))) as Hitems.
  { apply Forall_forall. intros [k p] Hin.
    apply list_elem_of_In, filter_In in Hin as [Hin _].
    apply list_elem_of_In, elem_of_items in Hin. simpl. congruence. }
  apply (only_calls_issued (fun c => is_ban_of user_id c = false)).
  apply only_calls_for_each.
  eapply Forall_impl; [exact Hitems|]. intros [k p] Hk. simpl in *.
  assert (is_ban_of user_id (ban_chat_member GROUP_ID k) = false) as Hban.
  { simpl. by apply bool_decide_eq_false_2. }
  repeat only_step; done.
Qed.
End Sweep.

(** ** Stores a computation neither reads nor writes *)

Section Oblivious.
Context `{Unicode} `{Platform}.
Context (s : World -> World).

Lemma oblivious_ret {A} (a : A) : oblivious s (mret a).
Proof. by intros w. Qed.

Lemma oblivious_raise {A} : oblivious s (@raise A).
Proof. by intros w. Qed.

Lemma oblivious_gets {A} (g : World -> A) :
  (forall w, g (s w) = g w) -> oblivious s (gets g).
Proof. intros Hg w. unfold gets, result, after. simpl. by rewrite Hg. Qed.

Lemma oblivious_modify (g : World -> World) :
  (forall w, g (s w) = s (g w)) -> oblivious s (modify g).
Proof. intros Hg w. unfold modify, result, after. simpl. by rewrite Hg. Qed.

Lemma oblivious_bind {A B} (m : M A) (k : A -> M B) :
  oblivious s m -> (forall a, oblivious s (k a)) -> oblivious s (m ≫= k).
Proof.
  intros Hm Hk w. unfold result, after. rewrite !run_bind, Hm.
  unfold result, after. destruct (m w) as [[a|] w1]; simpl; [|done].
  by rewrite Hk.
Qed.

Lemma oblivious_try {A} (m h : M A) :
  oblivious s m -> oblivious s h -> oblivious s (try_except m h).
Proof.
  intros Hm Hh w. unfold result, after. rewrite !run_try, Hm.
  unfold result, after. destruct (m w) as [[a|] w1]; simpl; [done|].
  by rewrite Hh.
Qed.

Lemma oblivious_for_each {A} (xs : list A) (body : A -> M unit) :
  (forall x, oblivious s (body x)) -> oblivious s (for_each xs body).
Proof.
  intros Hb. induction xs as [|x xs IH]; simpl.
  - apply oblivious_ret.
  - apply oblivious_bind; [apply Hb | by intros _].
Qed.

Hypothesis s_log : forall w, calls (s w) = calls w.
Hypothesis s_upd_log : forall g w, upd_calls g (s w) = s (upd_calls g w).

Lemma oblivious_call c : oblivious s (call c).
Proof.
  intros w. unfold call, result, after. rewrite s_log, s_upd_log.
  by destruct (answer _ _).
Qed.

Lemma oblivious_bot_send c : oblivious s (bot_send c).
Proof.
  apply oblivious_bind; [apply oblivious_call|].
  intros []; first [apply oblivious_ret | apply oblivious_raise].
Qed.

Lemma oblivious_bot_get_chat_member c u :
  oblivious s (bot_get_chat_member c u).
Proof.
  apply oblivious_bind; [apply oblivious_call|].
  intros []; first [apply oblivious_ret | apply oblivious_raise].
Qed.

Lemma oblivious_bot_create_chat_invite_link c e l u :
  oblivious s (bot_create_chat_invite_link c e l u).
Proof.
  apply oblivious_bind; [apply oblivious_call|].
  intros []; first [apply oblivious_ret | apply oblivious_raise].
Qed.
End Oblivious.

Ltac oblivious_step :=
  lazymatch goal with
  | |- oblivious _ (mret _) => apply oblivious_ret
  | |- oblivious _ raise => apply oblivious_raise
  | |- oblivious _ (gets _) => apply oblivious_gets; by intros []
  | |- oblivious _ (modify _) => apply oblivious_modify; by intros []
  | |- oblivious _ (bot_send _) => apply oblivious_bot_send; [by intros [] | by intros ? []]
  | |- oblivious _ (bot_get_chat_member _ _) =>
      apply oblivious_bot_get_chat_member; [by intros [] | by intros ? []]
  | |- oblivious _ (bot_create_chat_invite_link _ _ _ _) =>
      apply oblivious_bot_create_chat_invite_link;
        [by intros [] | by intros ? []]
  | |- oblivious _ (try_except _ _) => apply oblivious_try
  | |- oblivious _ (for_each _ _) => apply oblivious_for_each; intros ?
  | |- oblivious _ (_ ≫= _) => apply oblivious_bind; [|intros ?]
  | |- oblivious _ (match ?x with _ => _ end) => destruct x
  | |- oblivious _ _ =>
      progress unfold handle_private_message, the_user, rejoin_request,
        is_lecturer_or_admin, create_invite_link, getitem, count_attempt
  end.

Section PrivateOblivious.
Context `{Unicode} `{Platform}.

Lemma handle_private_message_oblivious tracker pending update now :
  oblivious (with_group_state tracker pending)
    (handle_private_message update now).
Proof. repeat oblivious_step. Qed.
End PrivateOblivious.

Section Rejoin.
Context `{Unicode} `{Platform}.

(** What a rejoin request does to the counters. *)
Lemma rejoin_request_counters u now w :
  let d := counter_of w (u_id u) in
  rejoin_attempts (after (rejoin_request u now) w) =
  <[u_id u :=
      match cooldown_left d now with
      | Some _ => d
      | None => if REJOIN_ATTEMPTS_LIMIT <=? attempts d then d
                else counted d now
      end]> (rejoin_attempts w).
Proof.
  intros d. unfold rejoin_request.
  rewrite after_modify_bind, after_gets_bind.
  set (w1 := upd_rejoin_attempts _ w).
  assert (rejoin_attempts w1 !! u_id u = Some d /\
          <[u_id u := d]> (rejoin_attempts w) = rejoin_attempts w1) as [Hd Hw1].
  { subst w1 d. unfold counter_of. simpl.
    destruct (rejoin_attempts w !! u_id u) as [d|] eqn:Hd; simpl.
    - split; [done|]. by apply insert_id.
    - split; [apply lookup_insert_eq | done]. }
  unfold getitem at 1. rewrite Hd, after_ret_bind.
  assert (forall d', <[u_id u := d']> (rejoin_attempts w)
                     = <[u_id u := d']> (rejoin_attempts w1)) as Hins.
  { intros d'. by rewrite <- Hw1, insert_insert_eq. }
  destruct (cooldown_left d now) as [left|].
  { rewrite use_preserves by frame. by rewrite Hw1. }
  destruct (REJOIN_ATTEMPTS_LIMIT <=? attempts d).
  { rewrite use_preserves by frame. by rewrite Hw1. }
  rewrite after_gets_bind.
  destruct (validate_name _ _).
  - unfold count_attempt at 1. rewrite !after_modify_bind.
    rewrite use_preserves by frame. simpl. symmetry. apply Hins.
  - unfold count_attempt at 1. rewrite !after_modify_bind.
    rewrite use_preserves by frame. simpl. symmetry. apply Hins.
Qed.
End Rejoin.

(** ** The link-expiry sweep (C8) *)

Lemma for_each_delete_links (ks : list Z) (w : World) :
  for_each ks (fun user_id => modify (upd_active_invite_links (delete user_id))) w
  = (Ok tt,
     upd_active_invite_links (fun m => foldl (fun m k => delete k m) m ks) w).
Proof.
  revert w. induction ks as [|k ks IH]; intros w.
  - by destruct w.
  - simpl. rewrite run_bind, run_modify. cbn beta iota. rewrite IH.
    by destruct w.
Qed.

Lemma lookup_foldl_delete {V} (ks : list Z) (m : gmap Z V) (u : Z) :
  foldl (fun m k => delete k m) m ks !! u =
  if bool_decide (u ∈ ks) then None else m !! u.
Proof.
  revert m. induction ks as [|k ks IH]; intros m; simpl.
  - reflexivity.
  - rewrite IH. destruct (decide (u = k)) as [->|Hne].
    + rewrite lookup_delete_eq.
      rewrite (bool_decide_eq_true_2 (k ∈ k :: ks)) by apply list_elem_of_here.
      by case_bool_decide.
    + rewrite lookup_delete_ne by done.
      rewrite (bool_decide_ext (u ∈ k :: ks) (u ∈ ks)); [done|].
      rewrite elem_of_cons. split; [by intros [?|?] | by right].
Qed.

Lemma elem_of_expired_links now (links : gmap Z Link) u :
  u ∈ expired_links now links <->
  exists l, links !! u = Some l /\ expires_at l < now.
Proof.
  unfold expired_links. rewrite list_elem_of_fmap. split.
  - intros [[k l] [-> Hin]].
    apply list_elem_of_In, filter_In in Hin as [Hin Hexp].
    apply list_elem_of_In, elem_of_map_to_list in Hin. simpl in *.
    exists l. split; [done | lia].
  - intros (l & Hl & Hexp). exists (u, l). split; [done|].
    apply list_elem_of_In, filter_In. split.
    + by apply list_elem_of_In, elem_of_map_to_list.
    + simpl. lia.
Qed.

(** C8: the sweep at [now] deletes exactly the link records with
    [expires_at < now]: an expired record is gone afterwards, any other
    record is still there unchanged; no other store changes (the approved
    rejoins in particular), and no call is issued. *)
Theorem cleanup_expired_links_exact (now : Z) (w : World) :
  let w' := after (cleanup_expired_links now) w in
  result (cleanup_expired_links now) w = Ok tt /\
  (forall user_id,
     active_invite_links w' !! user_id =
     match active_invite_links w !! user_id with
     | Some l => if expires_at l <? now then None else Some l
     | None => None
     end) /\
  approved_rejoins w' = approved_rejoins w /\
  rejoin_attempts w' = rejoin_attempts w /\
  pending_corrections w' = pending_corrections w /\
  member_name_tracker w' = member_name_tracker w /\
  warning_messages w' = warning_messages w /\
  bot_messages_to_cleanup w' = bot_messages_to_cleanup w /\
  group_admins w' = group_admins w /\
  job_queue w' = job_queue w /\
  MODE w' = MODE w /\
  calls w' = calls w.
Proof.
  unfold result, after, cleanup_expired_links.
  rewrite run_bind, run_gets. cbn beta iota. rewrite for_each_delete_links.
  simpl. split; [done|]. split; [|by repeat split].
  intros u. rewrite lookup_foldl_delete.
  destruct (active_invite_links w !! u) as [l|] eqn:Hl.
  - case_bool_decide as Hin.
    + apply elem_of_expired_links in Hin as (l' & Hl' & Hexp).
      assert (l' = l) as -> by congruence.
      by rewrite (proj2 (Z.ltb_lt _ _) Hexp).
    + destruct (Z.ltb_spec (expires_at l) now) as [Hexp|_]; [|done].
      exfalso. apply Hin. apply elem_of_expired_links. eauto.
  - by case_bool_decide.
Qed.

(** ** Link-issuance failure (C1) *)

(** C1 (the code departs from it): user 42, not exempt, asks to rejoin
    under a valid name and the platform refuses to create the invite
    link.  [create_invite_link] returns [None], the handler reports the
    error and returns: the Approved Rejoin record it stored is still
    there.  The rollback sits in the [except] branch, which a [None]
    result does not reach. *)
Theorem link_failure_leaves_approval :
  let P := no_invites "John IFT 202311038308" in
  let update := private_message (student 42 "John IFT 202311038308") "hello" in
  let w' := after (@handle_private_message basic_latin P update 1000) no_stores in
  @non_exempt P no_stores 42 /\
  @validate_name basic_latin (MODE no_stores) (lit "John IFT 202311038308") = true /\
  calls w' =
    [(get_chat_member GROUP_ID 42,
      IsMember {| status := member;
                  user := student 42 "John IFT 202311038308" |});
     (create_chat_invite_link GROUP_ID (1000 + seconds INVITE_LINK_DURATION)
        INVITE_LINK_USES 42, Raises);
     (reply_text ErrorCreatingLinkTryAgain, Sent 2)] /\
  active_invite_links w' !! 42 = None /\
  approved_rejoins w' !! 42 =
    Some {| display_name := lit "John IFT 202311038308";
            approval_time := 1000 |}.
Proof. vm_compute. by repeat split. Qed.

(** ** Resolving twice (C2) *)

(** C2 (the code departs from it): user 42 was warned and keeps the name
    "big mac".  The first run of the deadline resolver bans the user,
    posts the removal notice and deletes the Pending Correction.  A second
    run for the same identity finds no Pending Correction, and yet it
    bans again and posts a second removal notice: only the
    acknowledgement of a corrected name is guarded by the record. *)
Theorem resolving_twice_bans_twice :
  let resolve := @remove_user_if_not_corrected basic_latin stubborn GROUP_ID 42 in
  let w1 := after resolve warned_42 in
  let w2 := after resolve w1 in
  map fst (calls w1) =
    [get_chat_member GROUP_ID 42; get_chat_member GROUP_ID 42;
     ban_chat_member GROUP_ID 42; get_me;
     send_message GROUP_ID
       (RemovedNameViolation (lit "big mac") (Some (lit "gns_bot")));
     delete_message GROUP_ID 500] /\
  pending_corrections w1 !! 42 = None /\
  map fst (issued resolve w1) =
    [get_chat_member GROUP_ID 42; get_chat_member GROUP_ID 42;
     ban_chat_member GROUP_ID 42; get_me;
     send_message GROUP_ID
       (RemovedNameViolation (lit "big mac") (Some (lit "gns_bot")))].
Proof. vm_compute. by repeat split. Qed.

(** ** Joining with an approved rejoin: where C3 fails *)


(** A join event that lists another joiner first: user 8 has a valid
    name and the platform refuses the welcome; the reply is outside any
    [try], so the handler raises before it reaches user 7, whose record
    stays.  C3 (amended) speaks of the events that list one joiner. *)
Lemma refused_welcome_stops_the_gate :
  let update :=
    {| effective_chat_type := supergroup; effective_chat_id := GROUP_ID;
       effective_user := Some john_7; text := None; command := None;
       new_chat_members := [student 8 "Ada IFT 202311038308"; john_7] |} in
  let join := @handle_new_member basic_latin unreachable update 1000 in
  result join (approved_7 ∅) = Raised /\
  approved_rejoins (after join (approved_7 ∅)) !! 7 = Some approval_of_7 /\
  map fst (calls (after join (approved_7 ∅))) =
    [get_chat_member GROUP_ID 8;
     reply_text (Welcome (lit "Ada IFT 202311038308"))].
Proof. vm_compute. by repeat split. Qed.

(** ** Observing an unchanged, invalid name (C6) *)

(** C6 (the code departs from it): user 42 is registered as "big mac",
    an invalid name, and has no Pending Correction.  Observing the same
    name again should yield [Unchanged]: the docstring of
    [detect_name_change] says "False otherwise" and the branch ends in
    [return False].  Before that, the branch calls
    [warn_and_schedule_removal] on [context._bot.get_chat(GROUP_ID)];
    the context has no attribute [_bot], so the observation raises.  So
    does [handle_message] for a message of that user: nothing is sent
    and no Pending Correction is recorded, the user is never warned. *)
Theorem unchanged_unwarned_name_raises :
  let P := obliging "big mac" in
  let observe := @detect_name_change basic_latin P 42 (lit "big mac") in
  let handle :=
    @handle_message basic_latin P
      (group_message (student 42 "big mac") "hello") 1000 in
  @non_exempt P unwarned_42 42 /\
  member_name_tracker unwarned_42 !! 42 = Some (lit "big mac") /\
  pending_corrections unwarned_42 !! 42 = None /\
  @validate_name basic_latin (MODE unwarned_42) (lit "big mac") = false /\
  result observe unwarned_42 = Raised /\
  map fst (calls (after observe unwarned_42)) = [get_chat_member GROUP_ID 42] /\
  result handle unwarned_42 = Raised /\
  pending_corrections (after handle unwarned_42) !! 42 = None /\
  map fst (calls (after handle unwarned_42)) =
    [get_chat_member GROUP_ID 42; get_chat_member GROUP_ID 42].
Proof. vm_compute. by repeat split. Qed.


(** ** Observing a name (C7) *)

Ltac log_suffix :=
  simpl; rewrite <- ?app_assoc; rewrite drop_app_length; simpl.

(** Run [detect_name_change] along the branch of a corrected name. *)
Ltac evaluate_correction Hne Htr Hchg Hvalid Hpend :=
  rewrite run_bind, (non_exempt_run _ _ Hne); run; simpl;
  rewrite Htr; rewrite bool_decide_eq_false_2 by done; run; simpl;
  rewrite Hvalid; run; simpl; rewrite Hpend;
  unfold delete_warning, cancel_removal_jobs, schedule_message_deletion;
  run; simpl;
  repeat (by_answer; run; simpl).

(** Cancelling the removal jobs of a member, and running a job. *)

Lemma cancel_removes user_id (q : list Job) chat_id when :
  remove_user_job chat_id user_id when
  ∉ List.filter (fun j => negb (is_removal_of user_id j)) q.
Proof.
  intros Hin. apply list_elem_of_In, filter_In in Hin as [_ Hj].
  simpl in Hj. by rewrite bool_decide_eq_true_2 in Hj.
Qed.

Lemma cancel_keeps user_id (q : list Job) j :
  j ∈ q ->
  (forall chat_id when, j <> remove_user_job chat_id user_id when) ->
  j ∈ List.filter (fun j => negb (is_removal_of user_id j)) q.
Proof.
  intros Hin Hj. apply list_elem_of_In, filter_In.
  split; [by apply list_elem_of_In|].
  destruct j as [m d|g u d]; simpl; [done|].
  apply negb_true_iff, bool_decide_eq_false_2. intros ->. by apply (Hj g d).
Qed.

Section RunJob.
Context `{Unicode} `{Platform}.

Lemma run_job_bans_its_own user_id j :
  (forall chat_id when, j <> remove_user_job chat_id user_id when) ->
  only_calls (fun c => is_ban_of user_id c = false) (run_job j).
Proof.
  intros Hj. destruct j as [m d|g u d]; simpl.
  - unfold delete_specific_message. repeat only_step; done.
  - assert (is_ban_of user_id (ban_chat_member g u) = false) as Hban.
    { simpl. apply bool_decide_eq_false_2. intros ->. by apply (Hj g d). }
    unfold remove_user_if_not_corrected, is_lecturer_or_admin.
    repeat only_step; done.
Qed.
End RunJob.

Section Observe.
Context `{Unicode} `{Platform} `{InsertionOrder}.

(** Where the code does what C6 says: for a non-exempt identity known
    to the registry, observing the stored name again, when that name is
    valid or the identity already has a Pending Correction, yields
    [Unchanged] (the result [False]); no registry entry is modified, no
    Pending Correction is created or deleted, no job is scheduled or
    cancelled, and nothing is sent: the only call is the membership
    query of the exemption test. *)
Theorem unchanged_name_is_unchanged user_id current_name w :
  non_exempt w user_id ->
  member_name_tracker w !! user_id = Some current_name ->
  validate_name (MODE w) current_name = true \/
    is_Some (pending_corrections w !! user_id) ->
  let w' := after (detect_name_change user_id current_name) w in
  result (detect_name_change user_id current_name) w = Ok false /\
  member_name_tracker w' = member_name_tracker w /\
  pending_corrections w' = pending_corrections w /\
  warning_messages w' = warning_messages w /\
  job_queue w' = job_queue w /\
  map fst (issued (detect_name_change user_id current_name) w) =
    [get_chat_member GROUP_ID user_id].
Proof.
  intros Hne Htr Hok. unfold issued, result, after, detect_name_change.
  rewrite run_bind, (non_exempt_run _ _ Hne). run. simpl.
  rewrite Htr. rewrite bool_decide_eq_true_2 by done. run. simpl.
  assert (negb (validate_name (MODE w) current_name)
          && bool_decide (pending_corrections w !! user_id = None) = false)
    as ->.
  { destruct Hok as [-> | [p ->]]; [done|].
    rewrite bool_decide_eq_false_2 by done. apply andb_false_r. }
  run. simpl. repeat split; try done. by rewrite drop_app_length.
Qed.

(** C7: a non-exempt member with a Pending Correction whose observed
    name differs from the registered one and is valid.  Whatever the
    platform answers and whatever the time, the observation deletes the
    Pending Correction and cancels the scheduled removal: no job
    [remove_user_job _ user_id _], the job a warning queues for the
    member, is left in the queue, and every other job stays.  It issues
    exactly three calls: the membership query of the exemption test,
    the deletion of the warning message, and one correction
    acknowledgement; it issues no ban.  The registry holds the new name.
    When the platform accepts the acknowledgement the outcome is
    [False] (corrected, nothing to warn about).  Afterwards the member
    is not banned for the violation: no job left in the queue bans the
    member when it runs, and no run of the deadline sweep, at any time,
    does. *)
Theorem correction_by_name_change user_id current_name previous_name info w :
  non_exempt w user_id ->
  member_name_tracker w !! user_id = Some previous_name ->
  previous_name <> current_name ->
  validate_name (MODE w) current_name = true ->
  pending_corrections w !! user_id = Some info ->
  let observe := detect_name_change user_id current_name in
  let w' := after observe w in
  pending_corrections w' !! user_id = None /\
  (forall chat_id when, remove_user_job chat_id user_id when ∉ job_queue w') /\
  (forall j, j ∈ job_queue w ->
     (forall chat_id when, j <> remove_user_job chat_id user_id when) ->
     j ∈ job_queue w') /\
  map fst (issued observe w) =
    [get_chat_member GROUP_ID user_id;
     delete_message GROUP_ID (warning_msg_id info);
     send_message GROUP_ID (NameCorrected current_name)] /\
  member_name_tracker w' !! user_id = Some current_name /\
  ((exists i, (send_message GROUP_ID (NameCorrected current_name), Sent i)
              ∈ issued observe w) ->
   result observe w = Ok false) /\
  (forall j w2, j ∈ job_queue w' ->
     Forall (fun e => is_ban_of user_id (fst e) = false)
       (issued (run_job j) w2)) /\
  (forall t, Forall (fun e => is_ban_of user_id (fst e) = false)
               (issued (check_pending_removals t) w')).
Proof.
  intros Hne Htr Hchg Hvalid Hpend observe w'.
  assert (pending_corrections w' !! user_id = None) as Hgone.
  { subst w' observe. unfold after, detect_name_change.
    evaluate_correction Hne Htr Hchg Hvalid Hpend.
    all: apply lookup_delete_eq. }
  assert (exists scheduled,
            job_queue w' =
              List.filter (fun j => negb (is_removal_of user_id j)) (job_queue w)
              ++ scheduled /\
            Forall (fun j => forall chat_id when,
                               j <> remove_user_job chat_id user_id when)
              scheduled)
    as (scheduled & Hqueue & Hscheduled).
  { subst w' observe. unfold after, detect_name_change.
    evaluate_correction Hne Htr Hchg Hvalid Hpend.
    all: first [ by exists []; rewrite app_nil_r
               | eexists [_]; split; [reflexivity | by repeat constructor] ]. }
  assert (forall chat_id when, remove_user_job chat_id user_id when ∉ job_queue w')
    as Hcancelled.
  { intros chat_id when. rewrite Hqueue, elem_of_app. intros [Hin|Hin].
    - by apply cancel_removes in Hin.
    - by apply (proj1 (Forall_forall _ _) Hscheduled _ Hin chat_id when). }
  split; [done|]. split; [done|]. split.
  { intros j Hin Hj. rewrite Hqueue, elem_of_app. left. by apply cancel_keeps. }
  split_and!.
  4: { intros j w2 Hin.
       apply (only_calls_issued (fun c => is_ban_of user_id c = false)).
       apply run_job_bans_its_own. intros chat_id when ->.
       by apply (Hcancelled chat_id when). }
  4: { intros t. by apply check_pending_removals_spares. }
  all: clear Hgone Hqueue Hscheduled Hcancelled; subst w' observe.
  all: unfold issued, result, after, detect_name_change.
  all: evaluate_correction Hne Htr Hchg Hvalid Hpend.
  all: try apply lookup_insert_eq.
  all: try (rewrite <- ?app_assoc; rewrite drop_app_length; reflexivity).
  all: try done.
  all: rewrite <- ?app_assoc in *; rewrite drop_app_length; simpl in *.
  all: intros (i & Hin); exfalso.
  all: repeat (apply elem_of_cons in Hin as [Hin|Hin]; [congruence|]).
  all: by apply elem_of_nil in Hin.
Qed.
End Observe.

(** ** Joining with an approved rejoin (C3) *)

(** Run [handle_new_member] for a single non-exempt member holding an
    approval. *)
Ltac evaluate_join Hchat Hnew Hne Hbot Happ :=
  unfold handle_new_member; rewrite Hchat, Hnew;
  rewrite bool_decide_eq_false_2 by (by intros ?);
  unfold for_each, admit_member;
  rewrite run_bind, run_bind, (non_exempt_run _ _ Hne); run; simpl;
  rewrite (bool_decide_eq_false_2 _ Hbot); run; simpl; rewrite Happ.

Ltac no_such_entry Hin :=
  exfalso;
  repeat (apply elem_of_cons in Hin as [Hin|Hin]; [congruence|]);
  by apply elem_of_nil in Hin.

Section Join.
Context `{Unicode} `{Platform}.

End Join.

(** ** Private rejoin requests (C4, C9, C10) *)

Section Requests.
Context `{Unicode} `{Platform}.

Lemma handle_private_message_non_exempt update u now w :
  effective_user update = Some u ->
  non_exempt w (u_id u) ->
  handle_private_message update now w
  = rejoin_request u now (logged (get_chat_member GROUP_ID (u_id u)) w).
Proof.
  intros Hu Hne. unfold handle_private_message, the_user. rewrite Hu.
  rewrite run_bind, run_ret. cbn beta iota.
  by rewrite run_bind, (non_exempt_run _ _ Hne).
Qed.

(** An exempt sender, or an update without a sender, leaves the counters
    alone. *)
Lemma handle_private_message_exempt update now w :
  (forall u, effective_user update = Some u -> ~ non_exempt w (u_id u)) ->
  rejoin_attempts (after (handle_private_message update now) w)
  = rejoin_attempts w.
Proof.
  intros Hex. unfold after, handle_private_message, the_user.
  destruct (effective_user update) as [u|]; [|done].
  specialize (Hex u eq_refl). rewrite run_bind, run_ret. cbn beta iota.
  rewrite run_bind.
  pose proof (use_preserves rejoin_attempts
                (is_lecturer_or_admin (u_id u) GROUP_ID) w ltac:(frame)) as Hw.
  unfold non_exempt, result in Hex. unfold after in Hw.
  destruct (is_lecturer_or_admin (u_id u) GROUP_ID w) as [[[|]|] w1];
    simpl in *; try done.
  rewrite <- Hw.
  apply (use_preserves rejoin_attempts
           (if startswith (lit "/") (default [] (text update))
            then mret tt else bot_send (reply_text HelloAdmin) ≫= fun _ => mret tt)).
  frame.
Qed.

Lemma counter_of_bounded w user_id :
  attempts_bounded w -> attempts (counter_of w user_id) <= REJOIN_ATTEMPTS_LIMIT.
Proof.
  intros Hb. unfold counter_of.
  destruct (rejoin_attempts w !! user_id) as [d|] eqn:Hd; simpl.
  - by apply (Hb user_id).
  - done.
Qed.

Lemma counter_found u w :
  rejoin_attempts
    (upd_rejoin_attempts
       (fun d => match d !! u_id u with
                 | Some _ => d
                 | None => <[u_id u:=fresh_attempts]> d
                 end) w) !! u_id u
  = Some (counter_of w (u_id u)).
Proof.
  unfold counter_of. simpl.
  destruct (rejoin_attempts w !! u_id u) as [d|] eqn:Hd; simpl; [done|].
  apply lookup_insert_eq.
Qed.

(** The two rejections: nothing is approved, no link is issued, and the
    only reply is the rejection. *)
Lemma handle_private_message_rejected update u now w :
  effective_user update = Some u ->
  non_exempt w (u_id u) ->
  let d := counter_of w (u_id u) in
  let handle := handle_private_message update now in
  is_Some (cooldown_left d now) \/ REJOIN_ATTEMPTS_LIMIT <= attempts d ->
  approved_rejoins (after handle w) = approved_rejoins w /\
  active_invite_links (after handle w) = active_invite_links w /\
  exists text,
    map fst (issued handle w) =
      [get_chat_member GROUP_ID (u_id u); reply_text text] /\
    (text = MaximumAttemptsReached \/
     exists minutes, text = CooldownActive minutes).
Proof.
  intros Hu Hne d handle Hrej. subst handle. unfold issued, after.
  rewrite (handle_private_message_non_exempt _ _ _ _ Hu Hne).
  unfold rejoin_request. run. unfold getitem.
  rewrite counter_found. run.
  change (counter_of (logged _ w) (u_id u)) with d.
  destruct (cooldown_left d now) as [minutes|] eqn:Hcool.
  - run. simpl. by_answer; run; simpl.
    all: split_and!; try done.
    all: exists (CooldownActive minutes).
    all: rewrite <- ?app_assoc; rewrite drop_app_length.
    all: split; [done | right; by eexists].
  - destruct Hrej as [[? [=]]|Hlim].
    rewrite (proj2 (Z.leb_le _ _) Hlim). run. simpl. by_answer; run; simpl.
    all: split_and!; try done.
    all: exists MaximumAttemptsReached.
    all: rewrite <- ?app_assoc; rewrite drop_app_length.
    all: split; [done | by left].
Qed.

Lemma handle_private_message_counters update u now w :
  effective_user update = Some u ->
  non_exempt w (u_id u) ->
  let d := counter_of w (u_id u) in
  rejoin_attempts (after (handle_private_message update now) w) =
  <[u_id u :=
      match cooldown_left d now with
      | Some _ => d
      | None => if REJOIN_ATTEMPTS_LIMIT <=? attempts d then d
                else counted d now
      end]> (rejoin_attempts w).
Proof.
  intros Hu Hne d. unfold after.
  rewrite (handle_private_message_non_exempt _ _ _ _ Hu Hne).
  apply (rejoin_request_counters u now
           (logged (get_chat_member GROUP_ID (u_id u)) w)).
Qed.

(** C4: every private request preserves [attempts <= ATTEMPT_LIMIT] on
    all counters.  For a non-exempt sender: a request that arrives less
    than [REJOIN_COOLDOWN] after the last attempt, and a request that
    finds [attempts >= REJOIN_ATTEMPTS_LIMIT], leave the sender's counter
    as it was, approve nothing, issue no link and answer with the
    rejection only; a request that passes both checks adds exactly one
    to [attempts] and sets [last_attempt] to the time of the request.
    The counters of other identities never change. *)
Theorem attempt_counter_invariant update now w :
  attempts_bounded w ->
  let handle := handle_private_message update now in
  let w' := after handle w in
  attempts_bounded w' /\
  forall u, effective_user update = Some u -> non_exempt w (u_id u) ->
    let d := counter_of w (u_id u) in
    let rejected :=
      rejoin_attempts w' !! u_id u = Some d /\
      approved_rejoins w' = approved_rejoins w /\
      active_invite_links w' = active_invite_links w /\
      exists text,
        map fst (issued handle w) =
          [get_chat_member GROUP_ID (u_id u); reply_text text] /\
        (text = MaximumAttemptsReached \/
         exists minutes, text = CooldownActive minutes) in
    (forall last, last_attempt d = Some last ->
                  now - last < seconds REJOIN_COOLDOWN -> rejected) /\
    (REJOIN_ATTEMPTS_LIMIT <= attempts d -> rejected) /\
    ((forall last, last_attempt d = Some last ->
                   seconds REJOIN_COOLDOWN <= now - last) ->
     attempts d < REJOIN_ATTEMPTS_LIMIT ->
     rejoin_attempts w' !! u_id u =
       Some {| attempts := attempts d + 1; last_attempt := Some now |}) /\
    (forall other, other <> u_id u ->
                   rejoin_attempts w' !! other = rejoin_attempts w !! other).
Proof.
  intros Hb handle w'. subst handle w'. split.
  - unfold attempts_bounded.
    destruct (effective_user update) as [u|] eqn:Hu.
    2: { rewrite handle_private_message_exempt; [done|]. intros u. by rewrite Hu. }
    destruct (is_lecturer_or_admin_total (u_id u) GROUP_ID w) as [[|] Hex].
    { rewrite handle_private_message_exempt; [done|].
      intros u' Hu'. rewrite Hu in Hu'. injection Hu' as <-.
      unfold non_exempt. by rewrite Hex. }
    rewrite (handle_private_message_counters _ _ _ _ Hu Hex).
    pose proof (counter_of_bounded w (u_id u) Hb) as Hd.
    intros v d'. destruct (decide (v = u_id u)) as [->|Hv].
    + rewrite lookup_insert_eq. intros [= <-].
      destruct (cooldown_left _ _); [done|].
      destruct (Z.leb_spec REJOIN_ATTEMPTS_LIMIT
                  (attempts (counter_of w (u_id u)))); [done|].
      simpl. lia.
    + rewrite lookup_insert_ne by done. apply Hb.
  - intros u Hu Hne d rejected.
    pose proof (handle_private_message_counters _ _ now _ Hu Hne) as Hc.
    simpl in Hc. fold d in Hc.
    assert (is_Some (cooldown_left d now) \/
            REJOIN_ATTEMPTS_LIMIT <= attempts d -> rejected) as Hrej.
    { intros Hr. subst rejected. split.
      - rewrite Hc, lookup_insert_eq. destruct Hr as [[m ->]|Hlim]; [done|].
        destruct (cooldown_left d now); [done|].
        by rewrite (proj2 (Z.leb_le _ _) Hlim).
      - by apply handle_private_message_rejected. }
    split_and!.
    + intros last Hlast Hnear. apply Hrej. left. unfold cooldown_left.
      rewrite Hlast. by rewrite (proj2 (Z.ltb_lt _ _) Hnear).
    + intros Hlim. apply Hrej. by right.
    + intros Hfar Hlim. rewrite Hc, lookup_insert_eq.
      assert (cooldown_left d now = None) as ->.
      { unfold cooldown_left. destruct (last_attempt d) as [last|]; [|done].
        specialize (Hfar last eq_refl).
        by rewrite (proj2 (Z.ltb_ge _ _) Hfar). }
      by rewrite (proj2 (Z.leb_gt _ _) Hlim).
    + intros other Hother. rewrite Hc. by rewrite lookup_insert_ne.
Qed.

(** C9: a non-exempt sender whose request passes the cooldown and
    the limit checks and whose name is valid, while the platform refuses
    to create the invite link.  The failed call is in the log, and the
    counter keeps the increment: [attempts] is one more than before
    and [last_attempt] is the time of the request, so the failure
    used up an attempt and started the cooldown: any request less than
    [REJOIN_COOLDOWN] later finds the cooldown active. *)
Theorem failed_link_still_counts update u now w :
  effective_user update = Some u ->
  non_exempt w (u_id u) ->
  let d := counter_of w (u_id u) in
  let handle := handle_private_message update now in
  let create :=
    create_chat_invite_link GROUP_ID (now + seconds INVITE_LINK_DURATION)
      INVITE_LINK_USES (u_id u) in
  cooldown_left d now = None ->
  attempts d < REJOIN_ATTEMPTS_LIMIT ->
  validate_name (MODE w) (full_name u) = true ->
  answer (S (length (calls w))) create = Raises ->
  (create, Raises) ∈ issued handle w /\
  rejoin_attempts (after handle w) !! u_id u =
    Some {| attempts := attempts d + 1; last_attempt := Some now |} /\
  (forall later, later - now < seconds REJOIN_COOLDOWN ->
     is_Some (cooldown_left
                {| attempts := attempts d + 1; last_attempt := Some now |}
                later)).
Proof.
  intros Hu Hne d handle create Hcool Hlim Hvalid Hfail. split_and!.
  - subst handle. unfold issued, after.
    rewrite (handle_private_message_non_exempt _ _ _ _ Hu Hne).
    unfold rejoin_request. run. unfold getitem.
    rewrite counter_found. run.
    change (counter_of (logged _ w) (u_id u)) with d.
    rewrite Hcool, (proj2 (Z.leb_gt _ _) Hlim). run. simpl.
    rewrite Hvalid. unfold count_attempt, create_invite_link. run. simpl.
    assert (length (calls w ++
              [(get_chat_member GROUP_ID (u_id u),
                answer (length (calls w)) (get_chat_member GROUP_ID (u_id u)))])
            = S (length (calls w))) as Hlen.
    { rewrite length_app. simpl. lia. }
    destruct (active_invite_links w !! u_id u) as [old|]; run; simpl.
    1: destruct (_ <? _); run; simpl.
    all: rewrite Hlen; fold create; rewrite Hfail; run; simpl.
    all: repeat (by_answer; run; simpl).
    all: rewrite <- ?app_assoc; rewrite drop_app_length; simpl.
    all: apply elem_of_cons; right.
    all: rewrite Hlen; fold create; rewrite Hfail; apply list_elem_of_here.
  - pose proof (handle_private_message_counters _ _ now _ Hu Hne) as Hc.
    simpl in Hc. fold d in Hc. subst handle.
    rewrite Hc, lookup_insert_eq, Hcool.
    by rewrite (proj2 (Z.leb_gt _ _) Hlim).
  - intros later Hnear. unfold cooldown_left. simpl.
    by rewrite (proj2 (Z.ltb_lt _ _) Hnear).
Qed.

(** C10: a private message that is not a command is routed to
    [handle_private_message]; from a non-exempt sender it is processed
    as a rejoin request.  First the cooldown: a request less than
    [REJOIN_COOLDOWN] after the sender's last attempt is answered with
    the minutes left and changes neither the counter nor the approvals
    nor the links.  Then the limit: past the cooldown, a sender with
    [REJOIN_ATTEMPTS_LIMIT] attempts or more is answered that the
    attempts are used up, and again nothing changes.  Otherwise the
    attempt is counted: one more attempt, made now.  The handler never
    looks at the member registry or at the pending corrections (they can
    be replaced by any others without changing its outcome, its calls or
    what it does to the other stores), so it does not matter whether the
    sender is or ever was a member, or was ever removed. *)
Theorem private_message_is_rejoin_request update u now w tracker pending :
  effective_chat_type update = private ->
  command update = None ->
  new_chat_members update = [] ->
  effective_user update = Some u ->
  non_exempt w (u_id u) ->
  let d := counter_of w (u_id u) in
  let handle := handle_private_message update now in
  let w' := after handle w in
  let query := get_chat_member GROUP_ID (u_id u) in
  route update = Some private_message_handler /\
  (forall last, last_attempt d = Some last ->
                now - last < seconds REJOIN_COOLDOWN ->
     rejoin_attempts w' !! u_id u = Some d /\
     approved_rejoins w' = approved_rejoins w /\
     active_invite_links w' = active_invite_links w /\
     map fst (issued handle w) =
       [query;
        reply_text
          (CooldownActive
             ((seconds REJOIN_COOLDOWN - (now - last)) / seconds 60))]) /\
  ((forall last, last_attempt d = Some last ->
                 seconds REJOIN_COOLDOWN <= now - last) ->
   REJOIN_ATTEMPTS_LIMIT <= attempts d ->
     rejoin_attempts w' !! u_id u = Some d /\
     approved_rejoins w' = approved_rejoins w /\
     active_invite_links w' = active_invite_links w /\
     map fst (issued handle w) = [query; reply_text MaximumAttemptsReached]) /\
  ((forall last, last_attempt d = Some last ->
                 seconds REJOIN_COOLDOWN <= now - last) ->
   attempts d < REJOIN_ATTEMPTS_LIMIT ->
     rejoin_attempts w' !! u_id u =
       Some {| attempts := attempts d + 1; last_attempt := Some now |}) /\
  handle (with_group_state tracker pending w)
    = (result handle w, with_group_state tracker pending w').
Proof.
  intros Hprivate Hcmd Hnew Hu Hne d handle w' query.
  pose proof (handle_private_message_counters _ _ now _ Hu Hne) as Hc.
  simpl in Hc. fold d handle w' in Hc.
  assert (forall last, last_attempt d = Some last ->
            now - last < seconds REJOIN_COOLDOWN ->
            cooldown_left d now =
              Some ((seconds REJOIN_COOLDOWN - (now - last)) / seconds 60))
    as Hnear.
  { intros last Hlast Hlt. unfold cooldown_left. rewrite Hlast.
    by rewrite (proj2 (Z.ltb_lt _ _) Hlt). }
  assert ((forall last, last_attempt d = Some last ->
             seconds REJOIN_COOLDOWN <= now - last) ->
          cooldown_left d now = None) as Hfar.
  { intros Hge. unfold cooldown_left.
    destruct (last_attempt d) as [last|]; [|done].
    by rewrite (proj2 (Z.ltb_ge _ _) (Hge last eq_refl)). }
  split_and!.
  - unfold route. by rewrite Hcmd, Hnew, Hprivate.
  - intros last Hlast Hlt. specialize (Hnear last Hlast Hlt).
    split; [by rewrite Hc, lookup_insert_eq, Hnear|].
    subst w' handle query. unfold issued, after.
    rewrite (handle_private_message_non_exempt _ _ _ _ Hu Hne).
    unfold rejoin_request. run. unfold getitem.
    rewrite counter_found. run.
    change (counter_of (logged _ w) (u_id u)) with d.
    rewrite Hnear. run. simpl. by_answer; run; simpl.
    all: split_and!; try done.
    all: by rewrite <- ?app_assoc, drop_app_length.
  - intros Hge Hlim. specialize (Hfar Hge).
    split.
    { rewrite Hc, lookup_insert_eq, Hfar.
      by rewrite (proj2 (Z.leb_le _ _) Hlim). }
    subst w' handle query. unfold issued, after.
    rewrite (handle_private_message_non_exempt _ _ _ _ Hu Hne).
    unfold rejoin_request. run. unfold getitem.
    rewrite counter_found. run.
    change (counter_of (logged _ w) (u_id u)) with d.
    rewrite Hfar, (proj2 (Z.leb_le _ _) Hlim). run. simpl.
    by_answer; run; simpl.
    all: split_and!; try done.
    all: by rewrite <- ?app_assoc, drop_app_length.
  - intros Hge Hlim. rewrite Hc, lookup_insert_eq, (Hfar Hge).
    by rewrite (proj2 (Z.leb_gt _ _) Hlim).
  - apply handle_private_message_oblivious.
Qed.
End Requests.

(** ** The name validator (C5) *)

(** Names written in ASCII do not consult the Unicode tables. *)
Lemma validate_name_examples `{Unicode} :
  validate_name pre_matric (lit "Tope Chinedu Garba IFT 202311038308") = true /\
  validate_name pre_matric (lit "Tope Chinedu") = false /\
  validate_name post_matric (lit "ABC/23/4567") = true /\
  validate_name post_matric (lit "Abdul ABC/23/4567") = true /\
  validate_name post_matric (lit "APC/23/21457") = false.
Proof. repeat split; vm_compute; reflexivity. Qed.

(** C5, as stated, fails: a name whose tokens are two spaces apart is not
    of the pattern the claim words (single spaces), yet the validator
    accepts it. *)
Lemma validate_name_accepts_wide_spacing :
  @validate_name basic_latin pre_matric (lit "Tope  IFT 202311038308") = true /\
  spec_pattern pre_matric (lit "Tope  IFT 202311038308") = false.
Proof. split; vm_compute; reflexivity. Qed.

(** C5 (amended): the validator returns true exactly for the names that,
    up to one final line feed, have the shape of the active mode, where
    the tokens are separated by runs of one or more whitespace
    characters and a digit is any decimal digit: in [pre_matric] mode one
    or more capitalized words, whitespace, an all-uppercase token,
    whitespace and exactly 12 digits; in [post_matric] mode an optional
    prefix of capitalized words and whitespace, then 2 to 4 uppercase
    letters, a slash, 2 digits, a slash and 4 digits.  The examples of
    the specification come out as it says. *)
Theorem validate_name_exactly_the_shape `{Unicode} :
  (forall m s,
     validate_name m s = true <-> up_to_final_newline (mode_shape m) s) /\
  validate_name pre_matric (lit "Tope Chinedu Garba IFT 202311038308") = true /\
  validate_name pre_matric (lit "Tope Chinedu") = false /\
  validate_name post_matric (lit "ABC/23/4567") = true /\
  validate_name post_matric (lit "Abdul ABC/23/4567") = true /\
  validate_name post_matric (lit "APC/23/21457") = false.
Proof. split; [apply validate_name_shape | apply validate_name_examples]. Qed.

(** ** The theorems at concrete inputs *)


Lemma attempt_counter_invariant_witness :
  attempts_bounded no_stores /\
  attempts_bounded
    (after (@handle_private_message basic_latin (obliging "big mac")
              (private_message (student 42 "big mac") "hello") 1000)
       no_stores).
Proof.
  assert (attempts_bounded no_stores) as Hb.
  { intros user_id d. simpl. rewrite lookup_empty. discriminate. }
  split; [exact Hb|].
  exact (proj1 (@attempt_counter_invariant basic_latin (obliging "big mac")
                  (private_message (student 42 "big mac") "hello") 1000
                  no_stores Hb)).
Defined.

Lemma unchanged_name_is_unchanged_witness :
  result (@detect_name_change basic_latin (obliging "big mac") 42 (lit "big mac"))
    warned_42 = Ok false.
Proof.
  destruct (@unchanged_name_is_unchanged basic_latin (obliging "big mac") 42
              (lit "big mac") warned_42) as [W _].
  - vm_compute. reflexivity.
  - vm_compute. reflexivity.
  - right. vm_compute. eexists. reflexivity.
  - exact W.
Defined.

Lemma correction_by_name_change_witness :
  let w' :=
    after (@detect_name_change basic_latin (obliging "Big Mac ABC 202311038308")
             42 (lit "Big Mac ABC 202311038308"))
      warned_42 in
  (remove_user_job GROUP_ID 42 NAME_CORRECTION_TIME ∈ job_queue warned_42) /\
  (remove_user_job GROUP_ID 42 NAME_CORRECTION_TIME ∉ job_queue w') /\
  pending_corrections w' !! 42 = None.
Proof.
  destruct (@correction_by_name_change basic_latin
              (obliging "Big Mac ABC 202311038308") by_key 42
              (lit "Big Mac ABC 202311038308") (lit "big mac") warning_of_42
              warned_42) as (W1 & W2 & _).
  - vm_compute. reflexivity.
  - vm_compute. reflexivity.
  - vm_compute. discriminate.
  - vm_compute. reflexivity.
  - vm_compute. reflexivity.
  - split; [|split].
    + apply list_elem_of_further, list_elem_of_here.
    + apply W2.
    + exact W1.
Defined.

Lemma failed_link_still_counts_witness :
  rejoin_attempts
    (after (@handle_private_message basic_latin (no_invites "John IFT 202311038308")
              (private_message (student 42 "John IFT 202311038308") "hello") 1000)
       no_stores) !! 42
  = Some {| attempts := 1; last_attempt := Some 1000 |}.
Proof.
  destruct (@failed_link_still_counts basic_latin
              (no_invites "John IFT 202311038308")
              (private_message (student 42 "John IFT 202311038308") "hello")
              (student 42 "John IFT 202311038308") 1000 no_stores)
    as (_ & W & _).
  - reflexivity.
  - vm_compute. reflexivity.
  - vm_compute. reflexivity.
  - vm_compute. reflexivity.
  - vm_compute. reflexivity.
  - vm_compute. reflexivity.
  - exact W.
Defined.

Lemma private_message_is_rejoin_request_witness :
  let handle :=
    @handle_private_message basic_latin (obliging "John IFT 202311038308")
      (private_message john_7 "hello") 1000 in
  route (private_message john_7 "hello") = Some private_message_handler /\
  rejoin_attempts (after handle (approved_7 ∅)) !! 7
  = Some {| attempts := 1; last_attempt := Some 0 |} /\
  map fst (issued handle (approved_7 ∅)) =
    [get_chat_member GROUP_ID 7; reply_text (CooldownActive 29)].
Proof.
  destruct (@private_message_is_rejoin_request basic_latin
              (obliging "John IFT 202311038308")
              (private_message john_7 "hello") john_7 1000 (approved_7 ∅)
              ∅ ∅) as (W1 & W2 & _).
  - reflexivity.
  - reflexivity.
  - reflexivity.
  - reflexivity.
  - vm_compute. reflexivity.
  - destruct (W2 0) as (W3 & _ & _ & W4).
    + vm_compute. reflexivity.
    + vm_compute. reflexivity.
    + split; [exact W1|]. split; [exact W3 | exact W4].
Defined.

(* ================================================================== *)
(** * Further properties of the code *)
(* ================================================================== *)

(** ** Invite links *)

Section Links.
Context `{Platform}.

(** When the platform returns a link, [create_invite_link] returns it
    and records it as unused, created at [now] and expiring
    [INVITE_LINK_DURATION] later, in place of whatever record the identity
    had; the records of other identities and the other stores are left
    alone. *)
Theorem create_invite_link_records_link user_id name now l w :
  answer (length (calls w))
    (create_chat_invite_link GROUP_ID (now + seconds INVITE_LINK_DURATION)
       INVITE_LINK_USES user_id) = Invite l ->
  let w' := after (create_invite_link user_id name now) w in
  result (create_invite_link user_id name now) w = Ok (Some l) /\
  active_invite_links w' =
    <[user_id := {| link := l; created_at := now; used := false;
                    expires_at := now + seconds INVITE_LINK_DURATION |}]>
      (active_invite_links w) /\
  approved_rejoins w' = approved_rejoins w /\
  rejoin_attempts w' = rejoin_attempts w /\
  pending_corrections w' = pending_corrections w /\
  member_name_tracker w' = member_name_tracker w /\
  job_queue w' = job_queue w.
Proof.
  intros Hlink. unfold result, after, create_invite_link. run. simpl.
  destruct (active_invite_links w !! user_id) as [old|]; run; simpl.
  1: destruct (_ <? _); run; simpl.
  all: rewrite Hlink; run; simpl.
  all: split_and!; try done.
  by rewrite insert_delete_eq.
Qed.

(** When the platform does not return a link, [create_invite_link]
    returns [None] without raising and records nothing: the identity's
    previous record stays, unless it was created more than two hours
    before, in which case it is dropped. *)
Theorem create_invite_link_failure user_id name now w :
  (forall l, answer (length (calls w))
               (create_chat_invite_link GROUP_ID
                  (now + seconds INVITE_LINK_DURATION) INVITE_LINK_USES user_id)
             <> Invite l) ->
  let w' := after (create_invite_link user_id name now) w in
  result (create_invite_link user_id name now) w = Ok None /\
  active_invite_links w' =
    match active_invite_links w !! user_id with
    | Some old =>
        if seconds (2 * 3600) <? now - created_at old
        then delete user_id (active_invite_links w)
        else active_invite_links w
    | None => active_invite_links w
    end /\
  approved_rejoins w' = approved_rejoins w /\
  rejoin_attempts w' = rejoin_attempts w.
Proof.
  intros Hfail. unfold result, after, create_invite_link. run. simpl.
  destruct (active_invite_links w !! user_id) as [old|]; run; simpl.
  1: destruct (_ <? _); run; simpl.
  all: by_answer; run; simpl; try done.
  all: by destruct (Hfail invite_link).
Qed.

End Links.

(** The status query reports [expired] exactly for a record whose expiry
    is before the query; it then deletes the record, so that every later
    query answers [not_found].  Any other query changes nothing. *)
Theorem check_invite_link_status_expiry user_id t w :
  let query := check_invite_link_status user_id t in
  (result query w = Ok link_expired <->
   exists l, active_invite_links w !! user_id = Some l /\ expires_at l < t) /\
  (result query w = Ok link_expired ->
   forall t', result (check_invite_link_status user_id t') (after query w)
              = Ok link_not_found) /\
  (result query w <> Ok link_expired -> after query w = w).
Proof.
  unfold result, after, check_invite_link_status. run. simpl.
  destruct (active_invite_links w !! user_id) as [l|] eqn:Hl; run; simpl.
  - destruct (Z.ltb_spec (expires_at l) t) as [Hexp|Hlive]; run; simpl.
    + split_and!; [split; eauto | | done].
      intros _ t'. run. simpl. by rewrite lookup_delete_eq.
    + destruct (used l); run; simpl.
      all: split_and!; try done.
      all: split; [done | intros (l' & [= <-] & ?); lia].
  - split_and!; try done. split; [done | by intros (l' & [=] & _)].
Qed.

Section IssuedLink.
Context `{Platform}.

(** A link that was just issued is [active] until its expiry and
    [expired] afterwards. *)
Theorem issued_link_is_active user_id name now l t w :
  answer (length (calls w))
    (create_chat_invite_link GROUP_ID (now + seconds INVITE_LINK_DURATION)
       INVITE_LINK_USES user_id) = Invite l ->
  result (check_invite_link_status user_id t)
    (after (create_invite_link user_id name now) w)
  = Ok (if now + seconds INVITE_LINK_DURATION <? t then link_expired
        else link_active).
Proof.
  intros Hlink. unfold result, after, create_invite_link,
    check_invite_link_status. run. simpl.
  destruct (active_invite_links w !! user_id) as [old|]; run; simpl.
  1: destruct (_ <? _); run; simpl.
  all: rewrite Hlink; run; simpl.
  all: rewrite lookup_insert_eq; simpl.
  all: by destruct (_ <? t).
Qed.
End IssuedLink.

Lemma cleanup_expired_links_lookup now w user_id :
  active_invite_links (after (cleanup_expired_links now) w) !! user_id =
  match active_invite_links w !! user_id with
  | Some l => if expires_at l <? now then None else Some l
  | None => None
  end.
Proof.
  unfold after, cleanup_expired_links.
  rewrite run_bind, run_gets. cbn beta iota. rewrite for_each_delete_links.
  simpl. rewrite lookup_foldl_delete.
  destruct (active_invite_links w !! user_id) as [l|] eqn:Hl.
  - case_bool_decide as Hin.
    + apply elem_of_expired_links in Hin as (l' & Hl' & Hexp).
      assert (l' = l) as -> by congruence.
      by rewrite (proj2 (Z.ltb_lt _ _) Hexp).
    + destruct (Z.ltb_spec (expires_at l) now) as [Hexp|_]; [|done].
      exfalso. apply Hin. apply elem_of_expired_links. eauto.
  - by case_bool_decide.
Qed.

(** After the expiry sweep at [now], no status query at a time up to
    [now] finds an expired record: the sweep has done the lazy cleanup for
    every identity, and the answers to such queries are what they were
    for the records that had not expired. *)
Theorem sweep_leaves_no_expired_link now t user_id w :
  t <= now ->
  let w' := after (cleanup_expired_links now) w in
  result (check_invite_link_status user_id t) w' <> Ok link_expired /\
  (forall l, active_invite_links w !! user_id = Some l -> now <= expires_at l ->
     result (check_invite_link_status user_id t) w'
     = result (check_invite_link_status user_id t) w).
Proof.
  intros Ht w'. subst w'. unfold result, check_invite_link_status.
  rewrite !run_bind, !run_gets. cbn beta iota.
  rewrite cleanup_expired_links_lookup.
  destruct (active_invite_links w !! user_id) as [l|] eqn:Hl.
  - destruct (Z.ltb_spec (expires_at l) now) as [Hexp|Hlive].
    + split; [done|]. intros l' [= <-] ?. lia.
    + rewrite (proj2 (Z.ltb_ge (expires_at l) t)) by lia.
      split; [by destruct (used l) | intros; by destruct (used l)].
  - split; [done|]. by intros l' [=].
Qed.

(** ** Exemption *)

Section Exemption.
Context `{Platform}.

(** An identity found exempt stays exempt, and the next test needs no
    platform call: a lecturer and a cached administrator are recognised
    locally, and an administrator verified with the platform is added to
    the cache. *)
Theorem exemption_is_cached user_id chat_id chat_id' w :
  result (is_lecturer_or_admin user_id chat_id) w = Ok true ->
  let w' := after (is_lecturer_or_admin user_id chat_id) w in
  result (is_lecturer_or_admin user_id chat_id') w' = Ok true /\
  issued (is_lecturer_or_admin user_id chat_id') w' = [].
Proof.
  unfold issued, result, after, is_lecturer_or_admin.
  case_bool_decide; [intros _; simpl; by rewrite drop_all|]. run. simpl.
  case_bool_decide as Hin.
  { intros _. run. simpl. rewrite bool_decide_eq_true_2 by done.
    simpl. by rewrite drop_all. }
  run. simpl. by_answer; run; simpl; try done.
  destruct (is_admin_status _); run; simpl; [|done]. intros _.
  rewrite bool_decide_eq_true_2 by set_solver. simpl. by rewrite drop_all.
Qed.

(** The test writes nothing but the admin cache and the log, and the
    cache only grows, by the tested identity at most. *)
Lemma is_lecturer_or_admin_frame user_id chat_id w :
  let w' := after (is_lecturer_or_admin user_id chat_id) w in
  member_name_tracker w' = member_name_tracker w /\
  pending_corrections w' = pending_corrections w /\
  rejoin_attempts w' = rejoin_attempts w /\
  approved_rejoins w' = approved_rejoins w /\
  active_invite_links w' = active_invite_links w /\
  job_queue w' = job_queue w /\
  (group_admins w' = group_admins w \/
   group_admins w' = {[user_id]} ∪ group_admins w).
Proof.
  unfold after, is_lecturer_or_admin.
  case_bool_decide; [simpl; by auto 10|]. run. simpl.
  case_bool_decide; [simpl; by auto 10|]. run. simpl.
  by_answer; run; simpl; try by auto 10.
  destruct (is_admin_status _); run; simpl; by auto 10.
Qed.
End Exemption.

(** ** Observing a name: the other outcomes *)

Section ObserveMore.
Context `{Unicode} `{Platform}.

(** A non-exempt identity the registry does not know is registered
    under the observed name; the outcome tells whether the name is
    invalid.  No Pending Correction changes and nothing is sent. *)
Theorem new_identity_is_registered user_id current_name w :
  non_exempt w user_id ->
  member_name_tracker w !! user_id = None ->
  let observe := detect_name_change user_id current_name in
  let w' := after observe w in
  result observe w = Ok (negb (validate_name (MODE w) current_name)) /\
  member_name_tracker w' = <[user_id := current_name]> (member_name_tracker w) /\
  pending_corrections w' = pending_corrections w /\
  job_queue w' = job_queue w /\
  map fst (issued observe w) = [get_chat_member GROUP_ID user_id].
Proof.
  intros Hne Hnew. unfold issued, result, after, detect_name_change.
  rewrite run_bind, (non_exempt_run _ _ Hne). run. simpl. rewrite Hnew.
  run. simpl. split_and!; try done. by rewrite drop_app_length.
Qed.

(** A known, non-exempt identity whose name changed to an invalid one:
    the registry takes the new name and the outcome is [True] (the caller
    is to warn); the observation itself sends nothing and leaves the
    Pending Corrections and the jobs as they are. *)
Theorem change_to_invalid_name user_id current_name previous_name w :
  non_exempt w user_id ->
  member_name_tracker w !! user_id = Some previous_name ->
  previous_name <> current_name ->
  validate_name (MODE w) current_name = false ->
  let observe := detect_name_change user_id current_name in
  let w' := after observe w in
  result observe w = Ok true /\
  member_name_tracker w' = <[user_id := current_name]> (member_name_tracker w) /\
  pending_corrections w' = pending_corrections w /\
  job_queue w' = job_queue w /\
  map fst (issued observe w) = [get_chat_member GROUP_ID user_id].
Proof.
  intros Hne Htr Hchg Hbad. unfold issued, result, after, detect_name_change.
  rewrite run_bind, (non_exempt_run _ _ Hne). run. simpl. rewrite Htr.
  rewrite bool_decide_eq_false_2 by done. run. simpl. rewrite Hbad.
  run. simpl. split_and!; try done. by rewrite drop_app_length.
Qed.

(** An exempt identity is not tracked: the outcome is [False], and the
    registry, the Pending Corrections and the jobs are untouched, whatever
    the name. *)
Theorem exempt_identity_is_not_observed user_id current_name w :
  result (is_lecturer_or_admin user_id GROUP_ID) w = Ok true ->
  let observe := detect_name_change user_id current_name in
  let w' := after observe w in
  result observe w = Ok false /\
  member_name_tracker w' = member_name_tracker w /\
  pending_corrections w' = pending_corrections w /\
  job_queue w' = job_queue w /\
  Forall (fun e => fst e = get_chat_member GROUP_ID user_id) (issued observe w).
Proof.
  intros Hex. unfold issued, result, after, detect_name_change in *.
  rewrite run_bind.
  pose proof (is_lecturer_or_admin_frame user_id GROUP_ID w) as Hf.
  unfold after in Hf.
  assert (Forall (fun e => fst e = get_chat_member GROUP_ID user_id)
            (drop (length (calls w))
               (calls (is_lecturer_or_admin user_id GROUP_ID w).2))) as Hq.
  { apply (only_calls_issued (fun c => c = get_chat_member GROUP_ID user_id)
             (is_lecturer_or_admin user_id GROUP_ID) w).
    unfold is_lecturer_or_admin. repeat only_step; done. }
  destruct (is_lecturer_or_admin user_id GROUP_ID w) as [[[|]|] w1];
    simpl in *; try done.
  run. simpl. by destruct Hf as (-> & -> & _ & _ & _ & -> & _).
Qed.
End ObserveMore.

(** ** Warning and resolving *)

(** Run as far as the next case distinction. *)
Ltac go := repeat (progress (run; simpl)).

(** Run to the end, splitting on every answer of the platform and on
    the tests of the code. *)
Ltac crunch :=
  repeat first
    [ progress go
    | by_answer
    | match goal with
      | |- context [match pending_corrections ?w !! ?u with _ => _ end] =>
          destruct (pending_corrections w !! u) eqn:?
      | |- context [negb (validate_name ?m ?n)] =>
          destruct (validate_name m n) eqn:?
      | |- context [if validate_name ?m ?n then _ else _] =>
          destruct (validate_name m n) eqn:?
      | |- context [if is_admin_status ?s then _ else _] =>
          destruct (is_admin_status s) eqn:?
      end ].

Section Warn.
Context `{Unicode} `{Platform}.

(** A warning that the platform delivers: the identity gets a Pending
    Correction whose deadline is [NAME_CORRECTION_TIME] after the warning
    (replacing any earlier one), the warning message is listed for
    cleanup and its deletion is scheduled after [WARNING_DELETE_TIME], and
    one removal job for the identity is added to the queue.  Exactly one
    message is sent. *)
Theorem warning_arms_the_deadline group_id u now i w :
  non_exempt w (u_id u) ->
  let warning :=
    send_message group_id
      (ViolationDetected (username_or_id u) (full_name u) (MODE w)) in
  answer (S (length (calls w))) warning = Sent i ->
  let warn := warn_and_schedule_removal group_id u now in
  let w' := after warn w in
  result warn w = Ok tt /\
  pending_corrections w' =
    <[u_id u := {| warning_msg_id := i; pending_username := username u;
                   pending_display_name := full_name u; warning_time := now;
                   timer_end := now + seconds NAME_CORRECTION_TIME |}]>
      (pending_corrections w) /\
  warning_messages w' = warning_messages w ++ [i] /\
  bot_messages_to_cleanup w' = bot_messages_to_cleanup w ++ [i] /\
  job_queue w' =
    job_queue w ++ [delete_specific_message_job i WARNING_DELETE_TIME;
                    remove_user_job group_id (u_id u) NAME_CORRECTION_TIME] /\
  map fst (issued warn w) = [get_chat_member GROUP_ID (u_id u); warning].
Proof.
  intros Hne warning Hsent warn w'. subst warn w' warning.
  unfold issued, result, after, warn_and_schedule_removal.
  rewrite run_bind, (non_exempt_run _ _ Hne). run. simpl.
  unfold schedule_message_deletion. run. simpl.
  assert (length (calls w ++
            [(get_chat_member GROUP_ID (u_id u),
              answer (length (calls w)) (get_chat_member GROUP_ID (u_id u)))])
          = S (length (calls w))) as -> by (rewrite length_app; simpl; lia).
  rewrite Hsent. run. simpl. split_and!; try done.
  - by rewrite <- app_assoc.
  - rewrite <- app_assoc. by rewrite drop_app_length.
Qed.

(** A warning never raises, and it changes the stores only when its
    message was delivered: for an exempt identity, or when the platform
    refuses the message, no Pending Correction is recorded and no job is
    scheduled. *)
Theorem undelivered_warning_changes_nothing group_id u now w :
  let warn := warn_and_schedule_removal group_id u now in
  let w' := after warn w in
  result warn w = Ok tt /\
  ((forall i, (send_message group_id
                 (ViolationDetected (username_or_id u) (full_name u) (MODE w)),
               Sent i) ∉ issued warn w) ->
   pending_corrections w' = pending_corrections w /\
   job_queue w' = job_queue w /\
   warning_messages w' = warning_messages w /\
   bot_messages_to_cleanup w' = bot_messages_to_cleanup w /\
   member_name_tracker w' = member_name_tracker w).
Proof.
  intros warn w'. subst warn w'.
  unfold issued, result, after, warn_and_schedule_removal, is_lecturer_or_admin.
  rewrite run_bind.
  case_bool_decide; [run; by simpl|]. run. simpl.
  case_bool_decide; [run; by simpl|]. run. simpl.
  unfold schedule_message_deletion.
  by_answer; run; simpl.
  all: try (destruct (is_admin_status _); run; simpl; [done|]).
  all: by_answer; run; simpl.
  all: split; [done|]; try done.
  all: intros Hnot; exfalso; eapply Hnot.
  all: rewrite <- ?app_assoc; rewrite drop_app_length; simpl.
  all: apply elem_of_cons; right.
  all: match goal with
       | Hs : answer _ _ = Sent _ |- _ => rewrite Hs; apply list_elem_of_here
       end.
Qed.
End Warn.

Section Resolve.
Context `{Unicode} `{Platform}.

(** Whatever the platform answers, the deadline resolver does not raise,
    and after it the identity has no Pending Correction; the records of
    other identities are not touched. *)
Theorem resolver_clears_the_record group_id user_id w :
  let resolve := remove_user_if_not_corrected group_id user_id in
  let w' := after resolve w in
  result resolve w = Ok tt /\
  pending_corrections w' !! user_id = None /\
  (forall other, other <> user_id ->
     pending_corrections w' !! other = pending_corrections w !! other).
Proof.
  intros resolve w'. subst resolve w'.
  unfold result, after, remove_user_if_not_corrected, is_lecturer_or_admin.
  rewrite run_bind.
  assert (forall m : gmap Z Pending, delete user_id m !! user_id = None) as Hd
    by (intros m; apply lookup_delete_eq).
  assert (forall (m : gmap Z Pending) other, other <> user_id ->
            delete user_id m !! other = m !! other) as Ho
    by (intros m other Hne; by apply lookup_delete_ne).
  case_bool_decide; [run; simpl; by auto|]. run. simpl.
  case_bool_decide; [run; simpl; by auto|]. run. simpl.
  unfold schedule_message_deletion, delete_warning. crunch.
  all: split_and!; try done.
  all: try (by rewrite ?lookup_delete_eq).
  all: intros other Hother; by rewrite ?lookup_delete_ne by done.
Qed.

(** The resolver bans only on evidence: whenever it issues a ban, the
    platform has just reported the member under a name that is invalid in
    the active mode, and the identity is not exempt.  In particular a
    member whose current name is valid is never banned by it. *)
Theorem resolver_bans_only_invalid_names group_id user_id a w :
  let resolve := remove_user_if_not_corrected group_id user_id in
  (ban_chat_member group_id user_id, a) ∈ issued resolve w ->
  non_exempt w user_id /\
  exists m, (get_chat_member group_id user_id, IsMember m) ∈ issued resolve w /\
            validate_name (MODE w) (full_name (user m)) = false.
Proof.
  intros resolve. subst resolve.
  rewrite non_exempt_iff.
  unfold issued, after, remove_user_if_not_corrected, is_lecturer_or_admin.
  rewrite run_bind.
  case_bool_decide.
  { run. simpl. rewrite drop_all. by intros ?%elem_of_nil. }
  run. simpl.
  case_bool_decide.
  { run. simpl. rewrite drop_all. by intros ?%elem_of_nil. }
  run. simpl.
  unfold schedule_message_deletion, delete_warning. crunch.
  all: rewrite <- ?app_assoc in *; rewrite drop_app_length; simpl in *.
  all: intros Hin.
  all: try (no_such_entry Hin).
  all: split; [by auto|].
  all: eexists; split; [apply elem_of_cons; right|eassumption].
  all: match goal with
       | Hm : answer _ _ = IsMember _ |- _ =>
           rewrite Hm; apply list_elem_of_here
       end.
Qed.
End Resolve.

(** ** The deadline sweep *)

Section Keeps.
Context `{Unicode} `{Platform}.
Context (I : World -> Prop).

Lemma keeps_ret {A} (a : A) : keeps I (mret a).
Proof. by intros w. Qed.

Lemma keeps_raise {A} : keeps I (@raise A).
Proof. by intros w. Qed.

Lemma keeps_gets {A} (g : World -> A) : keeps I (gets g).
Proof. by intros w. Qed.

Lemma keeps_modify (g : World -> World) :
  (forall w, I w -> I (g w)) -> keeps I (modify g).
Proof. intros Hg w. apply Hg. Qed.

Lemma keeps_bind {A B} (m : M A) (k : A -> M B) :
  keeps I m -> (forall a, keeps I (k a)) -> keeps I (m ≫= k).
Proof.
  intros Hm Hk w Hw. specialize (Hm w Hw). unfold after in *.
  rewrite run_bind. destruct (m w) as [[a|] w1]; simpl in *; [|done].
  by apply (Hk a w1).
Qed.

Lemma keeps_try {A} (m h : M A) :
  keeps I m -> keeps I h -> keeps I (try_except m h).
Proof.
  intros Hm Hh w Hw. specialize (Hm w Hw). unfold after in *.
  rewrite run_try. destruct (m w) as [[a|] w1]; simpl in *; [done|].
  by apply (Hh w1).
Qed.

Lemma keeps_for_each {A} (xs : list A) (body : A -> M unit) :
  Forall (fun x => keeps I (body x)) xs -> keeps I (for_each xs body).
Proof.
  induction 1 as [|x xs Hx _ IH]; simpl.
  - apply keeps_ret.
  - apply keeps_bind; [done | by intros _].
Qed.

Hypothesis I_not_log : forall g w, I w -> I (upd_calls g w).

Lemma keeps_call c : keeps I (call c).
Proof.
  intros w Hw. unfold after, call. destruct (answer _ _); simpl;
    by apply I_not_log.
Qed.

Lemma keeps_bot_send c : keeps I (bot_send c).
Proof.
  apply keeps_bind; [apply keeps_call|].
  intros []; first [apply keeps_ret | apply keeps_raise].
Qed.

Lemma keeps_bot_do c : keeps I (bot_do c).
Proof.
  apply keeps_bind; [apply keeps_call|].
  intros []; first [apply keeps_ret | apply keeps_raise].
Qed.

Lemma keeps_bot_get_chat_member c u : keeps I (bot_get_chat_member c u).
Proof.
  apply keeps_bind; [apply keeps_call|].
  intros []; first [apply keeps_ret | apply keeps_raise].
Qed.

Lemma keeps_bot_get_me : keeps I bot_get_me.
Proof.
  apply keeps_bind; [apply keeps_call|].
  intros []; first [apply keeps_ret | apply keeps_raise].
Qed.
End Keeps.

(** Decompose [keeps I m] along [m]; [side] proves that a store update
    keeps [I]. *)
Ltac keeps_step side :=
  lazymatch goal with
  | |- keeps _ (mret _) => apply keeps_ret
  | |- keeps _ raise => apply keeps_raise
  | |- keeps _ (gets _) => apply keeps_gets
  | |- keeps _ (modify _) => apply keeps_modify; side
  | |- keeps _ (bot_send _) => apply keeps_bot_send; side
  | |- keeps _ (bot_do _) => apply keeps_bot_do; side
  | |- keeps _ (bot_get_chat_member _ _) =>
      apply keeps_bot_get_chat_member; side
  | |- keeps _ bot_get_me => apply keeps_bot_get_me; side
  | |- keeps _ (try_except _ _) => apply keeps_try
  | |- keeps _ (_ ≫= _) => apply keeps_bind; [|intros ?]
  | |- keeps _ (match ?x with _ => _ end) => destruct x
  | |- keeps _ _ =>
      progress unfold schedule_message_deletion, delete_warning, del_pending,
        getitem
  end.

Lemma for_each_completed {A} (xs : list A) (body : A -> M unit)
    (Q : A -> World -> Prop) :
  (forall x w, result (body x) w = Ok tt -> Q x (after (body x) w)) ->
  (forall x y, keeps (Q x) (body y)) ->
  forall w, result (for_each xs body) w = Ok tt ->
            forall x, x ∈ xs -> Q x (after (for_each xs body) w).
Proof.
  intros Hdone Hkeep. induction xs as [|y xs IH]; intros w Hok x Hx.
  - by apply elem_of_nil in Hx.
  - simpl in *. unfold result, after in *. rewrite run_bind in *.
    pose proof (Hdone y w) as Hy. unfold result, after in Hy.
    destruct (body y w) as [[[]|] w1] eqn:Hb; simpl in *; [|done].
    apply elem_of_cons in Hx as [->|Hx].
    + assert (keeps (Q y) (for_each xs body)) as Hk.
      { clear -Hkeep. induction xs as [|z xs IH]; simpl.
        - by intros w.
        - intros w Hw. unfold after. rewrite run_bind.
          pose proof (Hkeep y z w Hw) as Hz. unfold after in Hz.
          destruct (body z w) as [[[]|] w2]; simpl in *; [|done].
          by apply IH. }
      apply (Hk w1). by apply Hy.
    + by apply (IH w1).
Qed.

Lemma filter_only_one {A} (P : A -> bool) (l : list A) (x : A) :
  NoDup l -> x ∈ l -> P x = true ->
  (forall y, y ∈ l -> P y = true -> y = x) ->
  List.filter P l = [x].
Proof.
  induction l as [|y l IH]; intros Hnd Hx Px Honly.
  - by apply elem_of_nil in Hx.
  - apply NoDup_cons in Hnd as [Hy Hnd]. simpl.
    assert (forall z, z ∈ l -> P z = true -> z = x) as Honly'.
    { intros z Hz. apply Honly. by apply elem_of_cons; right. }
    apply elem_of_cons in Hx as [<-|Hx].
    + rewrite Px. f_equal. clear IH Hnd.
      induction l as [|z l IH]; [done|]. simpl.
      destruct (P z) eqn:Pz.
      * exfalso. apply Hy. rewrite (Honly' z); [apply list_elem_of_here| |done].
        apply list_elem_of_here.
      * apply IH.
        -- intros Hin. apply Hy. by apply elem_of_cons; right.
        -- intros z' Hz' Pz'. apply Honly; [|done].
           apply elem_of_cons in Hz' as [->|Hz']; [apply list_elem_of_here|].
           apply elem_of_cons; right. by apply elem_of_cons; right.
        -- intros z' Hz'. apply Honly'. by apply elem_of_cons; right.
    + destruct (P y) eqn:Py.
      * exfalso. apply Hy. rewrite (Honly y); [done | apply list_elem_of_here | done].
      * by apply IH.
Qed.

Section SweepMore.
Context `{Unicode} `{Platform} `{InsertionOrder}.

(** The sweep leaves a Pending Correction whose deadline has not passed
    exactly as it is, and does not ban its member. *)
Theorem sweep_spares_records_not_due user_id p t w :
  pending_corrections w !! user_id = Some p ->
  t < timer_end p ->
  pending_corrections (after (check_pending_removals t) w) !! user_id = Some p /\
  Forall (fun e => is_ban_of user_id (fst e) = false)
    (issued (check_pending_removals t) w).
Proof.
  intros Hp Hnot.
  assert (Forall (fun item : Z * Pending => fst item <> user_id)
            (List.filter (fun item => timer_end (snd item) <=? t)
               (items (pending_corrections w)))) as Hitems.
  { apply Forall_forall. intros [k q] Hin.
    apply list_elem_of_In, filter_In in Hin as [Hin Hdue].
    apply list_elem_of_In, elem_of_items in Hin. simpl in *.
    intros ->. assert (q = p) as -> by congruence. lia. }
  split.
  - unfold after, check_pending_removals. rewrite run_bind, run_gets.
    cbn beta iota.
    refine (keeps_for_each
              (fun w0 => pending_corrections w0 !! user_id = Some p) _ _ _ w Hp).
    eapply Forall_impl; [exact Hitems|]. intros [k q] Hk. simpl in *.
    repeat keeps_step
      ltac:(first [ by intros []
                  | by intros ? []
                  | intros [] ?; simpl in *; by rewrite lookup_delete_ne by done
                  | intros [] ?; simpl in *; by rewrite lookup_insert_ne by done ]).
  - unfold issued, check_pending_removals, after.
    rewrite run_bind, run_gets. cbn beta iota.
    apply (only_calls_issued (fun c => is_ban_of user_id c = false)).
    apply only_calls_for_each.
    eapply Forall_impl; [exact Hitems|]. intros [k q] Hk. simpl in *.
    assert (is_ban_of user_id (ban_chat_member GROUP_ID k) = false) as Hban.
    { simpl. by apply bool_decide_eq_false_2. }
    repeat only_step; done.
Qed.

(** When the sweep completes without raising, no Pending Correction
    whose deadline has passed is left. *)
Theorem completed_sweep_clears_due_records t w :
  result (check_pending_removals t) w = Ok tt ->
  forall user_id p,
    pending_corrections w !! user_id = Some p -> timer_end p <= t ->
    pending_corrections (after (check_pending_removals t) w) !! user_id = None.
Proof.
  unfold result, after, check_pending_removals.
  rewrite run_bind, run_gets. cbn beta iota.
  intros Hok user_id p Hp Hdue.
  refine (for_each_completed _ _
            (fun item w0 => pending_corrections w0 !! fst item = None)
            _ _ w Hok (user_id, p) _).
  - clear. intros [k q] w. unfold result, after. simpl.
    unfold del_pending, getitem, schedule_message_deletion, delete_warning.
    crunch.
    all: try done.
    all: try (intros _; by rewrite ?lookup_delete_eq).
    all: rewrite lookup_delete_eq; go; done.
  - clear. intros [k q] [k' q']. simpl.
    repeat keeps_step
      ltac:(first [ by intros []
                  | by intros ? []
                  | intros [] ?; simpl in *; apply lookup_delete_None; by right ]).
  - apply list_elem_of_In, filter_In. split.
    + by apply list_elem_of_In, elem_of_items.
    + simpl. lia.
Qed.
End SweepMore.

(** Run the sweep when [user_id] holds the only record that is due. *)
Ltac sweep_single Hp Hdue Honly :=
  unfold check_pending_removals; rewrite run_bind, run_gets; cbn beta iota;
  rewrite (filter_only_one _ _ _ (NoDup_items _)
             (proj2 (elem_of_items _ _ _) Hp)
             (proj2 (Z.leb_le _ _) Hdue) Honly);
  unfold for_each, del_pending, getitem, schedule_message_deletion,
    delete_warning.

Section SweepOne.
Context `{Unicode} `{Platform} `{InsertionOrder}.

Lemma only_due_items t user_id p w :
  only_due t user_id p w ->
  forall y : Z * Pending,
    y ∈ items (pending_corrections w) ->
    (timer_end (snd y) <=? t) = true -> y = (user_id, p).
Proof.
  intros (Hp & _ & Honly) [k q] Hin Hq. apply elem_of_items in Hin.
  simpl in Hq. apply Z.leb_le in Hq.
  assert (k = user_id) as -> by (by eapply Honly).
  f_equal. congruence.
Qed.

(** The sweep at a passed deadline, for a member the platform reports
    under a name that is still invalid: the Pending Correction is deleted
    and the ban is the first call after the membership query; the sweep
    does not raise, whatever the platform does with the ban or the
    notice.  Once the removal notice is out, the member has been dropped
    from the registry. *)
Theorem sweep_bans_at_deadline t user_id p m w :
  only_due t user_id p w ->
  answer (length (calls w)) (get_chat_member GROUP_ID user_id) = IsMember m ->
  validate_name (MODE w) (full_name (user m)) = false ->
  let sweep := check_pending_removals t in
  let w' := after sweep w in
  result sweep w = Ok tt /\
  pending_corrections w' !! user_id = None /\
  (exists rest,
     map fst (issued sweep w) =
       get_chat_member GROUP_ID user_id :: ban_chat_member GROUP_ID user_id
       :: rest) /\
  ((exists me i,
      (send_message GROUP_ID
         (RemovedNameViolation (full_name (user m)) (username me)), Sent i)
      ∈ issued sweep w) ->
   member_name_tracker w' !! user_id = None).
Proof.
  intros Hone Hm Hbad sweep w'. subst sweep w'.
  pose proof (only_due_items _ _ _ _ Hone) as Honly.
  destruct Hone as (Hp & Hdue & _).
  unfold issued, result, after. sweep_single Hp Hdue Honly.
  go. rewrite Hm. go. rewrite Hbad. go. rewrite Hp. go.
  crunch.
  all: rewrite <- ?app_assoc in *; rewrite drop_app_length; simpl in *.
  all: split_and!; try done.
  all: try (by rewrite ?lookup_delete_eq).
  all: try (by eexists).
  all: try (intros _; by rewrite ?lookup_delete_eq).
  all: intros (who & i & Hin); no_such_entry Hin.
Qed.

(** The sweep at a passed deadline, for a member the platform reports
    under a valid name: the Pending Correction is deleted, the registry
    takes the reported name, the acknowledgement is the only message and
    nobody is banned.  The sweep completes exactly when the platform
    accepts the acknowledgement; when it refuses, the [except] branch
    deletes a record that is already gone and the sweep raises. *)
Theorem sweep_acknowledges_correction t user_id p m w :
  only_due t user_id p w ->
  answer (length (calls w)) (get_chat_member GROUP_ID user_id) = IsMember m ->
  validate_name (MODE w) (full_name (user m)) = true ->
  let sweep := check_pending_removals t in
  let w' := after sweep w in
  let ack := send_message GROUP_ID (NameCorrected (full_name (user m))) in
  pending_corrections w' !! user_id = None /\
  member_name_tracker w' !! user_id = Some (full_name (user m)) /\
  (exists rest,
     map fst (issued sweep w) = get_chat_member GROUP_ID user_id :: ack :: rest /\
     (rest = [] \/ rest = [delete_message GROUP_ID (warning_msg_id p)])) /\
  (result sweep w = Ok tt <-> exists i, (ack, Sent i) ∈ issued sweep w) /\
  (result sweep w = Ok tt \/ result sweep w = Raised).
Proof.
  intros Hone Hm Hok sweep w' ack. subst sweep w' ack.
  pose proof (only_due_items _ _ _ _ Hone) as Honly.
  destruct Hone as (Hp & Hdue & _).
  unfold issued, result, after. sweep_single Hp Hdue Honly.
  go. rewrite Hm. go. rewrite Hok. go. rewrite Hp. go.
  by_answer; go.
  all: rewrite ?lookup_delete_eq; go.
  all: repeat (by_answer; go).
  all: rewrite <- ?app_assoc in *; rewrite drop_app_length; simpl in *.
  all: split_and!; try done.
  all: try (by rewrite ?lookup_delete_eq).
  all: try (by rewrite ?lookup_insert_eq).
  all: try (eexists; split; [reflexivity|]; by auto).
  all: try (by left).
  all: try (by right).
  all: split.
  all: try done.
  all: try (intros _; eexists; apply elem_of_cons; right;
            match goal with
            | Hs : answer _ _ = Sent _ |- _ =>
                rewrite Hs; apply list_elem_of_here
            end).
  all: intros (i & Hin); no_such_entry Hin.
Qed.
End SweepOne.

(** ** The join gate: first-time joiners *)

Section Gate.
Context `{Unicode} `{Platform}.

(** A first-time joiner (non-exempt, not the bot, no approved rejoin)
    with an invalid name, when the platform delivers the warning: the
    joiner is registered, a Pending Correction with deadline
    [NAME_CORRECTION_TIME] after the join is recorded, and the deletion of
    the warning message is scheduled.  Unlike
    [warn_and_schedule_removal], the join gate queues no removal job: the
    deadline is left to the periodic sweep. *)
Theorem invalid_joiner_is_warned update u now i w :
  effective_chat_id update = GROUP_ID ->
  new_chat_members update = [u] ->
  non_exempt w (u_id u) ->
  u_id u <> bot_id ->
  approved_rejoins w !! u_id u = None ->
  validate_name (MODE w) (full_name u) = false ->
  let warning :=
    reply_text (StrictWarning (mention u) (MODE w)
                  (now + seconds NAME_CORRECTION_TIME)) in
  answer (S (length (calls w))) warning = Sent i ->
  let join := handle_new_member update now in
  let w' := after join w in
  result join w = Ok tt /\
  member_name_tracker w' !! u_id u = Some (full_name u) /\
  pending_corrections w' =
    <[u_id u := {| warning_msg_id := i; pending_username := username u;
                   pending_display_name := full_name u; warning_time := now;
                   timer_end := now + seconds NAME_CORRECTION_TIME |}]>
      (pending_corrections w) /\
  warning_messages w' = warning_messages w ++ [i] /\
  job_queue w' = job_queue w ++ [delete_specific_message_job i WARNING_DELETE_TIME] /\
  map fst (issued join w) = [get_chat_member GROUP_ID (u_id u); warning].
Proof.
  intros Hchat Hnew Hne Hbot Happ Hbad warning Hsent join w'.
  subst join w' warning. unfold issued, result, after.
  evaluate_join Hchat Hnew Hne Hbot Happ. go. rewrite Hbad.
  unfold schedule_message_deletion. go.
  assert (length (calls w ++
            [(get_chat_member GROUP_ID (u_id u),
              answer (length (calls w)) (get_chat_member GROUP_ID (u_id u)))])
          = S (length (calls w))) as -> by (rewrite length_app; simpl; lia).
  rewrite Hsent. go. split_and!; try done.
  - apply lookup_insert_eq.
  - rewrite <- app_assoc. by rewrite drop_app_length.
Qed.

(** A first-time joiner with a valid name is registered and welcomed:
    the welcome is the only message, no Pending Correction is recorded,
    nobody is banned. *)
Theorem valid_joiner_is_welcomed update u now w :
  effective_chat_id update = GROUP_ID ->
  new_chat_members update = [u] ->
  non_exempt w (u_id u) ->
  u_id u <> bot_id ->
  approved_rejoins w !! u_id u = None ->
  validate_name (MODE w) (full_name u) = true ->
  let join := handle_new_member update now in
  let w' := after join w in
  member_name_tracker w' !! u_id u = Some (full_name u) /\
  pending_corrections w' = pending_corrections w /\
  approved_rejoins w' = approved_rejoins w /\
  map fst (issued join w) =
    [get_chat_member GROUP_ID (u_id u); reply_text (Welcome (full_name u))].
Proof.
  intros Hchat Hnew Hne Hbot Happ Hok join w'.
  subst join w'. unfold issued, after.
  evaluate_join Hchat Hnew Hne Hbot Happ. go. rewrite Hok.
  unfold schedule_message_deletion. go.
  by_answer; go.
  all: split_and!; try done; try apply lookup_insert_eq.
  all: rewrite <- ?app_assoc; by rewrite drop_app_length.
Qed.

(** What the gate ignores: an update from another chat changes nothing
    at all, and an exempt joiner is only registered (no message, no
    Pending Correction, no ban, and an approved rejoin is left alone). *)
Theorem gate_skips_other_chats_and_exempt update u now w :
  (effective_chat_id update <> GROUP_ID ->
   handle_new_member update now w = (Ok tt, w)) /\
  (effective_chat_id update = GROUP_ID ->
   new_chat_members update = [u] ->
   result (is_lecturer_or_admin (u_id u) GROUP_ID) w = Ok true ->
   let join := handle_new_member update now in
   let w' := after join w in
   result join w = Ok tt /\
   member_name_tracker w' =
     <[u_id u := full_name u]> (member_name_tracker w) /\
   pending_corrections w' = pending_corrections w /\
   approved_rejoins w' = approved_rejoins w /\
   job_queue w' = job_queue w /\
   Forall (fun e => fst e = get_chat_member GROUP_ID (u_id u)) (issued join w)).
Proof.
  split.
  - intros Hchat. unfold handle_new_member.
    by rewrite bool_decide_eq_true_2 by done.
  - intros Hchat Hnew Hex join w'. subst join w'.
    unfold issued, result, after, handle_new_member in *.
    rewrite Hchat, Hnew. rewrite bool_decide_eq_false_2 by (by intros ?).
    unfold for_each, admit_member. rewrite !run_bind.
    pose proof (is_lecturer_or_admin_frame (u_id u) GROUP_ID w) as Hf.
    unfold after in Hf.
    assert (Forall (fun e => fst e = get_chat_member GROUP_ID (u_id u))
              (drop (length (calls w))
                 (calls (is_lecturer_or_admin (u_id u) GROUP_ID w).2))) as Hq.
    { apply (only_calls_issued (fun c => c = get_chat_member GROUP_ID (u_id u))
               (is_lecturer_or_admin (u_id u) GROUP_ID) w).
      unfold is_lecturer_or_admin. repeat only_step; done. }
    destruct (is_lecturer_or_admin (u_id u) GROUP_ID w) as [[[|]|] w1];
      simpl in *; try done.
    go. by destruct Hf as (-> & -> & _ & -> & _ & -> & _).
Qed.
End Gate.

(** ** Messages in the group *)

Section GroupMessages.
Context `{Unicode} `{Platform}.

(** A member whose message shows a changed, invalid name, on a platform
    that never reports the member as an administrator.  The registry
    takes the new name, and if the warning is delivered the member gets a
    Pending Correction with a fresh deadline and a removal job is queued,
    also when the member was warned before: the earlier record is
    overwritten and the earlier removal job stays in the queue. *)
Theorem changed_invalid_name_is_warned update u previous_name now w :
  effective_user update = Some u ->
  is_bot u = false ->
  u_id u ∉ LECTURER_IDS ->
  u_id u ∉ group_admins w ->
  (forall k, match answer k (get_chat_member GROUP_ID (u_id u)) with
             | IsMember m => is_admin_status (status m) = false
             | _ => True
             end) ->
  member_name_tracker w !! u_id u = Some previous_name ->
  previous_name <> full_name u ->
  validate_name (MODE w) (full_name u) = false ->
  let handle := handle_message update now in
  let w' := after handle w in
  let warning :=
    send_message (effective_chat_id update)
      (ViolationDetected (username_or_id u) (full_name u) (MODE w)) in
  result handle w = Ok tt /\
  member_name_tracker w' !! u_id u = Some (full_name u) /\
  (forall i, (warning, Sent i) ∈ issued handle w ->
     pending_corrections w' !! u_id u =
       Some {| warning_msg_id := i; pending_username := username u;
               pending_display_name := full_name u; warning_time := now;
               timer_end := now + seconds NAME_CORRECTION_TIME |} /\
     job_queue w' =
       job_queue w ++
       [delete_specific_message_job i WARNING_DELETE_TIME;
        remove_user_job (effective_chat_id update) (u_id u)
          NAME_CORRECTION_TIME]).
Proof.
  intros Hu Hbot Hlect Hadm Hnever Htr Hchg Hbad handle w'.
  subst handle w'. unfold issued, result, after, handle_message.
  rewrite Hu, Hbot.
  assert (forall w0, group_admins w0 = group_admins w ->
            is_lecturer_or_admin (u_id u) GROUP_ID w0
            = (Ok false, logged (get_chat_member GROUP_ID (u_id u)) w0)) as Hq.
  { intros w0 Hw0. apply non_exempt_run, non_exempt_iff.
    rewrite Hw0. split_and!; try done. apply Hnever. }
  unfold detect_name_change, warn_and_schedule_removal,
    schedule_message_deletion.
  destruct (effective_chat_type update); go.
  all: rewrite ?Hq by done; go.
  all: rewrite ?Hq by done; go.
  all: rewrite Htr; rewrite bool_decide_eq_false_2 by done; go.
  all: rewrite Hbad; go.
  all: rewrite ?Hq by done; go.
  all: by_answer; go.
  all: rewrite <- ?app_assoc in *; rewrite drop_app_length; simpl in *.
  all: split_and!; try done; try apply lookup_insert_eq.
  all: intros i Hin.
  all: try (no_such_entry Hin).
  all: repeat (apply elem_of_cons in Hin as [Hin|Hin]; [try congruence|]).
  all: try (by apply elem_of_nil in Hin).
  all: assert (i = message_id) as -> by congruence.
  all: split; [apply lookup_insert_eq | by rewrite <- ?app_assoc].
Qed.
End GroupMessages.

(** ** Private messages: the other outcomes *)

Ltac evaluate_request Hu Hne Hcool Hlim :=
  rewrite (handle_private_message_non_exempt _ _ _ _ Hu Hne);
  unfold rejoin_request; run; unfold getitem;
  rewrite counter_found; run;
  match goal with
  | |- context [counter_of (logged ?c ?w) ?u] =>
      change (counter_of (logged c w) u) with (counter_of w u)
  end;
  rewrite Hcool, (proj2 (Z.leb_gt _ _) Hlim); go.

Section PrivateMore.
Context `{Unicode} `{Platform}.

(** A successful rejoin request: the sender is not exempt, passes the
    cooldown and the limit, has a valid name, the platform returns a
    non-empty link and accepts the reply.  The attempt is counted, the
    approval records exactly the validated name, the link is recorded as
    unused with its two-hour expiry, the reply carries that link, and
    each lecturer is notified (a notification the platform refuses is
    ignored). *)
Theorem rejoin_request_approved update u now c l i w :
  effective_user update = Some u ->
  non_exempt w (u_id u) ->
  let d := counter_of w (u_id u) in
  let handle := handle_private_message update now in
  let w' := after handle w in
  let expiry := now + seconds INVITE_LINK_DURATION in
  let create :=
    create_chat_invite_link GROUP_ID expiry INVITE_LINK_USES (u_id u) in
  let reply :=
    reply_text (AutoApproved (full_name u) (attempts d + 1) (c :: l) expiry) in
  cooldown_left d now = None ->
  attempts d < REJOIN_ATTEMPTS_LIMIT ->
  validate_name (MODE w) (full_name u) = true ->
  answer (S (length (calls w))) create = Invite (c :: l) ->
  answer (S (S (length (calls w)))) reply = Sent i ->
  result handle w = Ok tt /\
  rejoin_attempts w' !! u_id u = Some (counted d now) /\
  approved_rejoins w' !! u_id u =
    Some {| display_name := full_name u; approval_time := now |} /\
  active_invite_links w' !! u_id u =
    Some {| link := c :: l; created_at := now; used := false;
            expires_at := expiry |} /\
  map fst (issued handle w) =
    [get_chat_member GROUP_ID (u_id u); create; reply;
     send_message 7394280481
       (LecturerRejoinNotice (full_name u) (username u) (u_id u)
          (attempts d + 1) now)].
Proof.
  intros Hu Hne d handle w' expiry create reply Hcool Hlim Hvalid Hlink Hsent.
  subst handle w' expiry create reply d. unfold issued, result, after.
  evaluate_request Hu Hne Hcool Hlim.
  rewrite Hvalid. unfold count_attempt, create_invite_link. go.
  assert (forall e : Call * Answer, length (calls w ++ [e]) = S (length (calls w)))
    as Hlen1 by (intros e; rewrite length_app; simpl; lia).
  assert (forall e1 e2 : Call * Answer,
            length ((calls w ++ [e1]) ++ [e2]) = S (S (length (calls w))))
    as Hlen2 by (intros e1 e2; rewrite !length_app; simpl; lia).
  destruct (active_invite_links w !! u_id u) as [old|]; go.
  1: destruct (_ <? _); go.
  all: rewrite Hlen1, Hlink; go.
  all: rewrite Hlen2, Hsent; go.
  all: by_answer; go.
  all: split_and!; try done; try apply lookup_insert_eq.
  all: rewrite <- ?app_assoc; by rewrite drop_app_length.
Qed.

(** A request under an invalid name that passes the cooldown and the
    limit: the attempt is counted, nothing is approved, no link is asked
    for, and the reply tells the attempts used and left. *)
Theorem rejoin_request_invalid_name update u now w :
  effective_user update = Some u ->
  non_exempt w (u_id u) ->
  let d := counter_of w (u_id u) in
  let handle := handle_private_message update now in
  let w' := after handle w in
  cooldown_left d now = None ->
  attempts d < REJOIN_ATTEMPTS_LIMIT ->
  validate_name (MODE w) (full_name u) = false ->
  rejoin_attempts w' !! u_id u = Some (counted d now) /\
  approved_rejoins w' = approved_rejoins w /\
  active_invite_links w' = active_invite_links w /\
  map fst (issued handle w) =
    [get_chat_member GROUP_ID (u_id u);
     reply_text (NameDoesNotMatch (full_name u) (MODE w) (attempts d + 1)
                   (REJOIN_ATTEMPTS_LIMIT - (attempts d + 1)))].
Proof.
  intros Hu Hne d handle w' Hcool Hlim Hbad.
  subst handle w' d. unfold issued, after.
  evaluate_request Hu Hne Hcool Hlim.
  rewrite Hbad. unfold count_attempt. go.
  by_answer; go.
  all: split_and!; try done; try apply lookup_insert_eq.
  all: rewrite <- ?app_assoc; by rewrite drop_app_length.
Qed.

(** The rollback of an approval runs when the error reply itself fails:
    the link cannot be created and the platform refuses the first error
    message.  Then the [except] branch deletes the Approved Rejoin record
    and sends the second error message; the attempt stays counted. *)
Theorem approval_rolled_back_when_reply_fails update u now w :
  effective_user update = Some u ->
  non_exempt w (u_id u) ->
  let d := counter_of w (u_id u) in
  let handle := handle_private_message update now in
  let w' := after handle w in
  let create :=
    create_chat_invite_link GROUP_ID (now + seconds INVITE_LINK_DURATION)
      INVITE_LINK_USES (u_id u) in
  cooldown_left d now = None ->
  attempts d < REJOIN_ATTEMPTS_LIMIT ->
  validate_name (MODE w) (full_name u) = true ->
  answer (S (length (calls w))) create = Raises ->
  (forall i, answer (S (S (length (calls w))))
               (reply_text ErrorCreatingLinkTryAgain) <> Sent i) ->
  approved_rejoins w' !! u_id u = None /\
  rejoin_attempts w' !! u_id u = Some (counted d now) /\
  map fst (issued handle w) =
    [get_chat_member GROUP_ID (u_id u); create;
     reply_text ErrorCreatingLinkTryAgain;
     reply_text ErrorCreatingLinkContactLecturer].
Proof.
  intros Hu Hne d handle w' create Hcool Hlim Hvalid Hfail Hreply.
  subst handle w' create d. unfold issued, after.
  evaluate_request Hu Hne Hcool Hlim.
  rewrite Hvalid. unfold count_attempt, create_invite_link. go.
  assert (forall e : Call * Answer, length (calls w ++ [e]) = S (length (calls w)))
    as Hlen1 by (intros e; rewrite length_app; simpl; lia).
  assert (forall e1 e2 : Call * Answer,
            length ((calls w ++ [e1]) ++ [e2]) = S (S (length (calls w))))
    as Hlen2 by (intros e1 e2; rewrite !length_app; simpl; lia).
  destruct (active_invite_links w !! u_id u) as [old|]; go.
  1: destruct (_ <? _); go.
  all: rewrite Hlen1, Hfail; go.
  all: rewrite Hlen2.
  all: destruct (answer (S (S (length (calls w))))
                   (reply_text ErrorCreatingLinkTryAgain)) eqn:Hr; go.
  all: try (by destruct (Hreply message_id)).
  all: by_answer; go.
  all: split_and!; try done.
  all: try apply lookup_delete_eq; try apply lookup_insert_eq.
  all: rewrite <- ?app_assoc; by rewrite drop_app_length.
Qed.

(** An exempt sender is kept out of the rejoin logic: the attempt
    counters, the approvals and the links are untouched; a text starting
    with a slash gets no reply, any other message gets the admin
    greeting. *)
Theorem exempt_sender_bypasses_rejoin update u now w :
  effective_user update = Some u ->
  result (is_lecturer_or_admin (u_id u) GROUP_ID) w = Ok true ->
  let handle := handle_private_message update now in
  let w' := after handle w in
  rejoin_attempts w' = rejoin_attempts w /\
  approved_rejoins w' = approved_rejoins w /\
  active_invite_links w' = active_invite_links w /\
  Forall (fun e => fst e = get_chat_member GROUP_ID (u_id u) \/
                   (fst e = reply_text HelloAdmin /\
                    startswith (lit "/") (default [] (text update)) = false))
    (issued handle w).
Proof.
  intros Hu Hex handle w'. subst handle w'.
  remember (startswith (lit "/") (default [] (text update))) as slash
    eqn:Hslash.
  unfold issued, result, after, handle_private_message, the_user in *.
  rewrite <- Hslash.
  rewrite Hu. rewrite run_bind, run_ret. cbn beta iota. rewrite run_bind.
  pose proof (is_lecturer_or_admin_frame (u_id u) GROUP_ID w) as Hf.
  unfold after in Hf.
  assert (only_calls (fun c => c = get_chat_member GROUP_ID (u_id u))
            (is_lecturer_or_admin (u_id u) GROUP_ID)) as Hoc.
  { unfold is_lecturer_or_admin. repeat only_step; done. }
  destruct (Hoc w) as (new & Hcalls & Hnew). unfold after in Hcalls.
  destruct (is_lecturer_or_admin (u_id u) GROUP_ID w) as [[[|]|] w1];
    simpl in *; try done.
  destruct Hf as (_ & _ & <- & <- & <- & _).
  clear Hslash. destruct slash; go.
  - split_and!; try done. rewrite Hcalls, drop_app_length.
    eapply Forall_impl; [exact Hnew|]. by left.
  - by_answer; go.
    all: split_and!; try done.
    all: rewrite Hcalls, <- app_assoc, drop_app_length.
    all: apply Forall_app; split; [eapply Forall_impl; [exact Hnew|]; by left|].
    all: repeat constructor; by right.
Qed.
End PrivateMore.

(** ** Cleaning up messages *)

Lemma remove_first_perm (x : Z) (l : list Z) :
  x ∈ l -> l ≡ₚ x :: remove_first x l.
Proof.
  induction l as [|y l IH]; intros Hx; simpl.
  - by apply elem_of_nil in Hx.
  - case_bool_decide as Hxy; [by subst|].
    apply elem_of_cons in Hx as [->|Hx]; [done|].
    rewrite (IH Hx) at 1. apply Permutation_swap.
Qed.

Lemma remove_all_perm (removed l : list Z) :
  removed ⊆+ l ->
  l ≡ₚ removed ++ foldl (fun l i => remove_first i l) l removed.
Proof.
  revert l. induction removed as [|i removed IH]; intros l Hsub; simpl.
  - done.
  - assert (i ∈ l) as Hi.
    { eapply elem_of_submseteq; [apply list_elem_of_here | exact Hsub]. }
    pose proof (remove_first_perm i l Hi) as Hl.
    rewrite Hl in Hsub. apply (submseteq_app_inv_l _ _ [i]) in Hsub.
    rewrite <- (IH _ Hsub). exact Hl.
Qed.

Lemma for_each_remove_first (removed : list Z) (w : World) :
  for_each removed (fun i => modify (upd_warning_messages (remove_first i))) w
  = (Ok tt,
     upd_warning_messages
       (fun l => foldl (fun l i => remove_first i l) l removed) w).
Proof.
  revert w. induction removed as [|i removed IH]; intros w.
  - by destruct w.
  - simpl. rewrite run_bind, run_modify. cbn beta iota. rewrite IH.
    by destruct w.
Qed.

Section Cleanup.
Context `{Platform}.

(** The deletion job never raises: whether or not the platform deletes
    the message, its id is taken off the cleanup list (its first
    occurrence), and the only call is the deletion. *)
Theorem delete_specific_message_untracks message_id w :
  let job := delete_specific_message message_id in
  result job w = Ok tt /\
  bot_messages_to_cleanup (after job w)
    = remove_first message_id (bot_messages_to_cleanup w) /\
  map fst (issued job w) = [delete_message GROUP_ID message_id].
Proof.
  unfold issued, result, after, delete_specific_message. go.
  by_answer; go.
  all: split_and!; try done; by rewrite drop_app_length.
Qed.

(** The first loop of the cleanup, on any list of ids: it does not
    raise, it asks for the deletion of each id in turn and changes no
    store, and it returns the ids the platform deleted, in order. *)
Lemma delete_each_run ids w :
  exists log,
    delete_each ids w = (Ok (deleted_ids log), upd_calls (fun l => l ++ log) w) /\
    map fst log = map (delete_message GROUP_ID) ids /\
    deleted_ids log ⊆+ ids.
Proof.
  revert w. induction ids as [|i ids IH]; intros w.
  - exists []. simpl. rewrite run_ret. split_and!; try done.
    unfold upd_calls. destruct w; simpl. by rewrite app_nil_r.
  - simpl. go.
    destruct (answer (length (calls w)) (delete_message GROUP_ID i)) eqn:Ha; go.
    all: match goal with
         | |- context [delete_each _ ?w1] =>
             destruct (IH w1) as (log & -> & Hcalls & Hsub)
         end; go.
    all: exists ((delete_message GROUP_ID i,
                  answer (length (calls w)) (delete_message GROUP_ID i)) :: log).
    all: split_and!;
           [ f_equal;
             [ simpl; by rewrite Ha
             | unfold logged, upd_calls; destruct w; simpl;
               by rewrite <- app_assoc ]
           | simpl; by rewrite Hcalls
           | simpl; rewrite Ha ].
    all: try (by apply submseteq_cons).
    by apply submseteq_skip.
Qed.

(** [cleanup_warnings] never raises.  It asks the platform to delete
    every listed warning message, in order, and takes off the list the
    messages the platform deleted, keeping the others: the old list is a
    rearrangement of the deleted ids followed by the new list. *)
Theorem cleanup_warnings_keeps_undeleted w :
  let w' := after cleanup_warnings w in
  result cleanup_warnings w = Ok tt /\
  map fst (issued cleanup_warnings w)
    = map (delete_message GROUP_ID) (warning_messages w) /\
  warning_messages w ≡ₚ
    deleted_ids (issued cleanup_warnings w) ++ warning_messages w'.
Proof.
  unfold issued, result, after, cleanup_warnings. go.
  destruct (delete_each_run (warning_messages w) w) as (log & -> & Hc & Hsub).
  go. rewrite for_each_remove_first. simpl. rewrite drop_app_length.
  split_and!; try done. by apply remove_all_perm.
Qed.
End Cleanup.

(** ** The validator: modes and character tables *)

Lemma same_on_ascii_nullable r1 r2 :
  same_on_ascii r1 r2 -> nullable r1 = nullable r2.
Proof. induction 1; simpl; congruence. Qed.

Lemma same_on_ascii_deriv c r1 r2 :
  (c < 128)%N -> same_on_ascii r1 r2 -> same_on_ascii (deriv c r1) (deriv c r2).
Proof.
  intros Hc. induction 1 as [| |p q Hpq|r1 r2 s1 s2 Hr IHr Hs IHs
                               |r1 r2 s1 s2 Hr IHr Hs IHs|r1 r2 Hr IHr]; simpl.
  - constructor.
  - constructor.
  - rewrite (Hpq c Hc). destruct (q c); constructor.
  - rewrite (same_on_ascii_nullable _ _ Hr).
    destruct (nullable r2); repeat constructor; done.
  - by constructor.
  - repeat constructor; done.
Qed.

Lemma same_on_ascii_fullmatch r1 r2 s :
  is_ascii s -> same_on_ascii r1 r2 -> fullmatch r1 s = fullmatch r2 s.
Proof.
  intros Hs. revert r1 r2. induction Hs as [|c s Hc _ IH]; intros r1 r2 Hr.
  - by apply same_on_ascii_nullable.
  - simpl. apply IH. by apply same_on_ascii_deriv.
Qed.

Lemma is_ascii_chomp s s' : is_ascii s -> chomp s = Some s' -> is_ascii s'.
Proof.
  intros Hs Hc. apply chomp_Some in Hc. subst s.
  unfold is_ascii in *. by apply Forall_app in Hs as [? _].
Qed.

Lemma same_on_ascii_Rep n r1 r2 :
  same_on_ascii r1 r2 -> same_on_ascii (Rep n r1) (Rep n r2).
Proof. intros Hr. induction n; simpl; by constructor. Qed.

Lemma same_on_ascii_UpTo n r1 r2 :
  same_on_ascii r1 r2 -> same_on_ascii (UpTo n r1) (UpTo n r2).
Proof. intros Hr. induction n; simpl; repeat constructor; done. Qed.

(** A name of ASCII characters is validated the same whatever the
    tables say about the other code points: its validation never looks
    outside ASCII. *)
Theorem ascii_names_ignore_the_tables (U1 U2 : Unicode) m s :
  is_ascii s -> @validate_name U1 m s = @validate_name U2 m s.
Proof.
  intros Hs.
  assert (same_on_ascii (Cls (@re_space U1)) (Cls (@re_space U2))) as Hsp.
  { constructor. intros c Hc. unfold re_space.
    by rewrite (proj2 (N.ltb_lt _ _) Hc). }
  assert (same_on_ascii (Cls (@re_digit U1)) (Cls (@re_digit U2))) as Hdg.
  { constructor. intros c Hc. unfold re_digit.
    by rewrite (proj2 (N.ltb_lt _ _) Hc). }
  assert (forall p, same_on_ascii (Cls p) (Cls p)) as Hsame
    by (by constructor).
  assert (same_on_ascii (@name_words U1) (@name_words U2)) as Hwords.
  { unfold name_words, Plus. simpl. repeat constructor; try done;
      by inversion Hsp. }
  assert (forall r1 r2, same_on_ascii r1 r2 ->
            re_match_anchored r1 s = re_match_anchored r2 s) as Hmatch.
  { intros r1 r2 Hr. unfold re_match_anchored.
    rewrite (same_on_ascii_fullmatch r1 r2 s Hs Hr).
    destruct (chomp s) as [s'|] eqn:Hc; [|done].
    by rewrite (same_on_ascii_fullmatch r1 r2 s' (is_ascii_chomp _ _ Hs Hc) Hr). }
  destruct m; simpl; apply Hmatch.
  - unfold PRE_MATRIC_PATTERN, Plus. simpl cats.
    repeat first [ exact Hwords | exact Hsp | exact Hdg | apply Hsame
                 | apply (same_on_ascii_Rep 12) | constructor ].
  - unfold POST_MATRIC_PATTERN, Plus, Opt, Range, Chr. simpl cats.
    repeat first [ exact Hwords | exact Hsp | exact Hdg | apply Hsame
                 | apply same_on_ascii_Rep | apply same_on_ascii_UpTo
                 | constructor ].
Qed.

Lemma suffix_of_longer {A} (l1 l2 a b : list A) :
  l1 ++ a = l2 ++ b -> (length b <= length a)%nat -> exists k, a = k ++ b.
Proof.
  intros Heq Hlen. apply app_eq_inv in Heq as [(k & -> & ->)|(k & -> & ->)].
  - rewrite length_app in Hlen. destruct k; [by exists []|simpl in Hlen; lia].
  - by exists k.
Qed.

Section Modes.
Context `{Unicode}.

Lemma not_a_digit_in (c : N) (k rest ds : str) :
  re_digit c = false -> ds = k ++ c :: rest -> forallb re_digit ds = true ->
  False.
Proof.
  intros Hc -> Hds. rewrite forallb_app in Hds. simpl in Hds.
  rewrite Hc in Hds. by rewrite andb_false_r in Hds.
Qed.

(** The two modes accept disjoint sets of names: a name that is valid
    in [pre_matric] mode is invalid in [post_matric] mode, and conversely.
    After a switch of mode, every name that was valid is a violation. *)
Theorem modes_accept_disjoint_names s :
  validate_name pre_matric s = true -> validate_name post_matric s = false.
Proof.
  intros Hpre. destruct (validate_name post_matric s) eqn:Hpost; [|done].
  exfalso. apply validate_name_shape in Hpre, Hpost.
  assert (re_digit 47 = false) as Hslash by done.
  assert (re_digit LF = false) as Hlf by done.
  assert (forall body,
            pre_matric_shape body ->
            exists x ds, body = x ++ ds /\ length ds = 12%nat /\
                         forallb re_digit ds = true) as Hpre_end.
  { intros body (ws & b1 & dept & b2 & ds & -> & _ & _ & _ & _ & Hl & Hd).
    exists (ws ++ b1 ++ dept ++ b2), ds. by rewrite <- !app_assoc. }
  assert (forall body,
            post_matric_shape body ->
            exists y d4, body = y ++ 47%N :: d4 /\ length d4 = 4%nat /\
                         forallb re_digit d4 = true) as Hpost_end.
  { intros body (pf & lt & d2 & d4 & -> & _ & _ & _ & _ & Hl & Hd).
    exists (pf ++ lt ++ [47%N] ++ d2), d4. by rewrite <- !app_assoc. }
  destruct Hpre as [Hpre|(s1 & -> & Hpre)];
    apply Hpre_end in Hpre as (x & ds & -> & Hlds & Hds);
    destruct Hpost as [Hpost|(s2 & Heq & Hpost)];
    apply Hpost_end in Hpost as (y & d4 & Hbody & Hld4 & Hd4).
  - apply suffix_of_longer in Hbody as [k Hk]; [|simpl; lia].
    by eapply (not_a_digit_in 47).
  - subst s2. rewrite <- app_assoc in Heq. simpl in Heq.
    rewrite (app_comm_cons d4 [LF] 47%N) in Heq.
    change (47%N :: d4 ++ [LF]) with ((47%N :: d4) ++ [LF]) in Heq.
    rewrite app_assoc in Heq.
    apply suffix_of_longer in Heq as [k Hk]; [|simpl; lia].
    by eapply (not_a_digit_in LF k []).
  - rewrite <- app_assoc in Hbody.
    apply suffix_of_longer in Hbody as [k Hk];
      [|rewrite length_app; simpl; lia].
    destruct d4 as [|c0 d4] using rev_ind; [done|]. clear IHd4.
    assert (k ++ 47%N :: d4 ++ [c0] = (k ++ 47%N :: d4) ++ [c0]) as Hre
      by (by rewrite <- app_assoc).
    rewrite Hre in Hk. apply app_inj_tail in Hk as [_ <-].
    rewrite forallb_app in Hd4. simpl in Hd4. rewrite ?Hlf in Hd4.
    by rewrite ?andb_false_r in Hd4.
  - subst s2. apply app_inv_tail in Heq.
    apply suffix_of_longer in Heq as [k Hk]; [|simpl; lia].
    by eapply (not_a_digit_in 47).
Qed.
End Modes.

(** ** Dispatch *)

(** Which messages reach the two message handlers.  The rejoin handler
    gets exactly the private messages that start with no bot command and
    carry no joiners; the group handler gets exactly the non-private text
    messages of that kind, so it never sees a private chat; and a message
    starting with a command the bot does not know goes to no handler. *)
Theorem dispatch_of_messages update :
  (route update = Some private_message_handler <->
   command update = None /\ new_chat_members update = [] /\
   effective_chat_type update = private) /\
  (route update = Some message_handler <->
   command update = None /\ new_chat_members update = [] /\
   effective_chat_type update <> private /\ is_Some (text update)) /\
  (forall c, command update = Some c -> command_handler c = None ->
             new_chat_members update = [] -> route update = None).
Proof.
  unfold route.
  assert (forall c h, command_handler c = Some h ->
            h <> private_message_handler /\ h <> message_handler) as Hcmd.
  { intros c h. unfold command_handler.
    repeat case_bool_decide; intros [= <-]; done. }
  destruct (command update) as [c|] eqn:Hc; simpl.
  - destruct (command_handler c) as [h|] eqn:Hh.
    + destruct (Hcmd c h Hh) as [H1 H2]. split_and!.
      * split; [intros [= Heq]; congruence | by intros ([=] & _)].
      * split; [intros [= Heq]; congruence | by intros ([=] & _)].
      * intros c' [= <-] Hn. congruence.
    + destruct (new_chat_members update) as [|u us]; split_and!.
      all: try (split; [done | by intros ([=] & _)]).
      all: done.
  - destruct (new_chat_members update) as [|u us].
    + destruct (effective_chat_type update); simpl.
      all: try case_bool_decide.
      all: split_and!; try done.
      all: try (split; [done | by intros (_ & _ & [=])]).
      all: try (split; [done | by intros (_ & _ & ? & ?)]).
      all: try (split; [done | by intros (_ & _ & ?)]).
      all: split; intros; split_and!; done.
    + split_and!; try done.
      all: split; [done | by intros (_ & [=] & _)].
Qed.

(** ** Instances of the properties *)

Lemma create_invite_link_records_link_witness :
  result (@create_invite_link (obliging "John IFT 202311038308") 42
            (lit "John IFT 202311038308") 1000) no_stores
  = Ok (Some (lit "https://t.me/+rejoin")).
Proof.
  destruct (@create_invite_link_records_link (obliging "John IFT 202311038308")
              42 (lit "John IFT 202311038308") 1000
              (lit "https://t.me/+rejoin") no_stores) as [W _].
  - reflexivity.
  - exact W.
Defined.

Lemma create_invite_link_failure_witness :
  result (@create_invite_link (no_invites "John IFT 202311038308") 42
            (lit "John IFT 202311038308") 1000) no_stores
  = Ok None.
Proof.
  destruct (@create_invite_link_failure (no_invites "John IFT 202311038308")
              42 (lit "John IFT 202311038308") 1000 no_stores) as [W _].
  - intros l. vm_compute. discriminate.
  - exact W.
Defined.

Lemma issued_link_is_active_witness :
  result (check_invite_link_status 42 2000)
    (after (@create_invite_link (obliging "John IFT 202311038308") 42
              (lit "John IFT 202311038308") 1000) no_stores)
  = Ok link_active.
Proof.
  apply (@issued_link_is_active (obliging "John IFT 202311038308") 42
           (lit "John IFT 202311038308") 1000 (lit "https://t.me/+rejoin")
           2000 no_stores).
  reflexivity.
Defined.

Lemma sweep_leaves_no_expired_link_witness :
  result (check_invite_link_status 7 8000000000)
    (after (cleanup_expired_links 8000000000) (approved_7 ∅))
  <> Ok link_expired.
Proof.
  destruct (sweep_leaves_no_expired_link 8000000000 8000000000 7
              (approved_7 ∅)) as [W _].
  - lia.
  - exact W.
Defined.

Lemma exemption_is_cached_witness :
  issued (@is_lecturer_or_admin (all_admins "Ada Obi") 42 GROUP_ID)
    (after (@is_lecturer_or_admin (all_admins "Ada Obi") 42 GROUP_ID)
       no_stores)
  = [].
Proof.
  destruct (@exemption_is_cached (all_admins "Ada Obi") 42 GROUP_ID GROUP_ID
              no_stores) as [_ W].
  - vm_compute. reflexivity.
  - exact W.
Defined.

Lemma new_identity_is_registered_witness :
  member_name_tracker
    (after (@detect_name_change basic_latin (obliging "big mac") 42
              (lit "big mac")) no_stores) !! 42
  = Some (lit "big mac").
Proof.
  destruct (@new_identity_is_registered basic_latin (obliging "big mac") 42
              (lit "big mac") no_stores) as (_ & W & _).
  - vm_compute. reflexivity.
  - reflexivity.
  - rewrite W. vm_compute. reflexivity.
Defined.

Lemma change_to_invalid_name_witness :
  result (@detect_name_change basic_latin (obliging "Big Mac") 42
            (lit "Big Mac")) unwarned_42
  = Ok true.
Proof.
  destruct (@change_to_invalid_name basic_latin (obliging "Big Mac") 42
              (lit "Big Mac") (lit "big mac") unwarned_42) as [W _].
  - vm_compute. reflexivity.
  - vm_compute. reflexivity.
  - vm_compute. discriminate.
  - vm_compute. reflexivity.
  - exact W.
Defined.

Lemma exempt_identity_is_not_observed_witness :
  result (@detect_name_change basic_latin (obliging "big mac") 7
            (lit "big mac")) (approved_7 {[7]})
  = Ok false.
Proof.
  destruct (@exempt_identity_is_not_observed basic_latin (obliging "big mac")
              7 (lit "big mac") (approved_7 {[7]})) as [W _].
  - vm_compute. reflexivity.
  - exact W.
Defined.

Lemma warning_arms_the_deadline_witness :
  pending_corrections
    (after (@warn_and_schedule_removal (obliging "big mac") GROUP_ID
              (student 42 "big mac") 1000) no_stores) !! 42
  = Some {| warning_msg_id := 1; pending_username := None;
            pending_display_name := lit "big mac"; warning_time := 1000;
            timer_end := 1000 + seconds NAME_CORRECTION_TIME |}.
Proof.
  destruct (@warning_arms_the_deadline (obliging "big mac") GROUP_ID
              (student 42 "big mac") 1000 1 no_stores) as (_ & W & _).
  - vm_compute. reflexivity.
  - reflexivity.
  - rewrite W. vm_compute. reflexivity.
Defined.

Lemma resolver_bans_only_invalid_names_witness :
  @non_exempt stubborn warned_42 42.
Proof.
  destruct (@resolver_bans_only_invalid_names basic_latin stubborn GROUP_ID 42
              Done warned_42) as [W _].
  - vm_compute. repeat constructor.
  - exact W.
Defined.

Lemma sweep_spares_records_not_due_witness :
  pending_corrections
    (after (@check_pending_removals basic_latin (obliging "big mac") by_key 0)
       warned_42) !! 42
  = Some warning_of_42.
Proof.
  destruct (@sweep_spares_records_not_due basic_latin (obliging "big mac")
              by_key 42
              warning_of_42 0 warned_42) as [W _].
  - vm_compute. reflexivity.
  - vm_compute. reflexivity.
  - exact W.
Defined.

Lemma completed_sweep_clears_due_records_witness :
  pending_corrections
    (after (@check_pending_removals basic_latin stubborn by_key_reversed
              900000000)
       warned_42) !! 42
  = None.
Proof.
  apply (@completed_sweep_clears_due_records basic_latin stubborn
           by_key_reversed 900000000
           warned_42) with (p := warning_of_42).
  - vm_compute. reflexivity.
  - vm_compute. reflexivity.
  - vm_compute. discriminate.
Defined.

Lemma sweep_bans_at_deadline_witness :
  exists rest,
    map fst (issued (@check_pending_removals basic_latin stubborn by_key
                       900000000)
               warned_42)
    = get_chat_member GROUP_ID 42 :: ban_chat_member GROUP_ID 42 :: rest.
Proof.
  destruct (@sweep_bans_at_deadline basic_latin stubborn by_key 900000000 42
              warning_of_42
              {| status := member; user := student 42 "big mac" |}
              warned_42) as (_ & _ & W & _).
  - split; [reflexivity|]. split; [vm_compute; discriminate|].
    intros k q Hk _. unfold warned_42 in Hk. simpl in Hk.
    apply lookup_singleton_Some in Hk as [<- _]. reflexivity.
  - reflexivity.
  - vm_compute. reflexivity.
  - exact W.
Defined.

Lemma sweep_acknowledges_correction_witness :
  member_name_tracker
    (after (@check_pending_removals basic_latin
              (obliging "Big Mac ABC 202311038308") by_key 900000000)
       warned_42) !! 42
  = Some (lit "Big Mac ABC 202311038308").
Proof.
  destruct (@sweep_acknowledges_correction basic_latin
              (obliging "Big Mac ABC 202311038308") by_key 900000000 42
              warning_of_42
              {| status := member;
                 user := student 42 "Big Mac ABC 202311038308" |}
              warned_42) as (_ & W & _).
  - split; [reflexivity|]. split; [vm_compute; discriminate|].
    intros k q Hk _. unfold warned_42 in Hk. simpl in Hk.
    apply lookup_singleton_Some in Hk as [<- _]. reflexivity.
  - reflexivity.
  - vm_compute. reflexivity.
  - exact W.
Defined.

Lemma invalid_joiner_is_warned_witness :
  job_queue
    (after (@handle_new_member basic_latin (obliging "big mac")
              (join_event (student 42 "big mac")) 1000) no_stores)
  = [delete_specific_message_job 1 WARNING_DELETE_TIME].
Proof.
  destruct (@invalid_joiner_is_warned basic_latin (obliging "big mac")
              (join_event (student 42 "big mac")) (student 42 "big mac")
              1000 1 no_stores) as (_ & _ & _ & _ & W & _).
  - reflexivity.
  - reflexivity.
  - vm_compute. reflexivity.
  - vm_compute. discriminate.
  - reflexivity.
  - vm_compute. reflexivity.
  - reflexivity.
  - exact W.
Defined.

Lemma valid_joiner_is_welcomed_witness :
  map fst
    (issued (@handle_new_member basic_latin (obliging "John IFT 202311038308")
               (join_event john_7) 1000) no_stores)
  = [get_chat_member GROUP_ID 7;
     reply_text (Welcome (lit "John IFT 202311038308"))].
Proof.
  destruct (@valid_joiner_is_welcomed basic_latin
              (obliging "John IFT 202311038308") (join_event john_7) john_7
              1000 no_stores) as (_ & _ & _ & W).
  - reflexivity.
  - reflexivity.
  - vm_compute. reflexivity.
  - vm_compute. discriminate.
  - reflexivity.
  - vm_compute. reflexivity.
  - exact W.
Defined.

Lemma changed_invalid_name_is_warned_witness :
  member_name_tracker
    (after (@handle_message basic_latin (obliging "Big Mac")
              (group_message (student 42 "Big Mac") "hello") 1000)
       unwarned_42) !! 42
  = Some (lit "Big Mac").
Proof.
  destruct (@changed_invalid_name_is_warned basic_latin (obliging "Big Mac")
              (group_message (student 42 "Big Mac") "hello")
              (student 42 "Big Mac") (lit "big mac") 1000 unwarned_42)
    as (_ & W & _).
  - reflexivity.
  - reflexivity.
  - apply (bool_decide_unpack (42 ∉ LECTURER_IDS)). vm_compute. exact I.
  - apply (bool_decide_unpack (42 ∉ group_admins unwarned_42)).
    vm_compute. exact I.
  - intros k. vm_compute. reflexivity.
  - vm_compute. reflexivity.
  - vm_compute. discriminate.
  - vm_compute. reflexivity.
  - exact W.
Defined.

Lemma rejoin_request_approved_witness :
  approved_rejoins
    (after (@handle_private_message basic_latin
              (obliging "John IFT 202311038308")
              (private_message (student 42 "John IFT 202311038308") "hello")
              1000) no_stores) !! 42
  = Some {| display_name := lit "John IFT 202311038308";
            approval_time := 1000 |}.
Proof.
  destruct (@rejoin_request_approved basic_latin
              (obliging "John IFT 202311038308")
              (private_message (student 42 "John IFT 202311038308") "hello")
              (student 42 "John IFT 202311038308") 1000 104%N
              (lit "ttps://t.me/+rejoin") 2 no_stores) as (_ & _ & W & _).
  - reflexivity.
  - vm_compute. reflexivity.
  - vm_compute. reflexivity.
  - vm_compute. reflexivity.
  - vm_compute. reflexivity.
  - reflexivity.
  - reflexivity.
  - exact W.
Defined.

Lemma rejoin_request_invalid_name_witness :
  rejoin_attempts
    (after (@handle_private_message basic_latin (obliging "big mac")
              (private_message (student 42 "big mac") "hello") 1000)
       no_stores) !! 42
  = Some {| attempts := 1; last_attempt := Some 1000 |}.
Proof.
  destruct (@rejoin_request_invalid_name basic_latin (obliging "big mac")
              (private_message (student 42 "big mac") "hello")
              (student 42 "big mac") 1000 no_stores) as [W _].
  - reflexivity.
  - vm_compute. reflexivity.
  - vm_compute. reflexivity.
  - vm_compute. reflexivity.
  - vm_compute. reflexivity.
  - exact W.
Defined.

Lemma approval_rolled_back_when_reply_fails_witness :
  approved_rejoins
    (after (@handle_private_message basic_latin unreachable
              (private_message (student 42 "John IFT 202311038308") "hello")
              1000) no_stores) !! 42
  = None.
Proof.
  destruct (@approval_rolled_back_when_reply_fails basic_latin unreachable
              (private_message (student 42 "John IFT 202311038308") "hello")
              (student 42 "John IFT 202311038308") 1000 no_stores) as [W _].
  - reflexivity.
  - vm_compute. reflexivity.
  - vm_compute. reflexivity.
  - vm_compute. reflexivity.
  - vm_compute. reflexivity.
  - reflexivity.
  - intros i. vm_compute. discriminate.
  - exact W.
Defined.

Lemma exempt_sender_bypasses_rejoin_witness :
  rejoin_attempts
    (after (@handle_private_message basic_latin
              (obliging "John IFT 202311038308")
              (private_message john_7 "hello") 1000) (approved_7 {[7]}))
  = rejoin_attempts (approved_7 {[7]}).
Proof.
  destruct (@exempt_sender_bypasses_rejoin basic_latin
              (obliging "John IFT 202311038308")
              (private_message john_7 "hello") john_7 1000
              (approved_7 {[7]})) as [W _].
  - reflexivity.
  - vm_compute. reflexivity.
  - exact W.
Defined.

Lemma ascii_names_ignore_the_tables_witness :
  @validate_name wide_tables pre_matric (lit "Tope IFT 202311038308")
  = @validate_name basic_latin pre_matric (lit "Tope IFT 202311038308").
Proof.
  apply (ascii_names_ignore_the_tables wide_tables basic_latin pre_matric
           (lit "Tope IFT 202311038308")).
  unfold is_ascii. repeat constructor.
Defined.

Lemma modes_accept_disjoint_names_witness :
  @validate_name basic_latin post_matric (lit "Tope IFT 202311038308") = false.
Proof.
  apply (@modes_accept_disjoint_names basic_latin
           (lit "Tope IFT 202311038308")).
  vm_compute. reflexivity.
Defined.
